(** * Squat form analysis of reform-service: a shallow embedding

    The development follows the Python sources

      - [src/exercise_1/calculation/calculation.py]       (angle extraction),
      - [src/exercise_1/llm_form_analysis/llm_form_analysis.py]
        (rep segmentation, metric analyzers, score aggregation),
      - [src/exercise_1/exercise.py]                      (exercise adapter),
      - [src/shared/pose_estimation/landmark_validation.py] and
        [src/exercise_1/calculation/landmark_validation.py]
        (landmark validation).

    Numbers.  Python [int]s that count frames or index lists are [nat];
    differences of them and integer thresholds are [Z].  Python [float]s
    are read as exact numbers: rationals [Q] wherever the code only adds,
    multiplies, divides and compares (so that the model runs), and reals
    [R] where it calls [math.atan2] or takes a square root.  Rounding
    error of the binary floating-point format is outside this reading.
    The one place where the code turns a float quotient into an
    integer score, the score aggregator, is modelled a second time on
    binary64 numbers (module [FloatAggregator]), and the value of the
    final score is stated there.

    Layout: the model first, one module per component, then the
    properties, one section per component; a third part holds further
    properties of the same code. *)

From Stdlib Require Import ZArith QArith Qround Qabs Lia List Bool.
From Stdlib Require Import Reals Lra.
From Stdlib Require Lqa.
From Stdlib Require PrimFloat FloatOps SpecFloat.
From stdpp Require Import base option list sorting gmap strings.
Import ListNotations.

Local Open Scope Z_scope.

(* ================================================================== *)
(** * Part I: the model                                                *)
(* ================================================================== *)

(** ** Python numeric primitives on exact rationals *)

Module PyNum.

(** [a < b] on floats. *)
Definition Qltb (a b : Q) : bool := negb (Qle_bool b a).

(** [int(x)] on a float: truncation toward zero. *)
Definition py_int (q : Q) : Z := Z.quot (Qnum q) (Zpos (Qden q)).

(** [round(x)] on a float: nearest integer, ties to the even one.
    The code under study never calls it on a score; the definition
    is the reading of the word round against which the aggregator
    is compared. *)
Definition py_round (q : Q) : Z :=
  let f := Qfloor q in
  let r := (q - inject_Z f)%Q in
  if Qltb r (1 # 2) then f
  else if Qltb (1 # 2) r then f + 1
  else if Z.even f then f else f + 1.

(** [sum(xs)] on floats, accumulated left to right from [0]. *)
Definition Qsum (l : list Q) : Q := fold_left Qplus l 0%Q.

End PyNum.

(** ** Score aggregator ([calculate_final_score], [_determine_grade]) *)

Module Aggregator.
Import PyNum.

Inductive Status := good | warning | poor | error.

(** A metric result.  Every analyzer returns a dict that carries at
    least ["status"] and ["message"], hence a non-empty (truthy) one;
    ["score"] is absent on the error results.  Messages and the
    metric-specific numeric fields play no part in the aggregation
    and are left out. *)
Record MetricResult := mkResult { status : Status; score : option Z }.

(** The form-analysis mapping: metric name to metric result. *)
Abbreviation FormAnalysis := (gmap string MetricResult).

Inductive Grade := Excellent | Good | Fair | NeedsImprovement.

Record FinalScore := mkFinal {
  final_score : Z;
  grade : Grade;
  component_scores : list (string * Z);
  weights_out : list (string * Q)
}.

(** The [weights] dict, in insertion order. *)
Definition weights : list (string * Q) :=
  [ ("torso_angle", 0.25%Q); ("quad_angle", 0.25%Q);
    ("glute_dominance", 0.12%Q); ("rep_consistency", 0.18%Q);
    ("torso_asymmetry", 0.08%Q); ("quad_asymmetry", 0.07%Q);
    ("ankle_asymmetry", 0.05%Q) ].

Definition _determine_grade (final_score : Z) : Grade :=
  if 90 <=? final_score then Excellent
  else if 75 <=? final_score then Good
  else if 60 <=? final_score then Fair
  else NeedsImprovement.

(** Loop state: [(weighted_sum, total_weight, component_scores)]. *)
Definition acc_t : Type := Q * Q * list (string * Z).

(** One iteration of [for key, weight in weights.items()]. *)
Definition score_step (form_analysis : FormAnalysis)
    (acc : acc_t) (kw : string * Q) : acc_t :=
  let '(weighted_sum, total_weight, comps) := acc in
  let '(key, weight) := kw in
  match form_analysis !! key with
  | Some analysis =>
      match score analysis with
      | Some s =>
          ((weighted_sum + inject_Z s * weight)%Q,
           (total_weight + weight)%Q,
           comps ++ [(key, s)])
      | None => acc
      end
  | None => acc
  end.

Definition score_loop (form_analysis : FormAnalysis)
    (ws : list (string * Q)) (acc : acc_t) : acc_t :=
  fold_left (score_step form_analysis) ws acc.

Definition calculate_final_score (form_analysis : FormAnalysis) : FinalScore :=
  let '(weighted_sum, total_weight, comps) :=
    score_loop form_analysis weights (0%Q, 0%Q, []) in
  let final :=
    if Qltb 0 total_weight then py_int (weighted_sum / total_weight) else 0 in
  {| final_score := final;
     grade := _determine_grade final;
     component_scores := comps;
     weights_out := weights |}.

(** The metrics of a weight table that carry a score, with score
    and weight, in table order. *)
Definition scored (form_analysis : FormAnalysis) (ws : list (string * Q))
    : list (string * Z * Q) :=
  omap (fun kw : string * Q =>
          match form_analysis !! kw.1 with
          | Some analysis =>
              match score analysis with
              | Some s => Some (kw.1, s, kw.2)
              | None => None
              end
          | None => None
          end) ws.

Definition sum_score_weight (l : list (string * Z * Q)) : Q :=
  Qsum (map (fun e : string * Z * Q => (inject_Z e.1.2 * e.2)%Q) l).

Definition sum_weight (l : list (string * Z * Q)) : Q :=
  Qsum (map (fun e : string * Z * Q => e.2) l).

(** The error result of an analyzer: no score. *)
Definition error_result : MetricResult := mkResult error None.

(** *** Example mappings *)

(** Torso and depth both perfect, every other weighted metric in
    error state. *)
Definition fa_two_perfect : FormAnalysis :=
  {[ "torso_angle" := mkResult good (Some 100);
     "quad_angle" := mkResult good (Some 100);
     "ankle_angle" := error_result;
     "torso_asymmetry" := error_result;
     "quad_asymmetry" := error_result;
     "ankle_asymmetry" := error_result;
     "rep_consistency" := error_result ]}.

(** A single-rep video: torso, depth, ankle and hip timing good, the
    three asymmetries at warning level, rep consistency in error
    state (it needs two reps). *)
Definition fa_warn_asymmetry : FormAnalysis :=
  {[ "torso_angle" := mkResult good (Some 100);
     "quad_angle" := mkResult good (Some 100);
     "ankle_angle" := mkResult good (Some 100);
     "torso_asymmetry" := mkResult warning (Some 75);
     "quad_asymmetry" := mkResult warning (Some 75);
     "ankle_asymmetry" := mkResult warning (Some 75);
     "rep_consistency" := error_result;
     "glute_dominance" := mkResult good (Some 100) ]}.

(** The same video seen from the front, with poor ankle mobility and
    a knee-valgus result added. *)
Definition fa_warn_asymmetry_front : FormAnalysis :=
  <[ "ankle_angle" := mkResult poor (Some 50) ]>
    (<[ "knee_valgus" := mkResult poor (Some 50) ]> fa_warn_asymmetry).

End Aggregator.

(** ** Python floats as binary64 numbers

    The score aggregator truncates a quotient of two float sums, and
    there the rounding of every single operation can move the result
    across an integer.  The aggregator is therefore modelled a second
    time on the kernel's binary64 numbers, whose operations are those
    of Python's [float]. *)

Module Float64.
Import PrimFloat FloatOps SpecFloat.

#[local] Set Warnings "-inexact-float".

(** [float(n)] for an [int]: the nearest binary64 number, ties to
    even; [None] is the OverflowError of an [int] too large. *)
Definition float_of_int (n : Z) : option float :=
  let f := SF2Prim (binary_normalize prec emax n 0 false) in
  if is_infinity f then None else Some f.

(** [int(x)] for a [float]: truncation toward zero; [None] is the
    error raised on an infinity or a NaN. *)
Definition int_of_float (x : float) : option Z :=
  match Prim2SF x with
  | S754_zero _ => Some 0
  | S754_finite s m e =>
      let v := match e with
               | Z0 => Z.pos m
               | Zpos p => Z.shiftl (Z.pos m) (Z.pos p)
               | Zneg p => Z.shiftr (Z.pos m) (Z.pos p)
               end in
      Some (if s then - v else v)
  | S754_infinity _ | S754_nan => None
  end.

End Float64.

(** ** Score aggregator on binary64 floats ([calculate_final_score]) *)

Module FloatAggregator.
Import PrimFloat Float64 Aggregator.

#[local] Set Warnings "-inexact-float".

Record FinalScore := mkFinal {
  final_score : Z;
  grade : Grade;
  component_scores : list (string * Z);
  weights_out : list (string * float)
}.

(** The [weights] dict, in insertion order; each literal is the
    binary64 number nearest to it. *)
Definition weights : list (string * float) :=
  [ ("torso_angle", 0.25%float); ("quad_angle", 0.25%float);
    ("glute_dominance", 0.12%float); ("rep_consistency", 0.18%float);
    ("torso_asymmetry", 0.08%float); ("quad_asymmetry", 0.07%float);
    ("ankle_asymmetry", 0.05%float) ].

(** Loop state: [(weighted_sum, total_weight, component_scores)]. *)
Definition acc_t : Type := float * float * list (string * Z).

(** One iteration of [for key, weight in weights.items()];
    [score * weight] turns the [int] score into a float first. *)
Definition score_step (form_analysis : FormAnalysis)
    (acc : option acc_t) (kw : string * float) : option acc_t :=
  '(weighted_sum, total_weight, comps) ← acc;
  let '(key, weight) := kw in
  match form_analysis !! key with
  | Some analysis =>
      match score analysis with
      | Some s =>
          x ← float_of_int s;
          Some ((weighted_sum + x * weight)%float,
                (total_weight + weight)%float,
                comps ++ [(key, s)])
      | None => Some (weighted_sum, total_weight, comps)
      end
  | None => Some (weighted_sum, total_weight, comps)
  end.

Definition score_loop (form_analysis : FormAnalysis)
    (ws : list (string * float)) (acc : option acc_t) : option acc_t :=
  fold_left (score_step form_analysis) ws acc.

(** [None] stands for an exception escaping the function. *)
Definition calculate_final_score (form_analysis : FormAnalysis) : option FinalScore :=
  '(weighted_sum, total_weight, comps) ←
    score_loop form_analysis weights (Some (0%float, 0%float, []));
  final ← (if (0 <? total_weight)%float
           then int_of_float (weighted_sum / total_weight)
           else Some 0);
  Some {| final_score := final;
          grade := _determine_grade final;
          component_scores := comps;
          weights_out := weights |}.

(** The metrics of a weight table that carry a score, with score
    and weight, in table order. *)
Definition scored (form_analysis : FormAnalysis) (ws : list (string * float))
    : list (string * Z * float) :=
  omap (fun kw : string * float =>
          match form_analysis !! kw.1 with
          | Some analysis =>
              match score analysis with
              | Some s => Some (kw.1, s, kw.2)
              | None => None
              end
          | None => None
          end) ws.

(** The two running sums over a list of scored metrics, from the
    accumulators [(weighted_sum, total_weight)], added up from left
    to right in binary64 arithmetic. *)
Definition sum_step (acc : option (float * float)) (e : string * Z * float)
    : option (float * float) :=
  '(weighted_sum, total_weight) ← acc;
  x ← float_of_int e.1.2;
  Some ((weighted_sum + x * e.2)%float, (total_weight + e.2)%float).

Definition running_sums (l : list (string * Z * float)) : option (float * float) :=
  fold_left sum_step l (Some (0%float, 0%float)).

(** *** Example mappings *)

(** A single-rep video in which every analyzer that can run returns
    100: rep consistency is in error state (it needs two reps). *)
Definition fa_six_perfect : FormAnalysis :=
  {[ "torso_angle" := mkResult good (Some 100);
     "quad_angle" := mkResult good (Some 100);
     "ankle_angle" := mkResult good (Some 100);
     "torso_asymmetry" := mkResult good (Some 100);
     "quad_asymmetry" := mkResult good (Some 100);
     "ankle_asymmetry" := mkResult good (Some 100);
     "rep_consistency" := error_result;
     "glute_dominance" := mkResult good (Some 100) ]}.

(** *** The scores the analyzers can return *)

(** The scores each weighted analyzer can return: read off
    [_determine_torso_status], [_determine_quad_status],
    [_determine_glute_dominance_status], [_determine_asymmetry_status]
    and, for rep consistency, [analyze_rep_consistency]: 0, or [int]
    of a third of a sum of three of 50, 75 and 100. *)
Definition analyzer_scores : list (string * list Z) :=
  [ ("torso_angle", [50; 75; 90; 95; 100]);
    ("quad_angle", [50; 75; 100]);
    ("glute_dominance", [50; 75; 100]);
    ("rep_consistency", [0; 50; 58; 66; 75; 83; 91; 100]);
    ("torso_asymmetry", [50; 75; 100]);
    ("quad_asymmetry", [50; 75; 100]);
    ("ankle_asymmetry", [50; 75; 100]) ].

(** Every score under a weighted key is one its analyzer can return. *)
Definition produced_by_analyzers (form_analysis : FormAnalysis) : bool :=
  forallb (fun kr : string * list Z =>
             match form_analysis !! kr.1 ≫= score with
             | Some s => bool_decide (s ∈ kr.2)
             | None => true
             end) analyzer_scores.

(** The entries the aggregator reads: the score under each key of a
    weight table, in table order. *)
Definition read_scores (form_analysis : FormAnalysis) (ws : list (string * float))
    : list (option Z) :=
  map (fun kw : string * float => form_analysis !! kw.1 ≫= score) ws.

(** The scored metrics from those entries. *)
Definition scored_of (ws : list (string * float)) (v : list (option Z))
    : list (string * Z * float) :=
  omap (fun e : string * float * option Z =>
          (fun s => (e.1.1, s, e.1.2)) <$> e.2) (zip ws v).

(** The final score from those entries. *)
Definition final_of_scores (v : list (option Z)) : option Z :=
  '(weighted_sum, total_weight) ← running_sums (scored_of weights v);
  if (0 <? total_weight)%float
  then int_of_float (weighted_sum / total_weight)
  else Some 0.

(** [p] holds on all lists that take their [i]-th entry from the
    [i]-th list of choices. *)
Fixpoint forall_vectors {A} (choices : list (list A)) (p : list A -> bool) : bool :=
  match choices with
  | [] => p []
  | c :: rest => forallb (fun x => forall_vectors rest (fun v => p (x :: v))) c
  end.

(** For each weighted key: no score, or one of the analyzer's. *)
Definition score_choices : list (list (option Z)) :=
  map (fun kr : string * list Z => None :: map Some kr.2) analyzer_scores.

Definition Zmin_list (a : Z) (l : list Z) : Z := fold_left Z.min l a.
Definition Zmax_list (a : Z) (l : list Z) : Z := fold_left Z.max l a.

(** What the truncated float quotient keeps of the scores it
    averages: the final score is at most the largest score and at
    most one below the smallest, and not below 90 when no score is. *)
Definition final_near_scores (v : list (option Z)) : bool :=
  match omap (fun s : option Z => s) v with
  | [] => true
  | s :: ss =>
      match final_of_scores v with
      | Some f =>
          (Zmin_list s ss - 1 <=? f) && (f <=? Zmax_list s ss)
          && implb (90 <=? Zmin_list s ss) (90 <=? f)
      | None => false
      end
  end.

(** Torso lean, depth and quad asymmetry at the warning score 75,
    nothing else scored. *)
Definition fa_three_warning : FormAnalysis :=
  {[ "torso_angle" := mkResult warning (Some 75);
     "quad_angle" := mkResult warning (Some 75);
     "quad_asymmetry" := mkResult warning (Some 75);
     "rep_consistency" := error_result;
     "glute_dominance" := error_result ]}.

(** Torso lean, depth and ankle asymmetry at 90, a score only the
    torso analyzer returns. *)
Definition fa_three_at_90 : FormAnalysis :=
  {[ "torso_angle" := mkResult good (Some 90);
     "quad_angle" := mkResult good (Some 90);
     "ankle_asymmetry" := mkResult good (Some 90);
     "rep_consistency" := error_result;
     "glute_dominance" := error_result ]}.

End FloatAggregator.

(** ** Rep segmenter ([detect_squat_phases] and its helpers) *)

Module Segmenter.
Import PyNum.

(** An element of [angles_with_indices] / [valid_angles]:
    [(frame, angle)]. *)
Definition sample : Type := nat * Q.

(** A peak paired with a position: [(idx, (frame, angle))]. *)
Definition ipeak : Type := nat * sample.

Record Rep := mkRep { start_frame : nat; bottom_frame : nat; end_frame : nat }.

(** The phases dict; [detect_squat_phases] fills its one key ["reps"]. *)
Abbreviation Phases := (gmap string (list Rep)).

(** [l[i]] at a position the surrounding loop keeps inside the list. *)
Definition at_ (l : list sample) (i : nat) : sample := nth i l (0%nat, 0%Q).

(** [l[-1] = x] on a non-empty list. *)
Definition replace_last {A} (l : list A) (x : A) : list A := removelast l ++ [x].

Definition _is_local_max (i : nat) (angles_with_indices : list sample)
    (min_height : Q) : bool :=
  if (i <? 2)%nat || (length angles_with_indices <=? i + 2)%nat then false
  else
    let prev2 := (at_ angles_with_indices (i - 2)).2 in
    let prev1 := (at_ angles_with_indices (i - 1)).2 in
    let curr := (at_ angles_with_indices i).2 in
    let next1 := (at_ angles_with_indices (i + 1)).2 in
    let next2 := (at_ angles_with_indices (i + 2)).2 in
    Qltb prev1 curr && Qltb next1 curr && Qle_bool min_height curr
    && Qltb prev2 curr && Qltb next2 curr.

(** One iteration of the scan over [candidates[1:]]; [peaks] is the
    list of accepted peaks so far. *)
Definition dedup_step (min_distance : Z) (peaks : list ipeak) (c : ipeak)
    : list ipeak :=
  match last peaks with
  | None => peaks
  | Some prev =>
      let frame_diff := Z.of_nat c.1 - Z.of_nat prev.1 in
      if min_distance <=? frame_diff then peaks ++ [c]
      else if Qltb prev.2.2 c.2.2 then replace_last peaks c
      else peaks
  end.

(** The list [peaks] when the scan ends. *)
Definition accepted_peaks (candidates : list ipeak) (min_distance : Z)
    : list ipeak :=
  match candidates with
  | [] => []
  | c0 :: rest => fold_left (dedup_step min_distance) rest [c0]
  end.

Definition _filter_peaks_by_distance (candidates : list ipeak)
    (min_distance : Z) : list sample :=
  map snd (accepted_peaks candidates min_distance).

Definition peak_candidates (angles_with_indices : list sample)
    (min_height : Q) : list ipeak :=
  omap (fun i => if _is_local_max i angles_with_indices min_height
                 then Some (i, at_ angles_with_indices i) else None)
       (seq 2 (length angles_with_indices - 2 - 2)).

Definition _find_peaks (angles_with_indices : list sample) (min_height : Q)
    (min_distance : Z) : list sample :=
  _filter_peaks_by_distance (peak_candidates angles_with_indices min_height)
                            min_distance.

(** The merge test of [_filter_bounce_reps] on [peaks[i-1]], [peaks[i]]. *)
Definition is_bounce (bounce_threshold : Z) (prev curr : ipeak) : bool :=
  (Z.of_nat curr.1 - Z.of_nat prev.1 <? bounce_threshold)
  && Qle_bool (prev.2.2 * 0.9) curr.2.2.

(** The loop [for i in range(1, len(peaks_with_indices))]: [prev] is
    [peaks_with_indices[i-1]], [rest] is [peaks_with_indices[i:]]. *)
Fixpoint bounce_loop (bounce_threshold : Z) (prev : ipeak)
    (rest : list ipeak) (filtered : list ipeak) : list ipeak :=
  match rest with
  | [] => filtered
  | curr :: rest' =>
      bounce_loop bounce_threshold curr rest'
        (if is_bounce bounce_threshold prev curr
         then replace_last filtered curr
         else filtered ++ [curr])
  end.

Definition _filter_bounce_reps (peaks_with_indices : list ipeak)
    (angles_with_indices : list sample) (bounce_threshold : Z) : list ipeak :=
  if (length peaks_with_indices <? 2)%nat then peaks_with_indices
  else match peaks_with_indices with
       | [] => []
       | p0 :: rest => bounce_loop bounce_threshold p0 rest [p0]
       end.

(** [next(i for i, (f, _) in enumerate(l) if f == frame)]; [None] is
    the StopIteration of an exhausted generator. *)
Fixpoint index_of_frame (l : list sample) (frame : nat) : option nat :=
  match l with
  | [] => None
  | (f, _) :: t =>
      if (f =? frame)%nat then Some 0%nat else S <$> index_of_frame t frame
  end.

(** The backward scan [for i in range(peak_idx - 1, -1, -1)]; [n] is
    the number of positions still to visit, the next one being [n - 1]. *)
Fixpoint scan_back (l : list sample) (threshold : Q) (peak_idx peak_frame : nat)
    (n : nat) : option nat :=
  match n with
  | O => None
  | S i =>
      if Qltb (at_ l i).2 threshold
      then Some (if (i + 1 <=? peak_idx)%nat then (at_ l (i + 1)).1 else peak_frame)
      else scan_back l threshold peak_idx peak_frame i
  end.

(** The forward scan [for i in range(peak_idx + 1, len(l))]; [todo] is
    the number of positions still to visit, the next one being [i]. *)
Fixpoint scan_fwd (l : list sample) (threshold : Q) (peak_idx peak_frame : nat)
    (i todo : nat) : option nat :=
  match todo with
  | O => None
  | S todo' =>
      if Qltb (at_ l i).2 threshold
      then Some (if (peak_idx <=? i - 1)%nat then (at_ l (i - 1)).1 else peak_frame)
      else scan_fwd l threshold peak_idx peak_frame (S i) todo'
  end.

Definition _find_rep_start_end (angles_with_indices : list sample)
    (peak_frame : nat) (baseline threshold : Q) : option (nat * nat) :=
  peak_idx ← index_of_frame angles_with_indices peak_frame;
  let start_frame :=
    match scan_back angles_with_indices threshold peak_idx peak_frame peak_idx with
    | Some f => f
    | None => (at_ angles_with_indices 0).1
    end in
  let end_frame :=
    match scan_fwd angles_with_indices threshold peak_idx peak_frame
                   (peak_idx + 1) (length angles_with_indices - (peak_idx + 1)) with
    | Some f => f
    | None => (at_ angles_with_indices (length angles_with_indices - 1)).1
    end in
  Some (start_frame, end_frame).

(** [min(xs)]; [None] is the ValueError on an empty list. *)
Definition py_min (l : list Q) : option Q :=
  match l with
  | [] => None
  | x :: t => Some (fold_left (fun m y => if Qltb y m then y else m) t x)
  end.

Definition _calculate_baseline (valid_angles : list sample) : option Q :=
  if (20 <? length valid_angles)%nat
  then py_min (map snd (firstn 10 valid_angles)
               ++ map snd (skipn (length valid_angles - 10) valid_angles))
  else py_min (map snd valid_angles).

Fixpoint _build_reps_from_peaks (filtered_peaks : list ipeak)
    (valid_angles : list sample) (baseline threshold : Q) : option (list Rep) :=
  match filtered_peaks with
  | [] => Some []
  | (peak_idx, (peak_frame, peak_angle)) :: rest =>
      '(s, e) ← _find_rep_start_end valid_angles peak_frame baseline threshold;
      reps ← _build_reps_from_peaks rest valid_angles baseline threshold;
      Some (if (s <? e)%nat then mkRep s peak_frame e :: reps else reps)
  end.

(** [[(i, a) for i, a in enumerate(xs) if a is not None]], counting
    from [i]. *)
Fixpoint enumerate_valid (i : nat) (l : list (option Q)) : list sample :=
  match l with
  | [] => []
  | Some a :: t => (i, a) :: enumerate_valid (S i) t
  | None :: t => enumerate_valid (S i) t
  end.

Fixpoint with_indices (valid_angles peaks : list sample) : option (list ipeak) :=
  match peaks with
  | [] => Some []
  | p :: rest =>
      i ← index_of_frame valid_angles p.1;
      r ← with_indices valid_angles rest;
      Some ((i, p) :: r)
  end.

(** The list under ["reps"] of the returned dict; [None] stands for an
    exception escaping the function. *)
Definition detect_reps (quad_angles_per_frame : list (option Q)) (fps : Q)
    : option (list Rep) :=
  if forallb (fun a : option Q => negb (bool_decide (is_Some a))) quad_angles_per_frame
  then Some []
  else
    let valid_angles := enumerate_valid 0 quad_angles_per_frame in
    match valid_angles with
    | [] => Some []
    | _ =>
        baseline ← _calculate_baseline valid_angles;
        let squat_threshold := (baseline + 20)%Q in
        let peaks := _find_peaks valid_angles squat_threshold 30 in
        match peaks with
        | [] => Some []
        | _ =>
            let bounce_threshold_frames := py_int (fps * 1.0) in
            peaks_with_indices ← with_indices valid_angles peaks;
            let filtered_peaks :=
              _filter_bounce_reps peaks_with_indices valid_angles
                                  bounce_threshold_frames in
            _build_reps_from_peaks filtered_peaks valid_angles baseline squat_threshold
        end
    end.

Definition detect_squat_phases (quad_angles_per_frame : list (option Q)) (fps : Q)
    : option Phases :=
  reps ← detect_reps quad_angles_per_frame fps;
  Some {[ "reps" := reps ]}.

(** *** Shape of a rep list *)

(** A single rep is well formed. *)
Definition rep_wf (r : Rep) : Prop :=
  (start_frame r < end_frame r)%nat
  /\ (start_frame r <= bottom_frame r)%nat
  /\ (bottom_frame r <= end_frame r)%nat.

(** Two reps share a frame. *)
Definition reps_overlap (r1 r2 : Rep) : Prop :=
  exists f : nat,
    (start_frame r1 <= f <= end_frame r1)%nat
    /\ (start_frame r2 <= f <= end_frame r2)%nat.

(** [r1] comes before [r2]: its bottom is earlier, its start and its
    end are no later, and the two frame intervals are either disjoint
    or the same interval. *)
Definition rep_before (r1 r2 : Rep) : Prop :=
  (bottom_frame r1 < bottom_frame r2)%nat
  /\ (start_frame r1 <= start_frame r2)%nat
  /\ (end_frame r1 <= end_frame r2)%nat
  /\ ((end_frame r1 < start_frame r2)%nat
      \/ (start_frame r1 = start_frame r2 /\ end_frame r1 = end_frame r2)).

(** *** Vocabulary for the rep boundaries *)

(** Frames grow strictly along a sample list. *)
Definition frames_increasing (l : list sample) : Prop :=
  forall i j : nat, (i < j)%nat -> (j < length l)%nat -> ((at_ l i).1 < (at_ l j).1)%nat.

(** The sample at position [i] is below the squat threshold. *)
Definition below (l : list sample) (threshold : Q) (i : nat) : Prop :=
  Qltb (at_ l i).2 threshold = true.

(** A peak with position: the position is inside the list, the peak
    is the sample there, and it is not below the threshold. *)
Definition peak_ok (l : list sample) (threshold : Q) (pk : ipeak) : Prop :=
  (pk.1 < length l)%nat /\ pk.2 = at_ l pk.1 /\ ~ below l threshold pk.1.

Definition idx_lt (a b : ipeak) : Prop := (a.1 < b.1)%nat.

(** [a] lies at least [d] positions before [b]. *)
Definition spaced (d : Z) (a b : ipeak) : Prop :=
  (Z.of_nat a.1 + d <= Z.of_nat b.1)%Z.

(** [s] is where the backward scan from position [p] stops: nothing
    below the threshold from [s] up to [p], and the list starts at
    [s] or the sample before [s] is below. *)
Definition start_pos (l : list sample) (threshold : Q) (p s : nat) : Prop :=
  (s <= p)%nat
  /\ (forall j : nat, (s <= j < p)%nat -> ~ below l threshold j)
  /\ (s = 0%nat \/ below l threshold (s - 1)).

(** [e] is where the forward scan from position [p] stops. *)
Definition end_pos (l : list sample) (threshold : Q) (p e : nat) : Prop :=
  (p <= e < length l)%nat
  /\ (forall j : nat, (p < j <= e)%nat -> ~ below l threshold j)
  /\ (e = (length l - 1)%nat \/ below l threshold (e + 1)).

(** The rep built around the peak at position [p]. *)
Definition rep_of_pos (l : list sample) (threshold : Q) (p : nat) (r : Rep) : Prop :=
  exists s e : nat,
    start_pos l threshold p s /\ end_pos l threshold p e
    /\ r = mkRep (at_ l s).1 (at_ l p).1 (at_ l e).1.

(** *** The bounce filter in closed form *)




(** *** Example series *)

(** A series without missing frames, from a function of the frame. *)
Definition series (f : nat -> Q) (n : nat) : list (option Q) :=
  map (fun i => Some (f i)) (seq 0 n).

(** A sharp squat of depth 50 around frame [c]: 10, 30, 50, 30, 10. *)
Definition bump (c i : nat) : Q :=
  if (i =? c)%nat then 50%Q
  else if ((i =? c - 1) || (i =? c + 1))%nat then 30%Q
  else if ((i =? c - 2) || (i =? c + 2))%nat then 10%Q
  else 0%Q.

(** Standing at 0 degrees with two sharp squats, bottoms at frames
    20 and 79, over 100 frames. *)
Definition two_squats : list (option Q) :=
  series (fun i => if (i <? 50)%nat then bump 20 i else bump 79 i) 100.

(** One descent held at 40 degrees from frame 10 to frame 69, with
    two deeper dips to 50 degrees at frames 20 and 60. *)
Definition paused_squat : list (option Q) :=
  series (fun i =>
            if (i <? 10)%nat then 0%Q
            else if (i <? 70)%nat
                 then (if ((i =? 20) || (i =? 60))%nat then 50%Q else 40%Q)
            else 0%Q) 80.

(** Standing at 90 degrees; a peak of 130 at frame 50 and a peak of
    height [h] at frame 60, the signal staying at 112 in between. *)
Definition twin_peaks (h : Q) : list (option Q) :=
  series (fun i =>
            if (i =? 50)%nat then 130%Q
            else if (i =? 60)%nat then h
            else if ((i =? 49) || (i =? 51) || (i =? 59) || (i =? 61))%nat then 120%Q
            else if ((i =? 48) || (i =? 52) || (i =? 58) || (i =? 62))%nat then 115%Q
            else if ((52 <? i) && (i <? 58))%nat then 112%Q
            else 90%Q) 120.

(** A spike of height 50 at frame [c], a single frame above the squat
    threshold: 10, 50, 10. *)
Definition spike (c i : nat) : Q :=
  if (i =? c)%nat then 50%Q
  else if ((i =? c - 1) || (i =? c + 1))%nat then 10%Q
  else 0%Q.


(** Three sharp squats, bottoms at frames 20, 55 and 90, over 110
    frames. *)
Definition three_squats : list (option Q) :=
  series (fun i => if (i <? 38)%nat then bump 20 i
                   else if (i <? 73)%nat then bump 55 i
                   else bump 90 i) 110.

(** Two spikes at frames 50 and 60, over 120 frames. *)
Definition twin_spikes : list (option Q) :=
  series (fun i => if (i <? 55)%nat then spike 50 i else spike 60 i) 120.

End Segmenter.

(** ** Active-phase filtering ([_filter_to_active_phases],
     [Exercise1._extract_active_angles]) *)

Module ActivePhase.
Import Segmenter.

(** [range(rep["start_frame"], rep["end_frame"] + 1)]. *)
Definition rep_frames (rep : Rep) : list nat :=
  seq (start_frame rep) (end_frame rep + 1 - start_frame rep).

(** [angles[i] if i < len(angles) else None]. *)
Definition frame_or_none (angles : list (option Q)) (i : nat) : option Q :=
  match angles !! i with
  | Some a => a
  | None => None
  end.

(** [not phases.get("reps")]: the key is missing or the list is empty. *)
Definition no_reps (phases : Phases) : bool :=
  match phases !! "reps" with
  | None | Some [] => true
  | Some (_ :: _) => false
  end.

(** [phases["reps"]] on the paths where the key is present. *)
Definition reps_of (phases : Phases) : list Rep := default [] (phases !! "reps").

Definition _filter_to_active_phases
    (torso_angles_per_frame quad_angles_per_frame : list (option Q))
    : option (list (option Q)) :=
  phases ← detect_squat_phases quad_angles_per_frame 30.0;
  if no_reps phases then Some torso_angles_per_frame
  else
    let active_frames := flat_map rep_frames (reps_of phases) in
    match active_frames with
    | [] => Some torso_angles_per_frame
    | _ => Some (map (frame_or_none torso_angles_per_frame) active_frames)
    end.

Definition _extract_active_angles (angles : list (option Q)) (phases : Phases)
    : list (option Q) :=
  if no_reps phases then angles
  else flat_map (fun rep => map (frame_or_none angles) (rep_frames rep))
                (reps_of phases).

(** *** Example series *)

(** Forty frames of standing still at 5 degrees: no squat in it. *)
Definition standing : list (option Q) := series (fun _ => 5%Q) 40.

End ActivePhase.

(** ** Torso analyzer ([analyze_torso_angle]), the caller of
       [_filter_to_active_phases] *)

Module TorsoAnalyzer.
Import PyNum Aggregator Segmenter ActivePhase.

(** [max(xs)]; [None] is the ValueError on an empty list. *)
Definition py_max (l : list Q) : option Q :=
  match l with
  | [] => None
  | x :: t => Some (fold_left (fun m y => if Qltb m y then y else m) t x)
  end.

(** [(max_angle, avg_angle, angle_range)]. *)
Definition _calculate_torso_metrics (valid_angles : list Q) : option (Q * Q * Q) :=
  max_angle ← py_max valid_angles;
  min_angle ← py_min valid_angles;
  Some (max_angle,
        (Qsum valid_angles / inject_Z (Z.of_nat (length valid_angles)))%Q,
        (max_angle - min_angle)%Q).

(** [(status, score)] of [_determine_torso_status]. *)
Definition _determine_torso_status (max_angle avg_angle : Q) : Status * Z :=
  if Qle_bool max_angle 43 then
    if Qle_bool 35 avg_angle && Qle_bool avg_angle 43 then (good, 100)
    else if Qltb avg_angle 35 then (good, 95)
    else (good, 90)
  else if Qle_bool max_angle 45 then (warning, 75)
  else (poor, 50).

(** The status and score of [analyze_torso_angle].  A missing
    [quad_angles_per_frame] (the default [None]) is the empty list;
    [validation_result] only changes the message of an error result
    and is left out. *)
Definition analyze_torso_angle
    (torso_angles_per_frame quad_angles_per_frame : list (option Q))
    : option MetricResult :=
  if forallb (fun a : option Q => negb (bool_decide (is_Some a))) torso_angles_per_frame
  then Some error_result
  else
    active ← match quad_angles_per_frame with
             | [] => Some torso_angles_per_frame
             | _ => _filter_to_active_phases torso_angles_per_frame quad_angles_per_frame
             end;
    let valid_angles := omap (fun a : option Q => a) active in
    match valid_angles with
    | [] => Some error_result
    | _ =>
        '(max_angle, avg_angle, angle_range) ← _calculate_torso_metrics valid_angles;
        let '(status, score) := _determine_torso_status max_angle avg_angle in
        Some (mkResult status (Some score))
    end.

(** *** Example series *)

(** Forty frames of standing with the torso leaning 50 degrees. *)
Definition leaning : list (option Q) := series (fun _ => 50%Q) 40.

End TorsoAnalyzer.

(** ** Depth, ankle and asymmetry analyzers ([analyze_quad_angle],
     [analyze_ankle_angle], [analyze_asymmetry]) *)

Module Analyzers.
Import PyNum Aggregator Segmenter TorsoAnalyzer.

(** [not xs or all(a is None for a in xs)]. *)
Definition all_missing (l : list (option Q)) : bool :=
  forallb (fun a : option Q => negb (bool_decide (is_Some a))) l.

(** [[a for a in xs if a is not None]]. *)
Definition valid_values (l : list (option Q)) : list Q :=
  omap (fun a : option Q => a) l.

(** [sum(xs) / len(xs)]. *)
Definition py_mean (l : list Q) : Q :=
  (Qsum l / inject_Z (Z.of_nat (length l)))%Q.

(** [(max_angle, avg_angle, angle_range)]. *)
Definition _calculate_quad_metrics (valid_angles : list Q) : option (Q * Q * Q) :=
  max_angle ← py_max valid_angles;
  min_angle ← py_min valid_angles;
  Some (max_angle, py_mean valid_angles, (max_angle - min_angle)%Q).

Definition _determine_quad_status (max_angle avg_angle : Q) : Status * Z :=
  if Qle_bool 70 max_angle then (good, 100)
  else if Qle_bool 60 max_angle then (warning, 75)
  else (poor, 50).

Definition analyze_quad_angle (quad_angles_per_frame : list (option Q))
    : option MetricResult :=
  if all_missing quad_angles_per_frame then Some error_result
  else
    let valid_angles := valid_values quad_angles_per_frame in
    match valid_angles with
    | [] => Some error_result
    | _ =>
        '(max_angle, avg_angle, angle_range) ← _calculate_quad_metrics valid_angles;
        let '(status, score) := _determine_quad_status max_angle avg_angle in
        Some (mkResult status (Some score))
    end.

(** [(min_angle, avg_angle, angle_range)]. *)
Definition _calculate_ankle_metrics (valid_angles : list Q) : option (Q * Q * Q) :=
  min_angle ← py_min valid_angles;
  max_angle ← py_max valid_angles;
  Some (min_angle, py_mean valid_angles, (max_angle - min_angle)%Q).

Definition _determine_ankle_status (min_angle avg_angle : Q) : Status * Z :=
  if Qle_bool min_angle 60 then (good, 100)
  else if Qle_bool min_angle 70 then (warning, 75)
  else (poor, 50).

Definition analyze_ankle_angle (ankle_angles_per_frame : list (option Q))
    : option MetricResult :=
  if all_missing ankle_angles_per_frame then Some error_result
  else
    let valid_angles := valid_values ankle_angles_per_frame in
    match valid_angles with
    | [] => Some error_result
    | _ =>
        '(min_angle, avg_angle, angle_range) ← _calculate_ankle_metrics valid_angles;
        let '(status, score) := _determine_ankle_status min_angle avg_angle in
        Some (mkResult status (Some score))
    end.

(** [(max_asymmetry, avg_asymmetry, avg_abs_asymmetry)]. *)
Definition _calculate_asymmetry_metrics (valid_asymmetry : list Q)
    : option (Q * Q * Q) :=
  let abs_asymmetry := map Qabs valid_asymmetry in
  max_asymmetry ← py_max abs_asymmetry;
  Some (max_asymmetry, py_mean valid_asymmetry, py_mean abs_asymmetry).

(** [side] only enters the message. *)
Definition _determine_asymmetry_status (max_asymmetry avg_abs_asymmetry : Q)
    (side : string) : Status * Z :=
  if Qltb max_asymmetry 5 then (good, 100)
  else if Qltb max_asymmetry 10 then (warning, 75)
  else (poor, 50).

Definition analyze_asymmetry (asymmetry_per_frame : list (option Q))
    (asymmetry_type : string) : option MetricResult :=
  if all_missing asymmetry_per_frame then Some error_result
  else
    let valid_asymmetry := valid_values asymmetry_per_frame in
    match valid_asymmetry with
    | [] => Some error_result
    | _ =>
        '(max_asymmetry, avg_asymmetry, avg_abs_asymmetry) ←
          _calculate_asymmetry_metrics valid_asymmetry;
        let '(status, score) :=
          _determine_asymmetry_status max_asymmetry avg_abs_asymmetry asymmetry_type in
        Some (mkResult status (Some score))
    end.

End Analyzers.

(** ** Movement onset ([_calculate_smoothed_baseline],
     [_detect_movement_start_velocity]) *)

Module Onset.
Import PyNum Segmenter ActivePhase.

Definition _calculate_smoothed_baseline (angles : list (option Q))
    (start_frame window : nat) : Q :=
  let valid :=
    omap (frame_or_none angles)
         (seq start_frame
              (Nat.min (start_frame + window) (length angles) - start_frame)) in
  match valid with
  | [] => default 0%Q (frame_or_none angles start_frame)
  | _ => (Qsum valid / inject_Z (Z.of_nat (length valid)))%Q
  end.

(** The test of the loop body at frame [i]. *)
Definition onset_test (angles : list (option Q)) (fps baseline velocity_threshold : Q)
    (i : nat) : bool :=
  match frame_or_none angles i, frame_or_none angles (i - 1) with
  | Some a, Some b =>
      let velocity := (Qabs (a - b) * fps)%Q in
      Qle_bool velocity_threshold velocity && Qle_bool 3.0 (Qabs (a - baseline))
  | _, _ => false
  end.

(** [None] is the ZeroDivisionError of [2.0 / fps] at [fps = 0]. *)
Definition _detect_movement_start_velocity (angles : list (option Q))
    (start_frame end_frame : nat) (fps : Q) : option nat :=
  if (length angles <=? start_frame)%nat || (length angles <=? end_frame)%nat
     || (end_frame <=? start_frame)%nat
  then Some start_frame
  else if Qeq_bool fps 0 then None
  else
    let baseline := _calculate_smoothed_baseline angles start_frame 3 in
    let velocity_threshold := (2.0 / fps)%Q in
    match List.find (onset_test angles fps baseline velocity_threshold)
                    (seq (start_frame + 1)
                         (Nat.min (end_frame + 1) (length angles) - (start_frame + 1))) with
    | Some i => Some i
    | None => Some start_frame
    end.

(** The onset condition in the words of the specification: the speed
    [|angle[i] - angle[i-1]| * fps] is at least 2.0 degrees per second
    and the angle is at least 3.0 degrees off the smoothed baseline. *)
Definition spec_onset_condition (angles : list (option Q)) (fps baseline : Q)
    (i : nat) : bool :=
  match frame_or_none angles i, frame_or_none angles (i - 1) with
  | Some a, Some b =>
      Qle_bool 2.0 (Qabs (a - b) * fps) && Qle_bool 3.0 (Qabs (a - baseline))
  | _, _ => false
  end.

(** *** Example series *)

(** Sixty frames of a steady, slow descent from 10 degrees at 0.06
    degrees per frame, which is 1.8 degrees per second at 30 fps. *)
Definition slow_descent : list (option Q) :=
  series (fun i => (10 + 0.06 * inject_Z (Z.of_nat i))%Q) 60.

End Onset.

(** ** Hip and knee timing ([_calculate_glute_dominance_metrics],
    [_determine_glute_dominance_status], [analyze_glute_dominance]) *)

Module GluteDominance.
Import PyNum Aggregator Segmenter Onset.

(** [round(x, 1)]: the nearest multiple of 0.1, ties to the even one. *)
Definition py_round1 (q : Q) : Q := (inject_Z (py_round (q * 10)) / 10)%Q.

(** The body of the loop over the reps: the timing difference of one
    rep in milliseconds.  A rep built by the segmenter always has its
    ["bottom_frame"], so the default of [rep.get] is never taken.
    [None] is the ZeroDivisionError at [fps = 0], raised by the onset
    detector or by the division. *)
Definition timing_diff_ms (quad_angles torso_angles : list (option Q)) (fps : Q)
    (rep : Rep) : option Q :=
  let start := start_frame rep in
  let bottom := bottom_frame rep in
  hip_start ← _detect_movement_start_velocity torso_angles start bottom fps;
  knee_start ← _detect_movement_start_velocity quad_angles start bottom fps;
  let timing_diff_frames := (Z.of_nat hip_start - Z.of_nat knee_start)%Z in
  if Qeq_bool fps 0 then None
  else Some (inject_Z timing_diff_frames / fps * 1000)%Q.

Record GluteMetrics := mkGluteMetrics {
  avg_timing_diff_ms : Q;
  per_rep_diffs_ms : list Q
}.

(** The inner [None] is the error dict returned for an empty list of
    reps, the outer one an exception. *)
Definition _calculate_glute_dominance_metrics (quad_angles torso_angles : list (option Q))
    (reps : list Rep) (fps : Q) : option (option GluteMetrics) :=
  match reps with
  | [] => Some None
  | _ =>
      timing_diffs_ms ← mapM (timing_diff_ms quad_angles torso_angles fps) reps;
      let avg :=
        match timing_diffs_ms with
        | [] => 0%Q
        | _ => (Qsum timing_diffs_ms / inject_Z (Z.of_nat (length timing_diffs_ms)))%Q
        end in
      Some (Some (mkGluteMetrics (py_round1 avg) (map py_round1 timing_diffs_ms)))
  end.

(** [(status, score)] of [_determine_glute_dominance_status]. *)
Definition _determine_glute_dominance_status (avg_timing_diff_ms : Q) : Status * Z :=
  if Qle_bool 50 avg_timing_diff_ms then (good, 100%Z)
  else if Qle_bool (-50) avg_timing_diff_ms then (warning, 75%Z)
  else (poor, 50%Z).

Inductive GluteAnalysis :=
  | glute_error
  | glute_result (status : Status) (score : Z) (metrics : GluteMetrics).

Definition analyze_glute_dominance (quad_angles_per_frame torso_angles_per_frame : list (option Q))
    (reps : list Rep) (fps : Q) : option GluteAnalysis :=
  match quad_angles_per_frame, torso_angles_per_frame, reps with
  | [], _, _ | _, [], _ | _, _, [] => Some glute_error
  | _, _, _ =>
      metrics ← _calculate_glute_dominance_metrics
                  quad_angles_per_frame torso_angles_per_frame reps fps;
      match metrics with
      | None => Some glute_error
      | Some m =>
          let '(status, score) := _determine_glute_dominance_status (avg_timing_diff_ms m) in
          Some (glute_result status score m)
      end
  end.

(** *** Example series *)

(** The torso starts to lean at frame 2, the thigh starts to drop at
    frame 6: the hips move first.  The onsets found are frames 3 and 6. *)
Definition hips_lead_torso : list (option Q) :=
  series (fun i => if (i <? 2)%nat then 5%Q else (5 + 4 * inject_Z (Z.of_nat (i - 1)))%Q) 12.
Definition hips_lead_quad : list (option Q) :=
  series (fun i => if (i <? 6)%nat then 10%Q else (10 + 4 * inject_Z (Z.of_nat (i - 5)))%Q) 12.

End GluteDominance.

(** ** Rep consistency ([_calculate_consistency_metrics],
     [_determine_consistency_status], [_analyze_single_consistency]) *)

Module Consistency.
Import Aggregator.
Local Open Scope R_scope.

Definition Rsum (l : list R) : R := fold_left Rplus l 0.

(** [(mean_val, std_dev, cv)]. *)
Definition _calculate_consistency_metrics (per_rep_values : list R)
    : option R * option R * option R :=
  if (length per_rep_values <? 2)%nat then (None, None, None)
  else
    let n := INR (length per_rep_values) in
    let mean_val := Rsum per_rep_values / n in
    let variance := Rsum (map (fun x => (x - mean_val) ^ 2) per_rep_values) / n in
    let std_dev := sqrt variance in
    let cv := if Req_dec_T mean_val 0 then None
              else Some (std_dev / mean_val * 100) in
    (Some mean_val, Some std_dev, cv).

(** [(status, score)] of [_determine_consistency_status]. *)
Definition _determine_consistency_status (cv : option R) : Status * Z :=
  match cv with
  | None => (error, 0%Z)
  | Some c =>
      if Rlt_dec c 5 then (good, 100%Z)
      else if Rlt_dec c 10 then (warning, 75%Z)
      else (poor, 50%Z)
  end.

(** Truth value of [cv] in [if cv]: [None] and [0.0] are false. *)
Definition truthy (cv : option R) : bool :=
  match cv with
  | None => false
  | Some c => if Req_dec_T c 0 then false else true
  end.

(** [(status, score)] of [_analyze_single_consistency]. *)
Definition _analyze_single_consistency (values : list R) : Status * Z :=
  let '(mean_val, std_val, cv) := _calculate_consistency_metrics values in
  if truthy cv then _determine_consistency_status cv else (error, 0%Z).

(** The coefficient of variation in the words of the specification:
    [stddev / mean * 100]. *)
Definition spec_cv (values : list R) : R :=
  let n := INR (length values) in
  let mean := Rsum values / n in
  sqrt (Rsum (map (fun x => (x - mean) ^ 2) values) / n) / mean * 100.

(** *** Example values *)

(** Two reps with the same summary value, for instance the same
    depth of 100 in both. *)
Definition identical_reps : list R := [100; 100].

(** Two reps whose summary values differ a little. *)
Definition close_reps : list R := [99; 101].

End Consistency.

(** ** Rep-to-rep consistency ([_extract_per_rep_metrics],
    [analyze_rep_consistency]) *)

Module RepConsistency.
Import Aggregator Segmenter Consistency.
Local Open Scope R_scope.

(** [valid_angles] of one rep: the measured values at the frames of
    the rep that lie inside the series. *)
Definition valid_angles (angles_per_frame : list (option R)) (rep : Rep) : list R :=
  omap (fun i : nat => mjoin (angles_per_frame !! i))
       (seq (start_frame rep) (end_frame rep + 1 - start_frame rep)).

(** [max(xs)] of a non-empty list, given as head and tail. *)
Definition Rmax_list (a : R) (l : list R) : R := fold_left Rmax l a.

(** A rep without a measured frame contributes no value. *)
Definition _extract_per_rep_metrics (angles_per_frame : list (option R))
    (reps : list Rep) (metric_type : string) : list R :=
  omap (fun rep : Rep =>
          match valid_angles angles_per_frame rep with
          | [] => None
          | a :: l =>
              if String.eqb metric_type "max" then Some (Rmax_list a l)
              else Some (Rsum (a :: l) / INR (length (a :: l)))
          end) reps.

(** [all([depth_score, torso_score, asym_score])]: no score is 0. *)
Definition all_scores (scores : list Z) : bool := forallb (fun s => negb (s =? 0)%Z) scores.

Definition overall_score (depth_score torso_score asym_score : Z) : Z :=
  if all_scores [depth_score; torso_score; asym_score]
  then (depth_score + torso_score + asym_score) `quot` 3
  else 0%Z.

Definition Status_eqb (a b : Status) : bool :=
  match a, b with
  | good, good | warning, warning | poor, poor | error, error => true
  | _, _ => false
  end.

Definition overall_status (depth_status torso_status asym_status : Status) : Status :=
  let statuses := [depth_status; torso_status; asym_status] in
  if forallb (fun s => Status_eqb s good || Status_eqb s warning) statuses then good
  else if existsb (fun s => Status_eqb s poor) statuses then warning
  else poor.

Inductive RepConsistencyAnalysis :=
  | consistency_error
  | consistency_result (status : Status) (score : Z) (rep_count : nat)
      (depth_consistency torso_consistency asymmetry_consistency : Status * Z).

(** The two dicts are keyed by the name of the series; a missing key
    reads as the empty series. *)
Definition analyze_rep_consistency
    (angles_per_frame asymmetry_per_frame : gmap string (list (option R)))
    (reps : list Rep) : RepConsistencyAnalysis :=
  if (length reps <? 2)%nat then consistency_error
  else
    let depth_values :=
      _extract_per_rep_metrics (default [] (angles_per_frame !! "quad_angle")) reps "max" in
    let torso_values :=
      _extract_per_rep_metrics (default [] (angles_per_frame !! "torso_angle")) reps "avg" in
    let quad_asymmetry_values :=
      _extract_per_rep_metrics (default [] (asymmetry_per_frame !! "quad_asymmetry")) reps "avg" in
    let depth := _analyze_single_consistency depth_values in
    let torso := _analyze_single_consistency torso_values in
    let asym := _analyze_single_consistency quad_asymmetry_values in
    consistency_result (overall_status depth.1 torso.1 asym.1)
                       (overall_score depth.2 torso.2 asym.2)
                       (length reps) depth torso asym.

(** The entries ["status"] and ["score"] of the returned dict, which
    are what the score aggregator reads. *)
Definition metric_result (r : RepConsistencyAnalysis) : MetricResult :=
  match r with
  | consistency_error => error_result
  | consistency_result status score _ _ _ _ => mkResult status (Some score)
  end.

End RepConsistency.

(** ** Angle extractor ([calculation.py]) *)

Module Geometry.
Local Open Scope R_scope.

(** A landmark: normalized image coordinates. *)
Record Point := mkPoint { x : R; y : R }.

(** The landmark container of one frame.  The pose detector always
    delivers its full, fixed-size landmark array, so indexing it at
    the body-part identifiers used here never fails. *)
Record Landmarks := mkLandmarks { landmark : nat -> Point }.

(** [math.atan2(y, x)] on exact reals, with values in (-PI, PI]. *)
Definition atan2 (y x : R) : R :=
  if Rlt_dec 0 x then atan (y / x)
  else if Rlt_dec x 0 then
    (if Rle_dec 0 y then atan (y / x) + PI else atan (y / x) - PI)
  else if Rlt_dec 0 y then PI / 2
  else if Rlt_dec y 0 then - (PI / 2)
  else 0.

(** [math.degrees]. *)
Definition degrees (r : R) : R := r * 180 / PI.

(** The value of [angle_from_horizontal] after the wrap of negative
    angles (the first four lines of both angle functions). *)
Definition angle_from_horizontal (point1 point2 : Point) : R :=
  let dx := x point2 - x point1 in
  let dy := y point2 - y point1 in
  let a := degrees (atan2 (- dy) dx) in
  if Rlt_dec a 0 then a + 360 else a.

Definition get_segment_angle (point1 point2 : Point) : R :=
  let v := angle_from_horizontal point1 point2 in
  if Rle_dec v 90 then 90 - v
  else if Rle_dec v 180 then v - 90
  else if Rle_dec v 270 then 270 - v
  else v - 270.

Definition get_ankle_segment_angle (point1 point2 : Point) : R :=
  let v := angle_from_horizontal point1 point2 in
  if Rle_dec v 90 then v
  else if Rle_dec v 180 then 180 - v
  else if Rle_dec v 270 then 270 - v
  else 360 - v.

(** In the three per-frame functions below both angle functions
    always return a number, so the test that neither side is [None]
    always passes and a frame with a pose always gets the mean. *)
Definition calculate_torso_angle_per_frame
    (landmarks_list : list (option Landmarks)) : list (option R) :=
  map (fun frame : option Landmarks =>
         match frame with
         | None => None
         | Some landmarks =>
             let left_angle :=
               get_segment_angle (landmark landmarks 23) (landmark landmarks 11) in
             let right_angle :=
               get_segment_angle (landmark landmarks 24) (landmark landmarks 12) in
             Some ((left_angle + right_angle) / 2)
         end) landmarks_list.

Definition calculate_quad_angle_per_frame
    (landmarks_list : list (option Landmarks)) : list (option R) :=
  map (fun frame : option Landmarks =>
         match frame with
         | None => None
         | Some landmarks =>
             let left_angle :=
               get_segment_angle (landmark landmarks 23) (landmark landmarks 25) in
             let right_angle :=
               get_segment_angle (landmark landmarks 24) (landmark landmarks 26) in
             Some ((left_angle + right_angle) / 2)
         end) landmarks_list.

Definition calculate_ankle_angle_per_frame
    (landmarks_list : list (option Landmarks)) : list (option R) :=
  map (fun frame : option Landmarks =>
         match frame with
         | None => None
         | Some landmarks =>
             let left_angle :=
               get_ankle_segment_angle (landmark landmarks 29) (landmark landmarks 25) in
             let right_angle :=
               get_ankle_segment_angle (landmark landmarks 30) (landmark landmarks 26) in
             Some ((left_angle + right_angle) / 2)
         end) landmarks_list.

(** The ["angles_per_frame"] entry of [calculate_squat_form]:
    (torso, quad, ankle). *)
Definition calculate_squat_form (landmarks_list : list (option Landmarks))
    : list (option R) * list (option R) * list (option R) :=
  (calculate_torso_angle_per_frame landmarks_list,
   calculate_quad_angle_per_frame landmarks_list,
   calculate_ankle_angle_per_frame landmarks_list).

(** A per-frame angle is missing or lies between 0 and 90 degrees. *)
Definition angle_in_range (a : option R) : Prop :=
  match a with
  | None => True
  | Some v => 0 <= v <= 90
  end.

(** Two landmarks: the second lies below and to the right of the
    first in image coordinates (y grows downward). *)
Definition origin : Point := mkPoint 0 0.
Definition down_right : Point := mkPoint 1 2.

End Geometry.

(** ** Knee valgus ([_calculate_knee_valgus_angle],
    [_calculate_valgus_per_frame], [_calculate_valgus_metrics],
    [_determine_valgus_status], [analyze_knee_valgus]) *)

Module KneeValgus.
Import Aggregator Segmenter Consistency RepConsistency Geometry.
Local Open Scope R_scope.

(** The frontal-plane projection angle at the knee; [None] when the
    knee coincides with the hip or with the ankle. *)
Definition _calculate_knee_valgus_angle (hip knee ankle : Point) : option R :=
  let vec1_x := x hip - x knee in
  let vec1_y := y hip - y knee in
  let vec2_x := x ankle - x knee in
  let vec2_y := y ankle - y knee in
  let dot := vec1_x * vec2_x + vec1_y * vec2_y in
  let cross := vec1_x * vec2_y - vec1_y * vec2_x in
  let mag1 := sqrt (vec1_x ^ 2 + vec1_y ^ 2) in
  let mag2 := sqrt (vec2_x ^ 2 + vec2_y ^ 2) in
  if Req_dec_T mag1 0 then None
  else if Req_dec_T mag2 0 then None
  else
    let cos_angle := dot / (mag1 * mag2) in
    let cos_angle := Rmax (-1) (Rmin 1 cos_angle) in
    let angle_rad := acos cos_angle in
    let angle_rad := if Rlt_dec 0 cross then 2 * PI - angle_rad else angle_rad in
    Some (degrees angle_rad).

(** [i in active_frames]: frame [i] lies in some rep. *)
Definition in_active_frames (reps : list Rep) (i : nat) : bool :=
  existsb (fun rep => (start_frame rep <=? i)%nat && (i <=? end_frame rep)%nat) reps.

(** The value appended for frame [i]. *)
Definition valgus_of_frame (reps : list Rep) (i : nat) (frame : option Landmarks)
    : option R :=
  if negb (in_active_frames reps i) then None
  else
    match frame with
    | None => None
    | Some landmarks =>
        let left_valgus :=
          _calculate_knee_valgus_angle (landmark landmarks 23) (landmark landmarks 25)
                                       (landmark landmarks 27) in
        let right_valgus :=
          _calculate_knee_valgus_angle (landmark landmarks 24) (landmark landmarks 26)
                                       (landmark landmarks 28) in
        match left_valgus, right_valgus with
        | Some l, Some r => Some ((l + r) / 2)
        | _, _ => None
        end
    end.

Definition _calculate_valgus_per_frame (landmarks_list : list (option Landmarks))
    (reps : list Rep) : list (option R) :=
  match landmarks_list, reps with
  | [], _ | _, [] => []
  | _, _ => imap (valgus_of_frame reps) landmarks_list
  end.

(** [min(xs)] of a non-empty list, given as head and tail. *)
Definition Rmin_list (a : R) (l : list R) : R := fold_left Rmin l a.

(** [(max_fppa, avg_fppa, fppa_range, max_deviation_from_180,
    most_extreme_fppa)] of a non-empty list; [None] is the ValueError
    of [max] on an empty one.  [deviations.index(max_deviation)] is
    the first position that holds the largest deviation. *)
Definition _calculate_valgus_metrics (valid_fppa : list R)
    : option (R * R * R * R * R) :=
  match valid_fppa with
  | [] => None
  | f :: fs =>
      let max_fppa := Rmax_list f fs in
      let min_fppa := Rmin_list f fs in
      let avg_fppa := Rsum valid_fppa / INR (length valid_fppa) in
      let fppa_range := max_fppa - min_fppa in
      let deviation := fun f : R => Rabs (180 - f) in
      let max_deviation_from_180 := Rmax_list (deviation f) (map deviation fs) in
      most_extreme_fppa ←
        List.find (fun g => if Req_dec_T (deviation g) max_deviation_from_180
                            then true else false) valid_fppa;
      Some (max_fppa, avg_fppa, fppa_range, max_deviation_from_180, most_extreme_fppa)
  end.

(** [(status, score)] of [_determine_valgus_status]. *)
Definition _determine_valgus_status (max_fppa avg_fppa max_deviation most_extreme_fppa : R)
    : Status * Z :=
  if Rlt_dec max_deviation 4 then (good, 100%Z)
  else if Rlt_dec max_deviation 8 then
    (if Rlt_dec most_extreme_fppa 180 then (warning, 75%Z) else (warning, 75%Z))
  else
    (if Rlt_dec most_extreme_fppa 180 then (poor, 50%Z) else (warning, 75%Z)).

(** Status and score of [analyze_knee_valgus]. *)
Definition analyze_knee_valgus (landmarks_list : list (option Landmarks))
    (reps : list Rep) : option MetricResult :=
  match landmarks_list, reps with
  | [], _ | _, [] => Some error_result
  | _, _ =>
      let fppa_angles := _calculate_valgus_per_frame landmarks_list reps in
      let valid_fppa := omap (fun f : option R => f) fppa_angles in
      match valid_fppa with
      | [] => Some error_result
      | _ =>
          '(max_fppa, avg_fppa, fppa_range, max_deviation, most_extreme_fppa) ←
            _calculate_valgus_metrics valid_fppa;
          let '(status, score) :=
            _determine_valgus_status max_fppa avg_fppa max_deviation most_extreme_fppa in
          Some (mkResult status (Some score))
      end
  end.

(** *** Vocabulary for poses *)




End KneeValgus.

(** ** Landmark validation ([shared/pose_estimation/landmark_validation.py],
    [exercise_1/calculation/landmark_validation.py]) *)

Module LandmarkValidation.
Import PyNum.

(** A landmark as the validator sees it: each coordinate is a finite
    number or not ([None] stands for [None], NaN and the infinities). *)
Record RawLandmark := mkRaw { raw_x : option Q; raw_y : option Q }.

(** The landmark array of a frame with a pose; an entry can be [None]. *)
Abbreviation RawLandmarks := (list (option RawLandmark)).

Definition _is_valid_landmark_coords (landmark : RawLandmark) : bool :=
  bool_decide (is_Some (raw_x landmark)) && bool_decide (is_Some (raw_y landmark)).

Definition validate_single_landmark (landmark : option RawLandmark) : bool :=
  match landmark with
  | None => false
  | Some lm => _is_valid_landmark_coords lm
  end.

(** An index past the end of the array is the caught IndexError. *)
Definition _check_landmark_exists (landmarks : option RawLandmarks) (index : nat) : bool :=
  match landmarks with
  | None => false
  | Some l =>
      match l !! index with
      | Some landmark => validate_single_landmark landmark
      | None => false
      end
  end.

Definition _get_missing_landmarks (landmarks : option RawLandmarks) (required : list nat)
    : list nat :=
  List.filter (fun idx => negb (_check_landmark_exists landmarks idx)) required.

Definition _calculate_validation_score (landmarks : option RawLandmarks)
    (required : list nat) : Q :=
  match required with
  | [] => match landmarks with Some _ => 1.0 | None => 0.0 end
  | _ =>
      let missing_count := length (_get_missing_landmarks landmarks required) in
      let v := (1.0 - inject_Z (Z.of_nat missing_count)
                      / inject_Z (Z.of_nat (length required)))%Q in
      if Qltb 0.0 v then v else 0.0%Q
  end.

(** The entries of a frame result that carry data; the message lists
    are left out.  A missing [required_landmarks] (the default [None])
    is the empty list. *)
Record FrameResult := mkFrameResult {
  is_valid : bool;
  has_pose : bool;
  missing_landmarks : list nat;
  validation_score : Q
}.

Definition validate_frame_landmarks (landmarks : option RawLandmarks)
    (required_landmarks : list nat) : FrameResult :=
  match landmarks with
  | None => mkFrameResult false false required_landmarks 0.0
  | Some _ =>
      let missing := _get_missing_landmarks landmarks required_landmarks in
      let score := _calculate_validation_score landmarks required_landmarks in
      mkFrameResult (length missing =? 0)%nat true missing score
  end.

Inductive BatchMessage := no_landmarks_provided | few_valid_frames | low_detection_quality.

Record BatchResult := mkBatchResult {
  overall_valid : bool;
  valid_frame_count : nat;
  total_frame_count : nat;
  valid_frame_percentage : Q;
  per_frame_results : list FrameResult;
  missing_critical_frames : list nat;
  quality_score : Q;
  errors : list BatchMessage;
  warnings : list BatchMessage
}.

(** Loop state: [(i, per_frame_results, valid_count, missing_critical,
    total_score)], [i] the index of [enumerate]. *)
Definition batch_state : Type := nat * list FrameResult * nat * list nat * Q.

Definition batch_step (required_landmarks : list nat) (st : batch_state)
    (landmarks : option RawLandmarks) : batch_state :=
  let '(i, per_frame_results, valid_count, missing_critical, total_score) := st in
  let frame_result := validate_frame_landmarks landmarks required_landmarks in
  let '(valid_count, missing_critical) :=
    if is_valid frame_result then (S valid_count, missing_critical)
    else match required_landmarks with
         | [] => (valid_count, missing_critical)
         | _ => (valid_count, missing_critical ++ [i])
         end in
  (S i, per_frame_results ++ [frame_result], valid_count, missing_critical,
   (total_score + validation_score frame_result)%Q).

Definition validate_landmarks_batch (landmarks_list : list (option RawLandmarks))
    (required_landmarks : list nat) : BatchResult :=
  match landmarks_list with
  | [] => mkBatchResult false 0 0 0.0 [] [] 0.0 [no_landmarks_provided] []
  | _ =>
      let '(_, per_frame_results, valid_count, missing_critical, total_score) :=
        fold_left (batch_step required_landmarks) landmarks_list (0%nat, [], 0%nat, [], 0.0%Q) in
      let total_frames := length landmarks_list in
      let valid_percentage :=
        if (0 <? total_frames)%nat
        then (inject_Z (Z.of_nat valid_count) / inject_Z (Z.of_nat total_frames))%Q
        else 0.0%Q in
      let quality_score :=
        if (0 <? total_frames)%nat
        then (total_score / inject_Z (Z.of_nat total_frames))%Q
        else 0.0%Q in
      let overall_valid := Qle_bool 0.3 valid_percentage in
      let errors := if Qltb valid_percentage 0.3 then [few_valid_frames] else [] in
      let warnings :=
        if Qltb valid_percentage 0.3 then []
        else if Qltb valid_percentage 0.7 then [low_detection_quality] else [] in
      mkBatchResult overall_valid valid_count total_frames valid_percentage
                    per_frame_results missing_critical quality_score errors warnings
  end.

Definition get_squat_required_landmarks : list nat := [11; 12; 23; 24; 25; 26; 27; 28]%nat.

Definition get_squat_critical_landmarks : list nat := [23; 24; 25; 26]%nat.

(** The batch result; the recommendation text is left out. *)
Definition validate_squat_landmarks_batch (landmarks_list : list (option RawLandmarks))
    : BatchResult :=
  validate_landmarks_batch landmarks_list get_squat_required_landmarks.

(** *** Example frames *)

(** A frame with 33 finite landmarks, and one that lacks the ankles
    (landmark 27 is NaN, landmark 28 is missing). *)
Definition full_pose : option RawLandmarks :=
  Some (replicate 33 (Some (mkRaw (Some 0.5%Q) (Some 0.5%Q)))).
Definition no_ankles : option RawLandmarks :=
  Some (replicate 27 (Some (mkRaw (Some 0.5%Q) (Some 0.5%Q)))
        ++ [Some (mkRaw None (Some 0.9%Q)); None]).

End LandmarkValidation.

(* ================================================================== *)
(** * Part II: properties                                              *)
(* ================================================================== *)

(** ** Comparisons on rationals *)

Section Comparisons.
Import PyNum.

Lemma Qltb_lt (a b : Q) : Qltb a b = true <-> (a < b)%Q.
Proof.
  unfold Qltb. rewrite negb_true_iff, <- not_true_iff_false, Qle_bool_iff.
  split; [apply Qnot_le_lt | apply Qlt_not_le].
Qed.

Lemma Qltb_ge (a b : Q) : Qltb a b = false <-> (b <= a)%Q.
Proof.
  unfold Qltb. rewrite negb_false_iff. apply Qle_bool_iff.
Qed.

End Comparisons.

(** ** Score aggregator *)

Section AggregatorProperties.
Import PyNum Aggregator.

(** The loop of [calculate_final_score] visits the scored metrics
    only: its three accumulators are the running sums and the
    running list over [scored]. *)
Lemma score_loop_scored (fa : FormAnalysis) (ws : list (string * Q))
    (weighted_sum total_weight : Q) (comps : list (string * Z)) :
  score_loop fa ws (weighted_sum, total_weight, comps) =
    (fold_left Qplus
       (map (fun e : string * Z * Q => (inject_Z e.1.2 * e.2)%Q) (scored fa ws))
       weighted_sum,
     fold_left Qplus (map (fun e : string * Z * Q => e.2) (scored fa ws)) total_weight,
     comps ++ map (fun e : string * Z * Q => (e.1.1, e.1.2)) (scored fa ws)).
Proof.
  revert weighted_sum total_weight comps.
  induction ws as [|[key weight] ws IH]; intros weighted_sum total_weight comps.
  - cbn. by rewrite app_nil_r.
  - unfold score_loop in *. cbn [fold_left score_step scored omap list_omap fst snd].
    destruct (fa !! key) as [analysis|] eqn:Hfa; [|apply IH].
    destruct (score analysis) as [s|] eqn:Hs; [|apply IH].
    rewrite IH. cbn. by rewrite <- app_assoc.
Qed.

Lemma calculate_final_score_unfold (fa : FormAnalysis) :
  calculate_final_score fa =
    let present := scored fa weights in
    let final :=
      if Qltb 0 (sum_weight present)
      then py_int (sum_score_weight present / sum_weight present) else 0 in
    {| final_score := final;
       grade := _determine_grade final;
       component_scores := map (fun e : string * Z * Q => (e.1.1, e.1.2)) present;
       weights_out := weights |}.
Proof.
  unfold calculate_final_score. rewrite score_loop_scored. reflexivity.
Qed.

Lemma elem_of_scored (fa : FormAnalysis) (ws : list (string * Q))
    (k : string) (s : Z) (w : Q) :
  (k, s, w) ∈ scored fa ws <->
  (k, w) ∈ ws /\ exists a, fa !! k = Some a /\ score a = Some s.
Proof.
  unfold scored. rewrite list_elem_of_omap. split.
  - intros [[k' w'] [Hin Hsome]]. cbn in Hsome.
    destruct (fa !! k') as [a|] eqn:Hfa; [|done].
    destruct (score a) as [s'|] eqn:Hs; [|done].
    inversion Hsome; subst. split; [done|]. by exists a.
  - intros [Hin (a & Hfa & Hs)]. exists (k, w). split; [done|].
    cbn. by rewrite Hfa, Hs.
Qed.

(** Weights are positive, so the weight sum is positive as soon as
    one metric is scored. *)
Lemma fold_Qplus_pos (l : list Q) (a : Q) :
  (0 <= a)%Q -> Forall (fun q => (0 < q)%Q) l ->
  (a <= fold_left Qplus l a)%Q /\ (l <> [] -> (0 < fold_left Qplus l a)%Q).
Proof.
  intros Ha Hl. revert a Ha. induction Hl as [|q l Hq Hl IH]; intros a Ha.
  - split; [apply Qle_refl | done].
  - cbn [fold_left].
    assert (Hqa : (0 < a + q)%Q).
    { apply Qlt_le_trans with (0 + q)%Q; [by rewrite Qplus_0_l|].
      by apply Qplus_le_l. }
    destruct (IH (a + q)%Q (Qlt_le_weak _ _ Hqa)) as [Hle _].
    split.
    + apply Qle_trans with (a + q)%Q; [|done].
      rewrite <- (Qplus_0_r a) at 1. apply Qplus_le_r. by apply Qlt_le_weak.
    + intros _. by apply Qlt_le_trans with (a + q)%Q.
Qed.

Lemma weights_positive : Forall (fun kw : string * Q => (0 < kw.2)%Q) weights.
Proof. repeat constructor. Qed.

Lemma sum_weight_positive (fa : FormAnalysis) :
  scored fa weights <> [] -> Qltb 0 (sum_weight (scored fa weights)) = true.
Proof.
  intros Hne. apply Qltb_lt. unfold sum_weight, Qsum.
  apply fold_Qplus_pos.
  - apply Qle_refl.
  - apply Forall_map, Forall_forall. intros [[k s] w] Hin.
    apply elem_of_scored in Hin as [Hin _].
    pose proof weights_positive as Hws. rewrite Forall_forall in Hws.
    apply (Hws (k, w) Hin).
  - intros Hnil. apply Hne. by apply map_eq_nil in Hnil.
Qed.

(** C9.  Two form-analysis mappings that differ only in their
    ankle_angle and knee_valgus entries get the same final score,
    grade, component scores and weights. *)
Theorem final_score_ignores_ankle_and_valgus (fa1 fa2 : FormAnalysis) :
  (forall k, k ≠ "ankle_angle" -> k ≠ "knee_valgus" -> fa1 !! k = fa2 !! k) ->
  calculate_final_score fa1 = calculate_final_score fa2.
Proof.
  intros Hsame. rewrite !calculate_final_score_unfold.
  assert (Hp : scored fa1 weights = scored fa2 weights).
  { unfold scored, weights. cbn [omap list_omap fst snd].
    rewrite !Hsame by done. reflexivity. }
  rewrite Hp. reflexivity.
Qed.

Lemma final_score_ignores_ankle_and_valgus_witness :
  calculate_final_score fa_warn_asymmetry =
  calculate_final_score fa_warn_asymmetry_front.
Proof.
  apply (final_score_ignores_ankle_and_valgus
           fa_warn_asymmetry fa_warn_asymmetry_front).
  intros k Hankle Hvalgus. unfold fa_warn_asymmetry_front.
  rewrite lookup_insert_ne by done. rewrite lookup_insert_ne by done.
  reflexivity.
Defined.

End AggregatorProperties.

(** ** Score aggregator on binary64 floats *)

Section FloatAggregatorProperties.
Import PrimFloat Float64 Aggregator FloatAggregator.

#[local] Set Warnings "-inexact-float".

Lemma float_score_loop_none (fa : FormAnalysis) (ws : list (string * float)) :
  score_loop fa ws None = None.
Proof. unfold score_loop. induction ws as [|kw ws IH]; [done|exact IH]. Qed.

Lemma float_sum_loop_none (l : list (string * Z * float)) :
  fold_left sum_step l None = None.
Proof. induction l as [|e l IH]; [done|exact IH]. Qed.

(** The loop of [calculate_final_score] visits the scored metrics
    only: its accumulators are the running sums and the running
    list over [scored]. *)
Lemma float_score_loop_scored (fa : FormAnalysis) (ws : list (string * float))
    (weighted_sum total_weight : float) (comps : list (string * Z)) :
  score_loop fa ws (Some (weighted_sum, total_weight, comps)) =
    ('(ws', tw') ← fold_left sum_step (scored fa ws) (Some (weighted_sum, total_weight));
     Some (ws', tw', comps ++ map (fun e : string * Z * float => (e.1.1, e.1.2))
                                  (scored fa ws))).
Proof.
  revert weighted_sum total_weight comps.
  induction ws as [|[key weight] ws IH]; intros weighted_sum total_weight comps.
  - cbn. by rewrite app_nil_r.
  - unfold score_loop in *.
    cbn [fold_left score_step scored omap list_omap fst snd mbind option_bind].
    destruct (fa !! key) as [analysis|] eqn:Hfa; [|apply IH].
    destruct (score analysis) as [s|] eqn:Hs; [|apply IH].
    cbn [fold_left sum_step fst snd mbind option_bind].
    destruct (float_of_int s) as [x|]; cbn [mbind option_bind].
    + rewrite IH. destruct (fold_left sum_step _ _) as [[ws' tw']|]; [|done].
      cbn. by rewrite <- app_assoc.
    + rewrite float_sum_loop_none. apply float_score_loop_none.
Qed.

Lemma float_elem_of_scored (fa : FormAnalysis) (ws : list (string * float))
    (k : string) (s : Z) (w : float) :
  (k, s, w) ∈ scored fa ws <->
  (k, w) ∈ ws /\ exists a, fa !! k = Some a /\ score a = Some s.
Proof.
  unfold scored. rewrite list_elem_of_omap. split.
  - intros [[k' w'] [Hin Hsome]]. cbn in Hsome.
    destruct (fa !! k') as [a|] eqn:Hfa; [|done].
    destruct (score a) as [s'|] eqn:Hs; [|done].
    inversion Hsome; subst. split; [done|]. by exists a.
  - intros [Hin (a & Hfa & Hs)]. exists (k, w). split; [done|].
    cbn. by rewrite Hfa, Hs.
Qed.

Lemma float_calculate_final_score_unfold (fa : FormAnalysis) :
  calculate_final_score fa =
    ('(weighted_sum, total_weight) ← running_sums (scored fa weights);
     final ← (if (0 <? total_weight)%float
              then int_of_float (weighted_sum / total_weight)
              else Some 0);
     Some {| final_score := final;
             grade := _determine_grade final;
             component_scores :=
               map (fun e : string * Z * float => (e.1.1, e.1.2)) (scored fa weights);
             weights_out := weights |}).
Proof.
  unfold calculate_final_score, running_sums. rewrite float_score_loop_scored.
  by destruct (fold_left sum_step _ _) as [[ws' tw']|].
Qed.

(** C1 (as amended).  For every form-analysis mapping the final score
    is [int] of the float quotient [weighted_sum / total_weight]:
    the two are the running binary64 sums of score times weight and
    of weight, added up in table order over exactly the weighted
    metrics whose result carries a score, and the quotient is
    truncated, not rounded (the score is 0 when no weighted metric
    carries one).  The component scores list exactly those metrics.
    With torso_angle and quad_angle at 100 and no other metric
    carrying a score the final score is 100. *)
Theorem final_score_is_truncated_weighted_mean (fa : FormAnalysis) :
  let present := scored fa weights in
  calculate_final_score fa =
    ('(weighted_sum, total_weight) ← running_sums present;
     final ← (if (0 <? total_weight)%float
              then int_of_float (weighted_sum / total_weight)
              else Some 0);
     Some {| final_score := final;
             grade := _determine_grade final;
             component_scores := map (fun e : string * Z * float => (e.1.1, e.1.2)) present;
             weights_out := weights |})
  /\ (present = [] -> final_score <$> calculate_final_score fa = Some 0)
  /\ (forall k s w, (k, s, w) ∈ present <->
        (k, w) ∈ weights /\ exists a, fa !! k = Some a /\ score a = Some s)
  /\ (fa !! "torso_angle" ≫= score = Some 100 ->
      fa !! "quad_angle" ≫= score = Some 100 ->
      (forall k, k ≠ "torso_angle" -> k ≠ "quad_angle" -> fa !! k ≫= score = None) ->
      final_score <$> calculate_final_score fa = Some 100).
Proof.
  intros present. rewrite float_calculate_final_score_unfold. fold present.
  split; [reflexivity|].
  split; [by intros ->|].
  split; [intros; apply float_elem_of_scored|].
  intros Ht Hq Hother.
  assert (Hp : present = [("torso_angle", 100, 0.25%float); ("quad_angle", 100, 0.25%float)]).
  { subst present. unfold scored, weights. cbn [omap list_omap fst snd].
    pose proof (Hother "glute_dominance" ltac:(done) ltac:(done)) as H1.
    pose proof (Hother "rep_consistency" ltac:(done) ltac:(done)) as H2.
    pose proof (Hother "torso_asymmetry" ltac:(done) ltac:(done)) as H3.
    pose proof (Hother "quad_asymmetry" ltac:(done) ltac:(done)) as H4.
    pose proof (Hother "ankle_asymmetry" ltac:(done) ltac:(done)) as H5.
    repeat match goal with
    | H : ?m !! ?k ≫= score = _ |- _ =>
      destruct (m !! k) as [[? ?]|]; cbn in H; simplify_eq
    end; reflexivity. }
  rewrite Hp. vm_compute. reflexivity.
Qed.

(** The example mapping of the specification: torso and depth at
    100, everything else in error state. *)
Lemma final_score_is_truncated_weighted_mean_witness :
  final_score <$> calculate_final_score fa_two_perfect = Some 100.
Proof.
  apply (final_score_is_truncated_weighted_mean fa_two_perfect).
  - reflexivity.
  - reflexivity.
  - intros k Htorso Hquad. unfold fa_two_perfect.
    rewrite !lookup_insert, lookup_singleton.
    repeat case_decide; try done; by subst.
Defined.

(** C1 as stated fails, in two ways.  On [fa_warn_asymmetry] the
    float quotient is 77.0 / 0.8200000000000001, a number between
    93.5 and 94 that any rounding to the nearest integer takes to 94,
    and the code returns 93.  On [fa_six_perfect], six metrics at
    100, the quotient 82.0 / 0.8200000000000001 lies between 99.5
    and 100, and the code returns 99. *)
Lemma final_score_not_rounded :
  (exists weighted_sum total_weight,
      running_sums (scored fa_warn_asymmetry weights) = Some (weighted_sum, total_weight)
      /\ (93.5 <? weighted_sum / total_weight)%float = true
      /\ (weighted_sum / total_weight <? 94)%float = true
      /\ final_score <$> calculate_final_score fa_warn_asymmetry = Some 93)
  /\ (exists weighted_sum total_weight,
      running_sums (scored fa_six_perfect weights) = Some (weighted_sum, total_weight)
      /\ weighted_sum = 82%float
      /\ (99.5 <? weighted_sum / total_weight)%float = true
      /\ (weighted_sum / total_weight <? 100)%float = true
      /\ final_score <$> calculate_final_score fa_six_perfect = Some 99).
Proof.
  split.
  - eexists _, _. split; [vm_compute; reflexivity|]. vm_compute. by repeat split.
  - eexists _, _. split; [vm_compute; reflexivity|]. vm_compute. by repeat split.
Qed.

End FloatAggregatorProperties.

(** ** Rep segmenter: the two peak filters *)

Section PeakFilters.
Import PyNum Segmenter.

Lemma replace_last_snoc {A} (l : list A) (x y : A) :
  replace_last (l ++ [x]) y = l ++ [y].
Proof. unfold replace_last. by rewrite removelast_last. Qed.

Lemma replace_last_single {A} (x y : A) : replace_last [x] y = [y].
Proof. reflexivity. Qed.

(** The scan of [_filter_peaks_by_distance] is a left fold: one more
    candidate is one more [dedup_step]. *)
Lemma accepted_peaks_snoc (cands : list ipeak) (c : ipeak) (d : Z) :
  cands <> [] ->
  accepted_peaks (cands ++ [c]) d = dedup_step d (accepted_peaks cands d) c.
Proof.
  destruct cands as [|c0 rest]; [done|]. intros _.
  cbn [accepted_peaks app]. by rewrite fold_left_app.
Qed.

(** C4 (as amended).  With [prev] the last accepted peak when the
    candidate [c] is scanned: if [c] lies closer than the minimum
    distance, it replaces [prev] exactly when its angle is strictly
    greater, and is dropped (the earlier peak stays) otherwise; at
    the minimum distance or beyond it is accepted as a new peak. *)
Theorem dedup_keeps_higher_of_close_peaks
    (cands kept : list ipeak) (prev c : ipeak) (min_distance : Z) :
  accepted_peaks cands min_distance = kept ++ [prev] ->
  (Z.of_nat c.1 - Z.of_nat prev.1 < min_distance ->
     ((prev.2.2 < c.2.2)%Q ->
        accepted_peaks (cands ++ [c]) min_distance = kept ++ [c]
        /\ _filter_peaks_by_distance (cands ++ [c]) min_distance
           = map snd kept ++ [c.2])
     /\ ((c.2.2 <= prev.2.2)%Q ->
        accepted_peaks (cands ++ [c]) min_distance = kept ++ [prev]
        /\ _filter_peaks_by_distance (cands ++ [c]) min_distance
           = map snd kept ++ [prev.2]))
  /\ (min_distance <= Z.of_nat c.1 - Z.of_nat prev.1 ->
        accepted_peaks (cands ++ [c]) min_distance = kept ++ [prev; c]
        /\ _filter_peaks_by_distance (cands ++ [c]) min_distance
           = map snd kept ++ [prev.2; c.2]).
Proof.
  intros Hacc.
  assert (Hne : cands <> []).
  { intros ->. cbn in Hacc. by destruct kept. }
  unfold _filter_peaks_by_distance.
  rewrite (accepted_peaks_snoc _ _ _ Hne), Hacc.
  unfold dedup_step. rewrite last_snoc.
  split; [intros Hclose; split; intros Hangle | intros Hfar].
  - apply Z.leb_gt in Hclose. rewrite Hclose.
    apply Qltb_lt in Hangle. rewrite Hangle, replace_last_snoc.
    by rewrite map_app.
  - apply Z.leb_gt in Hclose. rewrite Hclose.
    apply Qltb_ge in Hangle. rewrite Hangle.
    by rewrite map_app.
  - apply Z.leb_le in Hfar. rewrite Hfar, <- app_assoc.
    by rewrite map_app.
Qed.

Lemma dedup_keeps_higher_of_close_peaks_witness :
  accepted_peaks [(10%nat, (10%nat, 50%Q)); (20%nat, (20%nat, 40%Q))] 30
    = [] ++ [(10%nat, (10%nat, 50%Q))]
  /\ _filter_peaks_by_distance
       [(10%nat, (10%nat, 50%Q)); (20%nat, (20%nat, 40%Q)); (25%nat, (25%nat, 60%Q))] 30
     = [(25%nat, 60%Q)].
Proof.
  assert (H : accepted_peaks [(10%nat, (10%nat, 50%Q)); (20%nat, (20%nat, 40%Q))] 30
              = [] ++ [(10%nat, (10%nat, 50%Q))]) by reflexivity.
  split; [exact H|].
  apply (dedup_keeps_higher_of_close_peaks
           [(10%nat, (10%nat, 50%Q)); (20%nat, (20%nat, 40%Q))] []
           (10%nat, (10%nat, 50%Q)) (25%nat, (25%nat, 60%Q)) 30 H).
  - cbn. lia.
  - reflexivity.
Defined.

(** C4 as stated fails: a candidate 10 positions after the accepted
    peak, hence closer than the minimum distance 30, but with a
    smaller angle, does not replace it; the earlier frame is kept.
    So it is in [twin_peaks 125], where the candidates are the peak of
    130 at frame 50 and the peak of 125 at frame 60. *)
Lemma dedup_does_not_always_keep_later :
  Z.of_nat 20 - Z.of_nat 10 < 30
  /\ _filter_peaks_by_distance
       [(10%nat, (10%nat, 50%Q)); (20%nat, (20%nat, 40%Q))] 30 = [(10%nat, 50%Q)]
  /\ _filter_peaks_by_distance
       [(10%nat, (10%nat, 50%Q)); (20%nat, (20%nat, 40%Q))] 30 <> [(20%nat, 40%Q)]
  /\ peak_candidates (enumerate_valid 0 (twin_peaks 125)) (90 + 20)
     = [(50%nat, (50%nat, 130%Q)); (60%nat, (60%nat, 125%Q))]
  /\ _find_peaks (enumerate_valid 0 (twin_peaks 125)) (90 + 20) 30 = [(50%nat, 130%Q)].
Proof.
  split; [cbn; lia|]. split; [reflexivity|]. split; [discriminate|].
  split; vm_compute; reflexivity.
Qed.

(** *** Bounce filter *)

Lemma filter_bounce_cons (thr : Z) (valid : list sample) (p0 : ipeak) (rest : list ipeak) :
  _filter_bounce_reps (p0 :: rest) valid thr = bounce_loop thr p0 rest [p0].
Proof. unfold _filter_bounce_reps. destruct rest; reflexivity. Qed.

End PeakFilters.

(** ** Rep segmenter: rep boundaries *)

Section RepBoundaries.
Import PyNum Segmenter.
Local Open Scope nat_scope.

Lemma at_cons_S (x : sample) (l : list sample) (i : nat) :
  at_ (x :: l) (S i) = at_ l i.
Proof. reflexivity. Qed.

(** *** The valid samples *)

Lemma enumerate_valid_frames (l : list (option Q)) (k i : nat) :
  i < length (enumerate_valid k l) ->
  k <= (at_ (enumerate_valid k l) i).1
  /\ forall j, i < j -> j < length (enumerate_valid k l) ->
       (at_ (enumerate_valid k l) i).1 < (at_ (enumerate_valid k l) j).1.
Proof.
  revert k i. induction l as [|[a|] l IH]; intros k i Hi.
  - cbn in Hi. lia.
  - cbn [enumerate_valid] in *. destruct i as [|i].
    + split; [cbn; lia|]. intros [|j] Hij Hj; [lia|].
      rewrite at_cons_S. cbn in Hj.
      destruct (IH (S k) j ltac:(lia)) as [Hk _]. cbn [at_ nth fst]. lia.
    + cbn in Hi. destruct (IH (S k) i ltac:(lia)) as [Hk Hlt].
      rewrite at_cons_S. split; [lia|].
      intros [|j] Hij Hj; [lia|]. rewrite at_cons_S. cbn in Hj.
      apply Hlt; lia.
  - cbn [enumerate_valid] in *. destruct (IH (S k) i Hi) as [Hk Hlt].
    split; [lia | exact Hlt].
Qed.

Lemma enumerate_valid_increasing (l : list (option Q)) :
  frames_increasing (enumerate_valid 0 l).
Proof.
  intros i j Hij Hj.
  destruct (enumerate_valid_frames l 0 i ltac:(lia)) as [_ Hlt]. by apply Hlt.
Qed.

(** *** Looking a frame up *)

Lemma index_of_frame_Some (l : list sample) (frame i : nat) :
  index_of_frame l frame = Some i -> i < length l /\ (at_ l i).1 = frame.
Proof.
  revert i. induction l as [|[f a] l IH]; intros i Hi; [done|].
  cbn [index_of_frame] in Hi. destruct (Nat.eqb_spec f frame) as [->|Hne].
  - inversion Hi; subst. cbn. split; [lia | done].
  - destruct (index_of_frame l frame) as [i'|] eqn:Hl; [|done].
    cbn in Hi. inversion Hi; subst.
    destruct (IH i' eq_refl) as [Hlen Hat]. cbn [length]. rewrite at_cons_S.
    split; [lia | done].
Qed.

Lemma index_of_frame_found (l : list sample) (i frame : nat) :
  i < length l -> (at_ l i).1 = frame -> is_Some (index_of_frame l frame).
Proof.
  revert i. induction l as [|[f a] l IH]; intros i Hi Hat; [cbn in Hi; lia|].
  cbn [index_of_frame]. destruct (f =? frame) eqn:Hf; [by exists 0|].
  apply Nat.eqb_neq in Hf.
  destruct i as [|i]; [by cbn in Hat|]. rewrite at_cons_S in Hat. cbn in Hi.
  destruct (IH i ltac:(lia) Hat) as [k ->]. by exists (S k).
Qed.

Lemma index_of_frame_at (l : list sample) (i : nat) :
  frames_increasing l -> i < length l ->
  index_of_frame l (at_ l i).1 = Some i.
Proof.
  intros Hinc Hi. destruct (index_of_frame_found l i _ Hi eq_refl) as [k Hk].
  rewrite Hk. f_equal.
  destruct (index_of_frame_Some _ _ _ Hk) as [Hlen Hat].
  destruct (Nat.lt_trichotomy k i) as [Hlt|[->|Hgt]]; [|done|].
  - pose proof (Hinc k i Hlt Hi). lia.
  - pose proof (Hinc i k Hgt Hlen). lia.
Qed.

(** *** Sublists keep what the pipeline needs *)

Lemma removelast_sublist {A} (l : list A) : removelast l `sublist_of` l.
Proof.
  induction l as [|x l IH]; [done|].
  destruct l as [|y l]; [apply sublist_nil_l|].
  change (removelast (x :: y :: l)) with (x :: removelast (y :: l)).
  by apply sublist_skip.
Qed.

Lemma StronglySorted_sublist {A} (R : relation A) (l1 l2 : list A) :
  l1 `sublist_of` l2 -> StronglySorted R l2 -> StronglySorted R l1.
Proof.
  induction 1 as [|x l1 l2 Hsub IH|x l1 l2 Hsub IH]; intros Hs.
  - constructor.
  - apply StronglySorted_inv in Hs as [Hs Hall]. constructor; [by apply IH|].
    rewrite Forall_forall in Hall |- *. intros y Hy. apply Hall.
    by apply (sublist_subseteq _ _ Hsub).
  - apply StronglySorted_inv in Hs as [Hs _]. by apply IH.
Qed.

Lemma Forall_sublist_of {A} (P : A -> Prop) (l1 l2 : list A) :
  l1 `sublist_of` l2 -> Forall P l2 -> Forall P l1.
Proof.
  intros Hsub Hall. rewrite Forall_forall in Hall |- *.
  intros y Hy. apply Hall. by apply (sublist_subseteq _ _ Hsub).
Qed.

(** *** Peak candidates *)

Lemma is_local_max_peak_ok (l : list sample) (t : Q) (i : nat) :
  _is_local_max i l t = true -> peak_ok l t (i, at_ l i).
Proof.
  unfold _is_local_max, peak_ok, below. cbn [fst snd].
  destruct (i <? 2) eqn:H2; [done|].
  destruct (length l <=? i + 2) eqn:Hlen; [done|]. cbn [orb].
  apply Nat.leb_gt in Hlen. intros Hmax.
  repeat (apply andb_prop in Hmax as [Hmax ?]).
  split; [lia|]. split; [done|].
  unfold Qltb. rewrite not_true_iff_false, negb_false_iff. done.
Qed.

Lemma peak_candidates_ok (l : list sample) (t : Q) :
  Forall (peak_ok l t) (peak_candidates l t).
Proof.
  apply Forall_forall. intros c Hc. unfold peak_candidates in Hc.
  apply list_elem_of_omap in Hc as (i & _ & Hi).
  destruct (_is_local_max i l t) eqn:Hmax; [|done].
  inversion Hi; subst. by apply is_local_max_peak_ok.
Qed.

Lemma omap_seq_sorted (f : nat -> option ipeak) (a n : nat) :
  (forall i c, f i = Some c -> c.1 = i) ->
  StronglySorted idx_lt (omap f (seq a n)).
Proof.
  intros Hf. revert a. induction n as [|n IH]; intros a; [constructor|].
  cbn [seq omap list_omap]. destruct (f a) as [c|] eqn:Hc; [|apply IH].
  constructor; [apply IH|].
  apply Forall_forall. intros c' Hc'.
  apply list_elem_of_omap in Hc' as (i & Hi & Hfi).
  apply elem_of_seq in Hi. unfold idx_lt.
  rewrite (Hf _ _ Hc), (Hf _ _ Hfi). lia.
Qed.

Lemma peak_candidates_sorted (l : list sample) (t : Q) :
  StronglySorted idx_lt (peak_candidates l t).
Proof.
  apply omap_seq_sorted. intros i c Hc.
  destruct (_is_local_max i l t); [|done]. by inversion Hc.
Qed.

(** *** The minimum-distance filter keeps a sublist *)

Lemma dedup_step_sublist (d : Z) (peaks processed : list ipeak) (c : ipeak) :
  peaks `sublist_of` processed ->
  dedup_step d peaks c `sublist_of` processed ++ [c].
Proof.
  intros Hsub. unfold dedup_step.
  destruct (last peaks) as [prev|]; [|by apply sublist_inserts_r].
  destruct (d <=? Z.of_nat c.1 - Z.of_nat prev.1)%Z; [by apply sublist_app|].
  destruct (Qltb prev.2.2 c.2.2); [|by apply sublist_inserts_r].
  unfold replace_last. apply sublist_app; [|done].
  by rewrite (removelast_sublist peaks).
Qed.

Lemma dedup_fold_sublist (d : Z) (rest peaks processed : list ipeak) :
  peaks `sublist_of` processed ->
  fold_left (dedup_step d) rest peaks `sublist_of` processed ++ rest.
Proof.
  revert peaks processed. induction rest as [|c rest IH]; intros peaks processed Hsub.
  - by rewrite app_nil_r.
  - cbn [fold_left]. rewrite (cons_middle c processed rest), app_assoc.
    apply IH. by apply dedup_step_sublist.
Qed.

Lemma accepted_peaks_sublist (cands : list ipeak) (d : Z) :
  accepted_peaks cands d `sublist_of` cands.
Proof.
  destruct cands as [|c0 rest]; [done|]. cbn [accepted_peaks].
  by apply (dedup_fold_sublist d rest [c0] [c0]).
Qed.

(** *** The bounce filter keeps a sublist *)

Lemma bounce_loop_sublist (thr : Z) (rest filtered processed : list ipeak) (prev : ipeak) :
  filtered `sublist_of` processed ->
  bounce_loop thr prev rest filtered `sublist_of` processed ++ rest.
Proof.
  revert prev filtered processed.
  induction rest as [|c rest IH]; intros prev filtered processed Hsub.
  - by rewrite app_nil_r.
  - cbn [bounce_loop]. rewrite (cons_middle c processed rest), app_assoc.
    apply IH. destruct (is_bounce thr prev c).
    + unfold replace_last. apply sublist_app; [|done].
      by rewrite (removelast_sublist filtered).
    + by apply sublist_app.
Qed.

Lemma filter_bounce_sublist (thr : Z) (valid : list sample) (pwi : list ipeak) :
  _filter_bounce_reps pwi valid thr `sublist_of` pwi.
Proof.
  destruct pwi as [|p0 rest]; [done|]. rewrite filter_bounce_cons.
  by apply (bounce_loop_sublist thr rest [p0] [p0]).
Qed.

(** *** Positions recomputed from the frames are the positions *)

Lemma with_indices_accepted (l : list sample) (t : Q) (acc : list ipeak) :
  frames_increasing l -> Forall (peak_ok l t) acc ->
  with_indices l (map snd acc) = Some acc.
Proof.
  intros Hinc. induction 1 as [|[i s] acc (Hi & Hs & _) _ IH]; [done|].
  cbn [fst snd] in Hi, Hs. subst s.
  cbn [map with_indices snd]. rewrite (index_of_frame_at l i Hinc Hi).
  cbn. rewrite IH. done.
Qed.

(** *** The two scans of [_find_rep_start_end] *)

Lemma scan_back_spec (l : list sample) (t : Q) (p pf n : nat) :
  n <= p ->
  match scan_back l t p pf n with
  | Some f => exists i, i < n /\ below l t i
                /\ (forall j, i < j < n -> ~ below l t j)
                /\ f = (at_ l (i + 1)).1
  | None => forall j, j < n -> ~ below l t j
  end.
Proof.
  induction n as [|i IH]; intros Hn; cbn [scan_back]; [intros j Hj; lia|].
  destruct (Qltb (at_ l i).2 t) eqn:Hb.
  - exists i. split; [lia|]. split; [exact Hb|]. split; [intros j Hj; lia|].
    destruct (Nat.leb_spec (i + 1) p); [done|lia].
  - specialize (IH ltac:(lia)).
    destruct (scan_back l t p pf i) as [f|].
    + destruct IH as (k & Hk & Hbk & Hnone & Hf). exists k.
      split; [lia|]. split; [done|]. split; [|done].
      intros j Hj. destruct (decide (j = i)) as [->|Hne].
      * unfold below. by rewrite Hb.
      * apply Hnone. lia.
    + intros j Hj. destruct (decide (j = i)) as [->|Hne].
      * unfold below. by rewrite Hb.
      * apply IH. lia.
Qed.

Lemma scan_fwd_spec (l : list sample) (t : Q) (p pf i todo : nat) :
  p < i ->
  match scan_fwd l t p pf i todo with
  | Some f => exists k, i <= k < i + todo /\ below l t k
                /\ (forall j, i <= j < k -> ~ below l t j)
                /\ f = (at_ l (k - 1)).1
  | None => forall j, i <= j < i + todo -> ~ below l t j
  end.
Proof.
  revert i. induction todo as [|todo IH]; intros i Hi; cbn [scan_fwd];
    [intros j Hj; lia|].
  destruct (Qltb (at_ l i).2 t) eqn:Hb.
  - exists i. split; [lia|]. split; [exact Hb|]. split; [intros j Hj; lia|].
    destruct (Nat.leb_spec p (i - 1)); [done|lia].
  - specialize (IH (S i) ltac:(lia)).
    destruct (scan_fwd l t p pf (S i) todo) as [f|].
    + destruct IH as (k & Hk & Hbk & Hnone & Hf). exists k.
      split; [lia|]. split; [done|]. split; [|done].
      intros j Hj. destruct (decide (j = i)) as [->|Hne].
      * unfold below. by rewrite Hb.
      * apply Hnone. lia.
    + intros j Hj. destruct (decide (j = i)) as [->|Hne].
      * unfold below. by rewrite Hb.
      * apply IH. lia.
Qed.

(** The boundaries found around a peak at position [p] are the
    frames at its start and end positions. *)
Lemma find_rep_start_end_spec (l : list sample) (b t : Q) (p : nat) :
  frames_increasing l -> p < length l ->
  exists s e,
    _find_rep_start_end l (at_ l p).1 b t = Some ((at_ l s).1, (at_ l e).1)
    /\ start_pos l t p s /\ end_pos l t p e.
Proof.
  intros Hinc Hp. unfold _find_rep_start_end.
  rewrite (index_of_frame_at l p Hinc Hp). cbn [mbind option_bind].
  pose proof (scan_back_spec l t p (at_ l p).1 p ltac:(lia)) as Hback.
  pose proof (scan_fwd_spec l t p (at_ l p).1 (p + 1) (length l - (p + 1))
                ltac:(lia)) as Hfwd.
  destruct (scan_back l t p (at_ l p).1 p) as [fs|];
    destruct (scan_fwd l t p (at_ l p).1 (p + 1) (length l - (p + 1))) as [fe|].
  - destruct Hback as (i & Hi & Hbi & Hni & ->).
    destruct Hfwd as (k & Hk & Hbk & Hnk & ->).
    exists (i + 1), (k - 1). split; [done|]. split.
    + split; [lia|]. split; [intros j Hj; apply Hni; lia|].
      right. by replace (i + 1 - 1) with i by lia.
    + split; [lia|]. split; [intros j Hj; apply Hnk; lia|].
      right. by replace (k - 1 + 1) with k by lia.
  - destruct Hback as (i & Hi & Hbi & Hni & ->).
    exists (i + 1), (length l - 1). split; [done|]. split.
    + split; [lia|]. split; [intros j Hj; apply Hni; lia|].
      right. by replace (i + 1 - 1) with i by lia.
    + split; [lia|]. split; [intros j Hj; apply Hfwd; lia|]. by left.
  - destruct Hfwd as (k & Hk & Hbk & Hnk & ->).
    exists 0, (k - 1). split; [done|]. split.
    + split; [lia|]. split; [intros j Hj; apply Hback; lia|]. by left.
    + split; [lia|]. split; [intros j Hj; apply Hnk; lia|].
      right. by replace (k - 1 + 1) with k by lia.
  - exists 0, (length l - 1). split; [done|]. split.
    + split; [lia|]. split; [intros j Hj; apply Hback; lia|]. by left.
    + split; [lia|]. split; [intros j Hj; apply Hfwd; lia|]. by left.
Qed.

(** *** Two peaks: disjoint boundaries or the same boundaries *)

Lemma boundaries_of_two_peaks (l : list sample) (t : Q) (p q sp ep sq eq_ : nat) :
  p < q -> q < length l ->
  ~ below l t p -> ~ below l t q ->
  start_pos l t p sp -> end_pos l t p ep ->
  start_pos l t q sq -> end_pos l t q eq_ ->
  ep < sq \/ (sp = sq /\ ep = eq_).
Proof.
  intros Hpq Hq Hnp Hnq (Hsp & Hsp_clear & Hsp_edge) (Hep & Hep_clear & Hep_edge)
         (Hsq & Hsq_clear & Hsq_edge) (Heq & Heq_clear & Heq_edge).
  destruct (le_lt_dec sq p) as [Hle|Hgt].
  - right.
    assert (Hs : sp = sq).
    { destruct (Nat.lt_trichotomy sp sq) as [Hlt|[Heq'|Hlt]]; [|done|].
      - destruct Hsq_edge as [->|Hb]; [lia|].
        destruct (decide (sq - 1 = p)) as [Hx|Hx]; [by rewrite Hx in Hb|].
        exfalso. apply (Hsp_clear (sq - 1)); [lia|done].
      - destruct Hsp_edge as [->|Hb]; [lia|].
        exfalso. apply (Hsq_clear (sp - 1)); [lia|done]. }
    split; [done|].
    assert (Hreach : q <= ep).
    { destruct (le_lt_dec q ep) as [|Hlt]; [done|]. exfalso.
      destruct Hep_edge as [->|Hb]; [lia|].
      destruct (decide (ep + 1 = q)) as [Hx|Hx]; [by rewrite Hx in Hb|].
      apply (Hsq_clear (ep + 1)); [lia|done]. }
    destruct (Nat.lt_trichotomy ep eq_) as [Hlt|[Heq'|Hlt]]; [|done|]; exfalso.
    + destruct Hep_edge as [->|Hb]; [lia|].
      apply (Heq_clear (ep + 1)); [lia|done].
    + destruct Heq_edge as [->|Hb]; [lia|].
      apply (Hep_clear (eq_ + 1)); [lia|done].
  - left.
    destruct Hsq_edge as [->|Hb]; [lia|].
    destruct (decide (sq - 1 = p)) as [Hx|Hx]; [by rewrite Hx in Hb|].
    destruct (le_lt_dec (sq - 1) ep) as [Hin|Hout]; [|lia].
    exfalso. apply (Hep_clear (sq - 1)); [lia|done].
Qed.

Lemma frames_monotone (l : list sample) (i j : nat) :
  frames_increasing l -> i <= j -> j < length l -> (at_ l i).1 <= (at_ l j).1.
Proof.
  intros Hinc Hij Hj. destruct (decide (i = j)) as [->|Hne]; [done|].
  pose proof (Hinc i j ltac:(lia) Hj). lia.
Qed.

Lemma rep_of_pos_wf (l : list sample) (t : Q) (p : nat) (r : Rep) :
  frames_increasing l -> rep_of_pos l t p r ->
  start_frame r <= bottom_frame r /\ bottom_frame r <= end_frame r.
Proof.
  intros Hinc (s & e & (Hs & _) & (He & _) & ->). cbn [start_frame bottom_frame end_frame].
  split; apply frames_monotone; (done || lia).
Qed.

Lemma rep_of_pos_before (l : list sample) (t : Q) (p q : nat) (r1 r2 : Rep) :
  frames_increasing l -> p < q -> q < length l ->
  ~ below l t p -> ~ below l t q ->
  rep_of_pos l t p r1 -> rep_of_pos l t q r2 -> rep_before r1 r2.
Proof.
  intros Hinc Hpq Hq Hnp Hnq (sp & ep & Hsp & Hep & ->) (sq & eq_ & Hsq & Heq & ->).
  pose proof (boundaries_of_two_peaks l t p q sp ep sq eq_
                Hpq Hq Hnp Hnq Hsp Hep Hsq Heq) as Hcases.
  destruct Hsp as (Hsp & _), Hep as (Hep & _), Hsq as (Hsq & _), Heq as (Heq & _).
  unfold rep_before. cbn [start_frame bottom_frame end_frame].
  split; [apply Hinc; lia|].
  destruct Hcases as [Hdisj|[-> ->]].
  - split; [apply frames_monotone; (done || lia)|].
    split; [apply frames_monotone; (done || lia)|].
    left. apply Hinc; lia.
  - split; [done|]. split; [done|]. by right.
Qed.

(** *** Building the reps *)

Lemma build_reps_spec (l : list sample) (b t : Q) (peaks : list ipeak) :
  frames_increasing l -> Forall (peak_ok l t) peaks -> StronglySorted idx_lt peaks ->
  exists reps,
    _build_reps_from_peaks peaks l b t = Some reps
    /\ Forall (fun r => start_frame r < end_frame r
                        /\ exists pk, pk ∈ peaks /\ rep_of_pos l t pk.1 r) reps
    /\ StronglySorted rep_before reps.
Proof.
  intros Hinc Hok Hsorted.
  induction peaks as [|[i [f a]] rest IH]; [exists []; repeat constructor|].
  apply Forall_cons in Hok as [(Hi & Hs & Hnb) Hok].
  apply StronglySorted_inv in Hsorted as [Hsorted Hlater].
  cbn [fst snd] in Hi, Hs, Hnb.
  destruct (IH Hok Hsorted) as (reps & Hbuild & Hreps & Hord).
  destruct (find_rep_start_end_spec l b t i Hinc Hi) as (s & e & Hfind & Hstart & Hend).
  rewrite <- Hs in Hfind. cbn [fst] in Hfind.
  cbn [_build_reps_from_peaks]. rewrite Hfind, Hbuild. cbn [mbind option_bind].
  assert (Hrest : Forall (fun r => start_frame r < end_frame r
                    /\ exists pk, pk ∈ (i, (f, a)) :: rest /\ rep_of_pos l t pk.1 r) reps).
  { eapply Forall_impl; [exact Hreps|]. intros r (Hlt & pk & Hpk & Hr).
    split; [done|]. exists pk. split; [apply elem_of_cons; by right | done]. }
  destruct ((at_ l s).1 <? (at_ l e).1) eqn:Hse.
  - eexists. split; [reflexivity|].
    assert (Hr0 : rep_of_pos l t i (mkRep (at_ l s).1 f (at_ l e).1)).
    { exists s, e. split; [done|]. split; [done|].
      f_equal. by rewrite <- Hs. }
    split.
    + constructor; [|exact Hrest]. split.
      * cbn. by apply Nat.ltb_lt.
      * exists (i, (f, a)). split; [apply elem_of_cons; by left | exact Hr0].
    + constructor; [exact Hord|].
      rewrite Forall_forall in Hreps. rewrite Forall_forall in Hok.
      rewrite Forall_forall in Hlater. apply Forall_forall.
      intros r Hr. destruct (Hreps r Hr) as (_ & pk & Hpk & Hrpk).
      destruct (Hok pk Hpk) as (Hpki & _ & Hpknb).
      apply (rep_of_pos_before l t i pk.1); try done.
      apply (Hlater pk Hpk).
  - exists reps. split; [reflexivity|]. split; [exact Hrest | exact Hord].
Qed.

Lemma calculate_baseline_some (valid : list sample) :
  valid <> [] -> is_Some (_calculate_baseline valid).
Proof.
  intros Hne. unfold _calculate_baseline.
  destruct (20 <? length valid) eqn:Hlen.
  - apply Nat.ltb_lt in Hlen.
    destruct valid as [|s valid]; [done|]. cbn [firstn map app py_min]. by eexists.
  - destruct valid as [|s valid]; [done|]. cbn [map py_min]. by eexists.
Qed.

(** *** The stages of [detect_squat_phases] *)

Lemma detect_reps_no_valid (quad : list (option Q)) (fps : Q) :
  enumerate_valid 0 quad = [] -> detect_reps quad fps = Some [].
Proof.
  intros Hvalid. unfold detect_reps. rewrite Hvalid. by destruct (forallb _ quad).
Qed.

Lemma all_missing_no_valid (quad : list (option Q)) (k : nat) :
  forallb (fun a : option Q => negb (bool_decide (is_Some a))) quad = true ->
  enumerate_valid k quad = [].
Proof.
  revert k. induction quad as [|[a|] quad IH]; intros k Hall; [done| |].
  - by cbn in Hall.
  - cbn in Hall |- *. by apply IH.
Qed.

(** With a baseline (that is, with at least one valid sample) the
    reps are built from the accepted peaks that survive the bounce
    filter. *)
Lemma detect_reps_stages (quad : list (option Q)) (fps b : Q) :
  let valid := enumerate_valid 0 quad in
  _calculate_baseline valid = Some b ->
  detect_reps quad fps =
    _build_reps_from_peaks
      (_filter_bounce_reps (accepted_peaks (peak_candidates valid (b + 20)) 30)
                           valid (py_int (fps * 1.0)))
      valid b (b + 20)%Q.
Proof.
  intros valid Hb. unfold detect_reps.
  destruct (forallb _ quad) eqn:Hall.
  { apply (all_missing_no_valid quad 0) in Hall.
    unfold valid in Hb. by rewrite Hall in Hb. }
  pose proof (enumerate_valid_increasing quad) as Hinc.
  fold valid in Hinc |- *.
  destruct valid as [|s0 valid0] eqn:Hvalid; [done|].
  rewrite <- Hvalid in *. cbv beta iota zeta. rewrite Hb. cbn [mbind option_bind].
  unfold _find_peaks, _filter_peaks_by_distance.
  set (acc := accepted_peaks (peak_candidates valid (b + 20)) 30).
  assert (Hacc_ok : Forall (peak_ok valid (b + 20)) acc).
  { eapply Forall_sublist_of; [apply accepted_peaks_sublist | apply peak_candidates_ok]. }
  destruct (map snd acc) as [|pk0 pks] eqn:Hpeaks.
  { apply map_eq_nil in Hpeaks. by rewrite Hpeaks. }
  rewrite <- Hpeaks.
  by rewrite (with_indices_accepted valid (b + 20) acc Hinc Hacc_ok).
Qed.

(** Every run of the segmenter returns, and the reps it returns are
    well formed and listed in order. *)
Lemma detect_reps_shape (quad : list (option Q)) (fps : Q) :
  exists reps,
    detect_reps quad fps = Some reps
    /\ Forall rep_wf reps /\ StronglySorted rep_before reps.
Proof.
  pose proof (enumerate_valid_increasing quad) as Hinc.
  destruct (_calculate_baseline (enumerate_valid 0 quad)) as [b|] eqn:Hb.
  - rewrite (detect_reps_stages quad fps b Hb).
    set (valid := enumerate_valid 0 quad) in *. set (t := (b + 20)%Q).
    set (acc := accepted_peaks (peak_candidates valid t) 30).
    set (filtered := _filter_bounce_reps acc valid (py_int (fps * 1.0))).
    assert (Hsub : filtered `sublist_of` peak_candidates valid t).
    { transitivity acc; [apply filter_bounce_sublist | apply accepted_peaks_sublist]. }
    destruct (build_reps_spec valid b t filtered Hinc) as (reps & Hbuild & Hreps & Hord).
    { eapply Forall_sublist_of; [exact Hsub | apply peak_candidates_ok]. }
    { eapply StronglySorted_sublist; [exact Hsub | apply peak_candidates_sorted]. }
    exists reps. split; [exact Hbuild|]. split; [|exact Hord].
    eapply Forall_impl; [exact Hreps|]. intros r (Hlt & pk & _ & Hr).
    destruct (rep_of_pos_wf valid t pk.1 r Hinc Hr). by repeat split.
  - exists []. split; [|by repeat constructor].
    apply detect_reps_no_valid.
    destruct (enumerate_valid 0 quad) as [|s0 valid0] eqn:Hvalid; [done|].
    destruct (calculate_baseline_some (s0 :: valid0) ltac:(done)) as [b' Hb'].
    by rewrite Hb' in Hb.
Qed.

(** C2 (as amended).  For every quad-angle series and fps,
    [detect_squat_phases] returns, every rep it returns satisfies
    start_frame < end_frame and start_frame <= bottom_frame <=
    end_frame, and the reps are listed in order: for any two of them
    the later one has the greater bottom_frame, no smaller start_frame
    and end_frame, and the two frame intervals are either disjoint
    (the earlier rep ends before the later starts) or the very same
    interval. *)
Theorem reps_well_formed_and_ordered (quad_angles_per_frame : list (option Q)) (fps : Q) :
  exists reps : list Rep,
    detect_squat_phases quad_angles_per_frame fps = Some {[ "reps" := reps ]}
    /\ Forall rep_wf reps
    /\ StronglySorted rep_before reps.
Proof.
  destruct (detect_reps_shape quad_angles_per_frame fps) as (reps & Hreps & Hwf & Hord).
  exists reps. unfold detect_squat_phases. rewrite Hreps. done.
Qed.

(** C2 as stated fails: two reps can overlap.  In [paused_squat] the
    signal stays above the squat threshold between two accepted
    peaks, 40 frames apart, and both reps get the whole stretch from
    frame 10 to frame 69. *)
Lemma reps_can_overlap :
  detect_reps paused_squat 30
    = Some [mkRep 10 20 69; mkRep 10 60 69]
  /\ mkRep 10 20 69 <> mkRep 10 60 69
  /\ reps_overlap (mkRep 10 20 69) (mkRep 10 60 69).
Proof.
  split; [vm_compute; reflexivity|]. split; [discriminate|].
  exists 30. cbn. lia.
Qed.

End RepBoundaries.

(** ** Rep segmenter: spacing of the accepted peaks *)

Section PeakSpacing.
Import PyNum Segmenter.
Local Open Scope nat_scope.

Lemma dedup_step_spaced (d : Z) (peaks : list ipeak) (c : ipeak) :
  (0 <= d)%Z ->
  StronglySorted (spaced d) peaks ->
  (forall p, p ∈ peaks -> p.1 <= c.1) ->
  StronglySorted (spaced d) (dedup_step d peaks c)
  /\ (forall p, p ∈ dedup_step d peaks c -> p.1 <= c.1).
Proof.
  intros Hd Hs Hle. unfold dedup_step.
  destruct (last peaks) as [prev|] eqn:Hlast; [|done].
  apply last_Some in Hlast as [init ->].
  apply StronglySorted_app in Hs as (Hcross & Hinit & _).
  assert (Hprev : forall p, p ∈ init -> spaced d p prev).
  { intros p Hp. apply Hcross; [done|]. apply elem_of_cons. by left. }
  destruct (d <=? Z.of_nat c.1 - Z.of_nat prev.1)%Z eqn:Hfar.
  - apply Z.leb_le in Hfar. split.
    + apply StronglySorted_app_2.
      * intros p1 p2 Hp1 Hp2. apply list_elem_of_singleton in Hp2 as ->.
        apply elem_of_app in Hp1 as [Hp1|Hp1].
        -- specialize (Hprev p1 Hp1). unfold spaced in *. lia.
        -- apply list_elem_of_singleton in Hp1 as ->. unfold spaced. lia.
      * apply StronglySorted_app_2; [|done|repeat constructor].
        intros p1 p2 Hp1 Hp2. apply list_elem_of_singleton in Hp2 as ->. by apply Hprev.
      * repeat constructor.
    + intros p Hp. apply elem_of_app in Hp as [Hp|Hp]; [by apply Hle|].
      apply list_elem_of_singleton in Hp as ->. lia.
  - destruct (Qltb prev.2.2 c.2.2).
    + rewrite replace_last_snoc. split.
      * apply StronglySorted_app_2; [|done|repeat constructor].
        intros p1 p2 Hp1 Hp2. apply list_elem_of_singleton in Hp2 as ->.
        specialize (Hprev p1 Hp1).
        assert (prev.1 <= c.1) by (apply Hle, elem_of_app; right; apply elem_of_cons; by left).
        unfold spaced in *. lia.
      * intros p Hp. apply elem_of_app in Hp as [Hp|Hp].
        -- apply Hle, elem_of_app. by left.
        -- apply list_elem_of_singleton in Hp as ->. lia.
    + split; [|done]. apply StronglySorted_app_2; [|done|repeat constructor].
      intros p1 p2 Hp1 Hp2. apply list_elem_of_singleton in Hp2 as ->. by apply Hprev.
Qed.

Lemma dedup_fold_spaced (d : Z) (rest peaks : list ipeak) :
  (0 <= d)%Z ->
  StronglySorted idx_lt rest ->
  StronglySorted (spaced d) peaks ->
  (forall p c, p ∈ peaks -> c ∈ rest -> p.1 <= c.1) ->
  StronglySorted (spaced d) (fold_left (dedup_step d) rest peaks).
Proof.
  intros Hd. revert peaks. induction rest as [|c rest IH]; intros peaks Hrest Hs Hle; [done|].
  apply StronglySorted_inv in Hrest as [Hrest Hc].
  cbn [fold_left].
  destruct (dedup_step_spaced d peaks c Hd Hs) as [Hs' Hle'].
  { intros p Hp. apply Hle; [done|]. apply elem_of_cons. by left. }
  apply IH; [done|done|].
  intros p c' Hp Hc'. specialize (Hle' p Hp).
  rewrite Forall_forall in Hc. specialize (Hc c' Hc'). unfold idx_lt in Hc. lia.
Qed.

Lemma accepted_peaks_strongly_spaced (angles_with_indices : list sample)
    (min_height : Q) (min_distance : Z) :
  (0 <= min_distance)%Z ->
  StronglySorted (spaced min_distance)
    (accepted_peaks (peak_candidates angles_with_indices min_height) min_distance).
Proof.
  intros Hd. pose proof (peak_candidates_sorted angles_with_indices min_height) as Hs.
  destruct (peak_candidates angles_with_indices min_height) as [|c0 rest]; [constructor|].
  apply StronglySorted_inv in Hs as [Hrest Hc0]. cbn [accepted_peaks].
  apply dedup_fold_spaced; [done|done|repeat constructor|].
  intros p c Hp Hc. apply list_elem_of_singleton in Hp as ->.
  rewrite Forall_forall in Hc0. specialize (Hc0 c Hc). unfold idx_lt in Hc0. lia.
Qed.

(** Accepted peaks are too far apart for a bounce threshold of at
    most the minimum distance. *)
Lemma bounce_loop_idle (thr d : Z) (rest filtered : list ipeak) (prev : ipeak) :
  (thr <= d)%Z -> StronglySorted (spaced d) (prev :: rest) ->
  bounce_loop thr prev rest filtered = filtered ++ rest.
Proof.
  intros Hthr. revert prev filtered.
  induction rest as [|c rest IH]; intros prev filtered Hs; [by rewrite app_nil_r|].
  apply StronglySorted_inv in Hs as [Hs Hprev].
  apply Forall_cons in Hprev as [Hpc _].
  cbn [bounce_loop].
  assert (Hnb : is_bounce thr prev c = false).
  { unfold is_bounce. apply andb_false_intro1. apply Z.ltb_ge.
    unfold spaced in Hpc. lia. }
  rewrite Hnb, (IH c _ Hs). by rewrite <- app_assoc.
Qed.

Lemma filter_bounce_idle (thr d : Z) (valid : list sample) (pwi : list ipeak) :
  (thr <= d)%Z -> StronglySorted (spaced d) pwi ->
  _filter_bounce_reps pwi valid thr = pwi.
Proof.
  intros Hthr Hs. destruct pwi as [|p0 rest]; [done|].
  rewrite filter_bounce_cons. by rewrite (bounce_loop_idle thr d rest [p0] p0 Hthr Hs).
Qed.

End PeakSpacing.

(** ** Rep segmenter: the bounce filter in closed form *)

Section BounceClosedForm.
Import PyNum Segmenter.









(** *** The bottoms of the reps built from a list of peaks *)









End BounceClosedForm.

(** ** Rep segmenter: bounce merging inside [detect_squat_phases] *)

Section BounceInPipeline.
Import PyNum Segmenter.







(** In a chain of bounces only the last peak is kept: three sharp
    squats 35 frames apart at 60 fps leave the peak at frame 90 and
    one rep; the peak at frame 55, the later one of the first pair,
    is dropped as the earlier one of the second. *)
Lemma bounce_chain_keeps_last :
  accepted_peaks (peak_candidates (enumerate_valid 0 three_squats) (0 + 20)) 30
    = [(20%nat, (20%nat, 50%Q)); (55%nat, (55%nat, 50%Q)); (90%nat, (90%nat, 50%Q))]
  /\ _filter_bounce_reps
       (accepted_peaks (peak_candidates (enumerate_valid 0 three_squats) (0 + 20)) 30)
       (enumerate_valid 0 three_squats) (py_int (60 * 1.0))
     = [(90%nat, (90%nat, 50%Q))]
  /\ detect_reps three_squats 60 = Some [mkRep 89 90 91].
Proof. vm_compute. repeat split. Qed.

(** Two candidates 10 frames apart need not give a rep either: two
    spikes at frames 50 and 60 at 30 fps leave one accepted peak and
    no rep. *)
Lemma twin_spikes_no_rep :
  peak_candidates (enumerate_valid 0 twin_spikes) (0 + 20)
    = [(50%nat, (50%nat, 50%Q)); (60%nat, (60%nat, 50%Q))]
  /\ accepted_peaks (peak_candidates (enumerate_valid 0 twin_spikes) (0 + 20)) 30
     = [(50%nat, (50%nat, 50%Q))]
  /\ detect_reps twin_spikes 30 = Some [].
Proof. vm_compute. repeat split. Qed.

End BounceInPipeline.
(** ** Angle extractor *)

Section GeometryProperties.
Import Geometry.
Local Open Scope R_scope.

Lemma atan2_range (y x : R) : - PI <= atan2 y x <= PI.
Proof.
  pose proof PI_RGT_0 as Hpi. unfold atan2.
  destruct (Rlt_dec 0 x) as [Hx|Hx].
  { pose proof (atan_bound (y / x)). lra. }
  destruct (Rlt_dec x 0) as [Hx'|Hx'].
  - destruct (Rle_dec 0 y) as [Hy|Hy].
    + assert (Hq : y / x <= 0).
      { pose proof (Rinv_lt_0_compat x Hx'). unfold Rdiv. nra. }
      pose proof (atan_bound (y / x)).
      destruct Hq as [Hq|Hq].
      * pose proof (atan_increasing _ _ Hq) as Hinc. rewrite atan_0 in Hinc. lra.
      * rewrite Hq, atan_0. lra.
    + assert (Hq : 0 < y / x).
      { pose proof (Rinv_lt_0_compat x Hx'). unfold Rdiv. nra. }
      pose proof (atan_bound (y / x)).
      pose proof (atan_increasing _ _ Hq) as Hinc. rewrite atan_0 in Hinc. lra.
  - destruct (Rlt_dec 0 y); [lra|]. destruct (Rlt_dec y 0); lra.
Qed.

Lemma degrees_range (r : R) : - PI <= r <= PI -> -180 <= degrees r <= 180.
Proof.
  intros Hr. pose proof PI_RGT_0 as Hpi. unfold degrees.
  replace (r * 180 / PI) with (180 * (r / PI)) by (field; lra).
  assert (Hq : -1 <= r / PI <= 1).
  { split.
    - apply Rmult_le_reg_r with PI; [lra|].
      replace (r / PI * PI) with r by (field; lra). lra.
    - apply Rmult_le_reg_r with PI; [lra|].
      replace (r / PI * PI) with r by (field; lra). lra. }
  lra.
Qed.

(** The wrapped angle lies in [0, 360) and is the [atan2] angle in
    degrees, shifted by a full turn when that one is negative. *)
Lemma angle_from_horizontal_range (point1 point2 : Point) :
  let d := degrees (atan2 (- (y point2 - y point1)) (x point2 - x point1)) in
  let v := angle_from_horizontal point1 point2 in
  0 <= v < 360 /\ ((0 <= d /\ v = d) \/ (d < 0 /\ v = d + 360)).
Proof.
  intros d v. subst v. unfold angle_from_horizontal. fold d.
  pose proof (degrees_range _ (atan2_range (- (y point2 - y point1))
                                           (x point2 - x point1))) as Hd.
  fold d in Hd. destruct (Rlt_dec d 0); lra.
Qed.

Lemma get_segment_angle_range (point1 point2 : Point) :
  0 <= get_segment_angle point1 point2 <= 90.
Proof.
  destruct (angle_from_horizontal_range point1 point2) as [Hv _].
  unfold get_segment_angle.
  repeat match goal with |- context [Rle_dec ?a ?b] => destruct (Rle_dec a b) end; lra.
Qed.

Lemma get_ankle_segment_angle_range (point1 point2 : Point) :
  0 <= get_ankle_segment_angle point1 point2 <= 90.
Proof.
  destruct (angle_from_horizontal_range point1 point2) as [Hv _].
  unfold get_ankle_segment_angle.
  repeat match goal with |- context [Rle_dec ?a ?b] => destruct (Rle_dec a b) end; lra.
Qed.

(** C6.  For every frame of every landmark sequence, each per-frame
    torso, quad and ankle angle is either missing or a value in the
    closed interval from 0 to 90 degrees. *)
Theorem per_frame_angles_in_range (landmarks_list : list (option Landmarks)) :
  Forall angle_in_range (calculate_torso_angle_per_frame landmarks_list)
  /\ Forall angle_in_range (calculate_quad_angle_per_frame landmarks_list)
  /\ Forall angle_in_range (calculate_ankle_angle_per_frame landmarks_list)
  /\ calculate_squat_form landmarks_list =
       (calculate_torso_angle_per_frame landmarks_list,
        calculate_quad_angle_per_frame landmarks_list,
        calculate_ankle_angle_per_frame landmarks_list).
Proof.
  unfold calculate_torso_angle_per_frame, calculate_quad_angle_per_frame,
    calculate_ankle_angle_per_frame.
  repeat split; apply Forall_map, Forall_forall; intros [lm|] _; cbn; try exact I.
  - pose proof (get_segment_angle_range (landmark lm 23) (landmark lm 11)).
    pose proof (get_segment_angle_range (landmark lm 24) (landmark lm 12)). lra.
  - pose proof (get_segment_angle_range (landmark lm 23) (landmark lm 25)).
    pose proof (get_segment_angle_range (landmark lm 24) (landmark lm 26)). lra.
  - pose proof (get_ankle_segment_angle_range (landmark lm 29) (landmark lm 25)).
    pose proof (get_ankle_segment_angle_range (landmark lm 30) (landmark lm 26)). lra.
Qed.

(** C5 (as amended).  For every pair of points, with [v] the
    [atan2(-dy, dx)] angle in degrees wrapped into [0, 360), the
    segment angle is the quadrant folding of [v]: 90 - v up to 90,
    v - 90 in (90, 180], 270 - v in (180, 270], and v - 270 above
    270. *)
Theorem segment_angle_quadrant_folding (point1 point2 : Point) :
  let v := angle_from_horizontal point1 point2 in
  let d := degrees (atan2 (- (y point2 - y point1)) (x point2 - x point1)) in
  (0 <= v < 360 /\ ((0 <= d /\ v = d) \/ (d < 0 /\ v = d + 360)))
  /\ (0 <= v <= 90 -> get_segment_angle point1 point2 = 90 - v)
  /\ (90 < v <= 180 -> get_segment_angle point1 point2 = v - 90)
  /\ (180 < v <= 270 -> get_segment_angle point1 point2 = 270 - v)
  /\ (270 < v < 360 -> get_segment_angle point1 point2 = v - 270).
Proof.
  intros v d. split; [apply angle_from_horizontal_range|].
  unfold get_segment_angle. fold v.
  repeat split; intros Hv;
    repeat match goal with |- context [Rle_dec ?a ?b] => destruct (Rle_dec a b) end;
    lra.
Qed.

(** The wrapped angle of the segment from the origin to (1, 2): the
    second point lies below and to the right in image coordinates. *)
Lemma angle_down_right :
  angle_from_horizontal origin down_right = 360 - degrees (atan 2)
  /\ 45 < degrees (atan 2) < 90.
Proof.
  pose proof PI_RGT_0 as Hpi.
  assert (Hd : 45 < degrees (atan 2) < 90).
  { pose proof (atan_bound 2) as [_ Hub].
    pose proof (atan_increasing 1 2 ltac:(lra)) as Hlb. rewrite atan_1 in Hlb.
    unfold degrees. split.
    - apply Rmult_lt_reg_r with PI; [lra|].
      replace (atan 2 * 180 / PI * PI) with (atan 2 * 180) by (field; lra). lra.
    - apply Rmult_lt_reg_r with PI; [lra|].
      replace (atan 2 * 180 / PI * PI) with (atan 2 * 180) by (field; lra). lra. }
  split; [|exact Hd].
  unfold angle_from_horizontal, origin, down_right. cbn [x y].
  replace (- (2 - 0)) with (-2) by ring. replace (1 - 0) with 1 by ring.
  assert (Hat : atan2 (-2) 1 = - atan 2).
  { unfold atan2. destruct (Rlt_dec 0 1); [|lra].
    replace (-2 / 1) with (- 2) by field. apply atan_opp. }
  rewrite Hat.
  assert (Hdeg : degrees (- atan 2) = - degrees (atan 2)).
  { unfold degrees. field. lra. }
  rewrite Hdeg. destruct (Rlt_dec (- degrees (atan 2)) 0); lra.
Qed.

Lemma segment_angle_quadrant_folding_witness :
  get_segment_angle origin down_right
  = angle_from_horizontal origin down_right - 270.
Proof.
  apply (segment_angle_quadrant_folding origin down_right).
  destruct angle_down_right as [Hv Hd]. rewrite Hv. lra.
Defined.

(** C5 as stated fails in the last quadrant: for the segment from the
    origin to (1, 2) the wrapped angle [v] lies in (270, 360], and the
    segment angle is [v - 270], not [360 - v]. *)
Lemma segment_angle_last_quadrant_not_360_minus :
  270 < angle_from_horizontal origin down_right <= 360
  /\ get_segment_angle origin down_right
     = angle_from_horizontal origin down_right - 270
  /\ get_segment_angle origin down_right
     <> 360 - angle_from_horizontal origin down_right.
Proof.
  destruct angle_down_right as [Hv Hd].
  unfold get_segment_angle. rewrite Hv.
  repeat match goal with |- context [Rle_dec ?a ?b] => destruct (Rle_dec a b) end;
    try lra.
  all: repeat split; lra.
Qed.

End GeometryProperties.

(** ** Active-phase filtering *)

Section ActivePhaseProperties.
Import PyNum Aggregator Segmenter ActivePhase TorsoAnalyzer.

Lemma no_reps_iff (phases : Phases) : no_reps phases = true <-> reps_of phases = [].
Proof.
  unfold no_reps, reps_of. destruct (phases !! "reps") as [[|r reps]|]; cbn; done.
Qed.

(** C10.  When the phases hold zero reps, the active-phase filter
    returns the input series itself, every frame of it, not an empty
    series: both for the phases handed to the exercise adapter and for
    the phases the torso analyzer computes from the quad series; the
    torso analyzer then judges the whole series, as if no quad angles
    had been passed. *)
Theorem active_filter_identity_without_reps
    (angles quad_angles_per_frame : list (option Q)) (phases : Phases) :
  reps_of phases = [] ->
  _extract_active_angles angles phases = angles
  /\ (detect_squat_phases quad_angles_per_frame 30.0 = Some phases ->
      _filter_to_active_phases angles quad_angles_per_frame = Some angles
      /\ analyze_torso_angle angles quad_angles_per_frame
         = analyze_torso_angle angles []).
Proof.
  intros Hzero. apply no_reps_iff in Hzero. split.
  - unfold _extract_active_angles. by rewrite Hzero.
  - intros Hdetect.
    assert (Hfilter : _filter_to_active_phases angles quad_angles_per_frame = Some angles).
    { unfold _filter_to_active_phases.
      rewrite Hdetect. cbn [mbind option_bind]. by rewrite Hzero. }
    split; [exact Hfilter|].
    unfold analyze_torso_angle. destruct quad_angles_per_frame; [done|].
    by rewrite Hfilter.
Qed.

Lemma active_filter_identity_without_reps_witness :
  _extract_active_angles leaning {[ "reps" := [] ]} = leaning
  /\ _filter_to_active_phases leaning standing = Some leaning
  /\ analyze_torso_angle leaning standing = Some (mkResult poor (Some 50)).
Proof.
  destruct (active_filter_identity_without_reps leaning standing {[ "reps" := [] ]})
    as [Hextract Hfilter].
  - reflexivity.
  - split; [exact Hextract|].
    destruct Hfilter as [Hfilter Htorso]; [vm_compute; reflexivity|].
    split; [exact Hfilter|]. rewrite Htorso. vm_compute. reflexivity.
Defined.

(** With at least one rep the filter keeps the frames of the reps
    only; here frames 48 to 62 of 120. *)
Lemma active_filter_restricts_with_reps :
  length <$> _filter_to_active_phases (twin_peaks 130) (twin_peaks 130) = Some 15%nat.
Proof. vm_compute. reflexivity. Qed.

End ActivePhaseProperties.

(** ** Movement onset *)

Section OnsetProperties.
Import PyNum Segmenter ActivePhase Onset.

Lemma find_seq_first (f : nat -> bool) (a n x : nat) :
  List.find f (seq a n) = Some x ->
  (a <= x < a + n)%nat /\ f x = true /\ forall j, (a <= j < x)%nat -> f j = false.
Proof.
  revert a. induction n as [|n IH]; intros a Hfind; [done|].
  cbn [seq List.find] in Hfind. destruct (f a) eqn:Hfa.
  - inversion Hfind; subst. split; [lia|]. split; [done|]. intros j Hj. lia.
  - destruct (IH (S a) Hfind) as (Hx & Hfx & Hbefore).
    split; [lia|]. split; [done|]. intros j Hj.
    destruct (decide (j = a)) as [->|Hne]; [done|]. apply Hbefore. lia.
Qed.

Lemma find_seq_none (f : nat -> bool) (a n : nat) :
  List.find f (seq a n) = None -> forall j, (a <= j < a + n)%nat -> f j = false.
Proof.
  revert a. induction n as [|n IH]; intros a Hfind j Hj; [lia|].
  cbn [seq List.find] in Hfind. destruct (f a) eqn:Hfa; [done|].
  destruct (decide (j = a)) as [->|Hne]; [done|]. apply (IH (S a) Hfind). lia.
Qed.

(** What the code does: past its guards it reports the first frame
    of the descent window that passes [onset_test] with the threshold
    [2.0 / fps], and the start frame when no frame passes. *)
Lemma detect_movement_start_first_crossing
    (angles : list (option Q)) (start_frame end_frame : nat) (fps : Q) :
  (start_frame < end_frame)%nat -> (end_frame < length angles)%nat ->
  ~ (fps == 0)%Q ->
  let test := onset_test angles fps (_calculate_smoothed_baseline angles start_frame 3)
                         (2.0 / fps) in
  exists i,
    _detect_movement_start_velocity angles start_frame end_frame fps = Some i
    /\ ((i = start_frame
         /\ forall j, (start_frame < j <= end_frame)%nat -> test j = false)
        \/ ((start_frame < i <= end_frame)%nat /\ test i = true
            /\ forall j, (start_frame < j < i)%nat -> test j = false)).
Proof.
  intros Hse He Hfps test. unfold _detect_movement_start_velocity.
  destruct (length angles <=? start_frame)%nat eqn:H1; [apply Nat.leb_le in H1; lia|].
  destruct (length angles <=? end_frame)%nat eqn:H2; [apply Nat.leb_le in H2; lia|].
  destruct (end_frame <=? start_frame)%nat eqn:H3; [apply Nat.leb_le in H3; lia|].
  cbn [orb].
  destruct (Qeq_bool fps 0) eqn:Hz; [by apply Qeq_bool_iff in Hz|].
  fold test.
  replace (Nat.min (end_frame + 1) (length angles) - (start_frame + 1))%nat
    with (end_frame - start_frame)%nat by lia.
  destruct (List.find test (seq (start_frame + 1) (end_frame - start_frame))) as [i|] eqn:Hfind.
  - destruct (find_seq_first _ _ _ _ Hfind) as (Hi & Hti & Hbefore).
    exists i. split; [done|]. right. split; [lia|]. split; [done|].
    intros j Hj. apply Hbefore. lia.
  - exists start_frame. split; [done|]. left. split; [done|].
    intros j Hj. apply (find_seq_none _ _ _ Hfind). lia.
Qed.

(** C8 fails on the code.  On [slow_descent] at 30 fps no frame moves
    at 2.0 degrees per second (the speed is 1.8 throughout), so no
    frame meets the onset condition of the specification; the code
    compares the speed with [2.0 / fps] and reports frame 51, the
    first frame 3 degrees off the baseline. *)
Lemma onset_fires_below_two_degrees_per_second :
  let baseline := _calculate_smoothed_baseline slow_descent 0 3 in
  _detect_movement_start_velocity slow_descent 0 59 30 = Some 51%nat
  /\ spec_onset_condition slow_descent 30 baseline 51 = false
  /\ List.find (spec_onset_condition slow_descent 30 baseline) (seq 1 59) = None
  /\ onset_test slow_descent 30 baseline (2.0 / 30) 51 = true.
Proof. vm_compute. repeat split. Qed.

End OnsetProperties.

(** ** Rep consistency *)

Section ConsistencyProperties.
Import Aggregator Consistency.
Local Open Scope R_scope.

(** What [_analyze_single_consistency] computes on at least two
    values of non-zero mean: the rule on the coefficient of
    variation, except that a coefficient of exactly 0 is taken for a
    missing one. *)
Lemma analyze_single_consistency_rule (values : list R) :
  (2 <= length values)%nat ->
  Rsum values / INR (length values) <> 0 ->
  _analyze_single_consistency values =
    if Req_dec_T (spec_cv values) 0 then (error, 0%Z)
    else if Rlt_dec (spec_cv values) 5 then (good, 100%Z)
    else if Rlt_dec (spec_cv values) 10 then (warning, 75%Z)
    else (poor, 50%Z).
Proof.
  intros Hlen Hmean.
  unfold _analyze_single_consistency, _calculate_consistency_metrics, spec_cv.
  destruct (length values <? 2)%nat eqn:Hlt; [apply Nat.ltb_lt in Hlt; lia|].
  destruct (Req_dec_T (Rsum values / INR (length values)) 0) as [Hz|_]; [done|].
  unfold truthy, _determine_consistency_status.
  destruct (Req_dec_T _ 0); reflexivity.
Qed.

Lemma identical_reps_cv : spec_cv identical_reps = 0.
Proof.
  unfold spec_cv, identical_reps, Rsum. cbn [length map fold_left INR].
  replace ((0 + 100 + 100) / (1 + 1)) with 100 by lra.
  replace ((0 + (100 - 100) ^ 2 + (100 - 100) ^ 2) / (1 + 1)) with 0 by lra.
  rewrite sqrt_0. lra.
Qed.

(** C7 fails on the code.  For two identical reps the coefficient of
    variation is 0, which is below 5, and the sub-result is the error
    result with score 0, not good with score 100: [if cv] takes the
    number 0.0 for a missing value. *)
Lemma identical_reps_reported_as_error :
  (2 <= length identical_reps)%nat
  /\ Rsum identical_reps / INR (length identical_reps) = 100
  /\ spec_cv identical_reps = 0
  /\ spec_cv identical_reps < 5
  /\ _determine_consistency_status (Some (spec_cv identical_reps)) = (good, 100%Z)
  /\ _analyze_single_consistency identical_reps = (error, 0%Z).
Proof.
  assert (Hmean : Rsum identical_reps / INR (length identical_reps) = 100).
  { unfold identical_reps, Rsum. cbn [length fold_left INR]. lra. }
  pose proof identical_reps_cv as Hcv.
  split; [cbn; lia|]. split; [exact Hmean|]. split; [exact Hcv|].
  split; [lra|]. split.
  - rewrite Hcv. unfold _determine_consistency_status.
    destruct (Rlt_dec 0 5); [reflexivity|lra].
  - rewrite analyze_single_consistency_rule; [|cbn; lia|lra].
    destruct (Req_dec_T (spec_cv identical_reps) 0); [reflexivity|done].
Qed.

(** Away from 0 the rule is followed: values 99 and 101 have mean
    100, standard deviation 1 and coefficient of variation 1, and the
    sub-result is good with score 100. *)
Lemma close_reps_good :
  spec_cv close_reps = 1
  /\ _analyze_single_consistency close_reps = (good, 100%Z).
Proof.
  assert (Hmean : Rsum close_reps / INR (length close_reps) = 100).
  { unfold close_reps, Rsum. cbn [length fold_left INR]. lra. }
  assert (Hcv : spec_cv close_reps = 1).
  { unfold spec_cv, close_reps, Rsum. cbn [length map fold_left INR].
    replace ((0 + 99 + 101) / (1 + 1)) with 100 by lra.
    replace ((0 + (99 - 100) ^ 2 + (101 - 100) ^ 2) / (1 + 1)) with 1 by lra.
    rewrite sqrt_1. lra. }
  split; [exact Hcv|].
  rewrite analyze_single_consistency_rule; [|cbn; lia|lra].
  rewrite Hcv.
  destruct (Req_dec_T 1 0); [lra|]. destruct (Rlt_dec 1 5); [reflexivity|lra].
Qed.

End ConsistencyProperties.

(* ================================================================== *)
(** * Part III: further properties of the code                        *)
(* ================================================================== *)

(** ** Truncation toward zero *)

Section AggregatorBounds.
Import PyNum Aggregator.

(** Truncation keeps a number between the integers that bound it. *)
Lemma py_int_between (q : Q) (lo hi : Z) :
  (inject_Z lo <= q)%Q -> (q <= inject_Z hi)%Q -> lo <= py_int q <= hi.
Proof.
  destruct q as [n d]. unfold Qle, py_int. cbn [Qnum Qden inject_Z].
  intros Hlo Hhi. rewrite Z.mul_1_r in Hlo, Hhi.
  pose proof (Z.quot_rem' n (Z.pos d)) as Hqr.
  destruct (Z_le_gt_dec 0 n) as [Hn|Hn].
  - pose proof (Z.rem_bound_pos n (Z.pos d) Hn ltac:(lia)). nia.
  - pose proof (Z.rem_bound_pos_neg n (Z.pos d) ltac:(lia) ltac:(lia)). nia.
Qed.

End AggregatorBounds.

(** ** Score aggregator on binary64 floats: bounds of the final score *)

Section FloatAggregatorBounds.
Import PrimFloat Float64 Aggregator FloatAggregator.

#[local] Set Warnings "-inexact-float".

Lemma forall_vectors_spec {A} (choices : list (list A)) (p : list A -> bool) (v : list A) :
  forall_vectors choices p = true -> Forall2 (fun x c => x ∈ c) v choices -> p v = true.
Proof.
  revert p v. induction choices as [|c rest IH]; intros p v Hall Hv.
  - inversion Hv; subst. exact Hall.
  - inversion Hv as [|x c' v' rest' Hx Hrest]; subst. cbn [forall_vectors] in Hall.
    rewrite forallb_forall in Hall.
    apply (IH (fun v => p (x :: v))); [|done].
    apply Hall. by apply list_elem_of_In.
Qed.

(** The scores of a mapping produced by the analyzers are among the
    choices. *)
Lemma read_scores_choices (fa : FormAnalysis) :
  produced_by_analyzers fa = true ->
  Forall2 (fun x c => x ∈ c) (read_scores fa weights) score_choices.
Proof.
  intros Hp. unfold produced_by_analyzers in Hp. rewrite forallb_forall in Hp.
  change (read_scores fa weights)
    with (map (fun kr : string * list Z => fa !! kr.1 ≫= score) analyzer_scores).
  unfold score_choices. apply Forall2_fmap, Forall_Forall2_diag, Forall_forall.
  intros [k range] Hin. specialize (Hp (k, range)). cbn [fst snd] in Hp |- *.
  apply list_elem_of_In in Hin. specialize (Hp Hin).
  destruct (fa !! k ≫= score) as [s|]; [|by left].
  right. apply bool_decide_eq_true in Hp. by apply list_elem_of_fmap_2.
Qed.

Lemma scored_of_read_scores (fa : FormAnalysis) (ws : list (string * float)) :
  scored_of ws (read_scores fa ws) = scored fa ws.
Proof.
  unfold scored_of, read_scores, scored.
  induction ws as [|[k w] ws IH]; [done|].
  cbn [map zip zip_with omap list_omap fst snd]. rewrite IH.
  destruct (fa !! k) as [a|]; [|done]. cbn. by destruct (score a).
Qed.

Lemma values_of_read_scores (fa : FormAnalysis) (ws : list (string * float)) :
  omap (fun s : option Z => s) (read_scores fa ws)
  = map (fun e : string * Z * float => e.1.2) (scored fa ws).
Proof.
  unfold read_scores, scored.
  induction ws as [|[k w] ws IH]; [done|].
  cbn [map omap list_omap fst snd]. rewrite IH.
  destruct (fa !! k) as [a|]; [|done]. cbn. by destruct (score a).
Qed.

Lemma Zmin_list_spec (a : Z) (l : list Z) (lo : Z) :
  (forall x, x ∈ a :: l -> lo <= x) -> lo <= Zmin_list a l.
Proof.
  unfold Zmin_list. revert a. induction l as [|y l IH]; intros a Hall.
  - cbn. apply Hall. by left.
  - cbn [fold_left]. apply IH. intros x Hx.
    apply elem_of_cons in Hx as [->|Hx].
    + pose proof (Hall a ltac:(by left)). pose proof (Hall y ltac:(right; by left)). lia.
    + apply Hall. right. by right.
Qed.

Lemma Zmax_list_spec (a : Z) (l : list Z) (hi : Z) :
  (forall x, x ∈ a :: l -> x <= hi) -> Zmax_list a l <= hi.
Proof.
  unfold Zmax_list. revert a. induction l as [|y l IH]; intros a Hall.
  - cbn. apply Hall. by left.
  - cbn [fold_left]. apply IH. intros x Hx.
    apply elem_of_cons in Hx as [->|Hx].
    + pose proof (Hall a ltac:(by left)). pose proof (Hall y ltac:(right; by left)). lia.
    + apply Hall. right. by right.
Qed.

(** All combinations of analyzer scores, 55296 of them, evaluated. *)
Lemma analyzer_scores_checked :
  forall_vectors score_choices final_near_scores = true.
Proof. vm_compute. reflexivity. Qed.

(** On a mapping produced by the analyzers with at least one scored
    weighted metric, the aggregator returns, and its final score is
    near the scores: not above the largest, at most one below the
    smallest, and not below 90 when no score is. *)
Lemma final_score_near_scores (fa : FormAnalysis) :
  produced_by_analyzers fa = true ->
  scored fa weights <> [] ->
  exists (f : FinalScore) (s : Z) (ss : list Z),
    calculate_final_score fa = Some f
    /\ grade f = _determine_grade (final_score f)
    /\ map (fun e : string * Z * float => e.1.2) (scored fa weights) = s :: ss
    /\ Zmin_list s ss - 1 <= final_score f <= Zmax_list s ss
    /\ (90 <= Zmin_list s ss -> 90 <= final_score f).
Proof.
  intros Hp Hne.
  pose proof (forall_vectors_spec _ _ _ analyzer_scores_checked
                (read_scores_choices fa Hp)) as Hchk.
  unfold final_near_scores in Hchk. rewrite values_of_read_scores in Hchk.
  destruct (map _ (scored fa weights)) as [|s ss] eqn:Hvals.
  { apply map_eq_nil in Hvals. done. }
  unfold final_of_scores in Hchk. rewrite scored_of_read_scores in Hchk.
  rewrite float_calculate_final_score_unfold.
  destruct (running_sums (scored fa weights)) as [[weighted_sum total_weight]|];
    [|done].
  cbn [mbind option_bind] in Hchk |- *.
  destruct (if (0 <? total_weight)%float
            then int_of_float (weighted_sum / total_weight) else Some 0) as [f|];
    [|done].
  cbn [mbind option_bind].
  apply andb_prop in Hchk as [Hchk H90]. apply andb_prop in Hchk as [Hlo Hhi].
  apply Z.leb_le in Hlo, Hhi.
  eexists _, s, ss. split; [reflexivity|]. cbn [final_score grade].
  split; [done|]. split; [done|]. split; [lia|].
  intros Hmin. apply Z.leb_le in Hmin. rewrite Hmin in H90. by apply Z.leb_le.
Qed.

Lemma scores_of_scored (fa : FormAnalysis) (s : Z) (ss : list Z) (x : Z) :
  map (fun e : string * Z * float => e.1.2) (scored fa weights) = s :: ss ->
  x ∈ s :: ss -> exists k w, (k, x, w) ∈ scored fa weights.
Proof.
  intros Hvals Hx. rewrite <- Hvals in Hx.
  apply list_elem_of_fmap in Hx as ([[k x'] w] & -> & Hin). by exists k, w.
Qed.

(** X1.  On a mapping whose scores the analyzers can return, with at
    least one weighted metric scored and every scored weighted
    metric between [lo] and [hi], [calculate_final_score] returns a
    final score between [lo - 1] and [hi]: the truncated float
    quotient never exceeds the largest score and falls at most one
    point below the smallest. *)
Theorem final_score_between_component_bounds (fa : FormAnalysis) (lo hi : Z) :
  produced_by_analyzers fa = true ->
  scored fa weights <> [] ->
  (forall k s w, (k, s, w) ∈ scored fa weights -> lo <= s <= hi) ->
  exists f : FinalScore,
    calculate_final_score fa = Some f
    /\ lo - 1 <= final_score f <= hi.
Proof.
  intros Hp Hne Hbounds.
  destruct (final_score_near_scores fa Hp Hne) as (f & s & ss & Hf & _ & Hvals & Hnear & _).
  exists f. split; [done|].
  assert (Hlo : lo <= Zmin_list s ss).
  { apply Zmin_list_spec. intros x Hx.
    destruct (scores_of_scored fa s ss x Hvals Hx) as (k & w & Hin).
    apply (Hbounds k x w Hin). }
  assert (Hhi : Zmax_list s ss <= hi).
  { apply Zmax_list_spec. intros x Hx.
    destruct (scores_of_scored fa s ss x Hvals Hx) as (k & w & Hin).
    apply (Hbounds k x w Hin). }
  lia.
Qed.

(** Six metrics at 100: the final score is 99 or 100 (it is 99). *)
Lemma final_score_between_component_bounds_witness :
  exists f : FinalScore,
    calculate_final_score fa_six_perfect = Some f
    /\ 100 - 1 <= final_score f <= 100.
Proof.
  apply (final_score_between_component_bounds fa_six_perfect 100 100).
  - vm_compute. reflexivity.
  - vm_compute. discriminate.
  - intros k s w Hin.
    assert (Hall : Forall (fun e : string * Z * float => 100 <= e.1.2 <= 100)
                          (scored fa_six_perfect weights)).
    { vm_compute. repeat constructor; discriminate. }
    rewrite Forall_forall in Hall. apply (Hall (k, s, w) Hin).
Defined.

(** X2.  On a mapping whose scores the analyzers can return, with at
    least one weighted metric scored, the grade follows the scores:
    with every scored weighted metric at 90 or more the grade is
    Excellent, with every one at 75 or more the final score is at
    least 74 and the grade is not Needs Improvement, and with every
    one below 60 the grade is Needs Improvement. *)
Theorem grade_follows_component_scores (fa : FormAnalysis) :
  produced_by_analyzers fa = true ->
  scored fa weights <> [] ->
  exists f : FinalScore,
    calculate_final_score fa = Some f
    /\ ((forall k s w, (k, s, w) ∈ scored fa weights -> 90 <= s) ->
        grade f = Excellent)
    /\ ((forall k s w, (k, s, w) ∈ scored fa weights -> 75 <= s) ->
        74 <= final_score f /\ grade f <> NeedsImprovement)
    /\ ((forall k s w, (k, s, w) ∈ scored fa weights -> s < 60) ->
        grade f = NeedsImprovement).
Proof.
  intros Hp Hne.
  destruct (final_score_near_scores fa Hp Hne)
    as (f & s & ss & Hf & Hgrade & Hvals & Hnear & H90).
  exists f. split; [done|]. rewrite Hgrade. unfold _determine_grade.
  refine (conj _ (conj _ _)).
  - intros Hall.
    assert (Hlo : 90 <= Zmin_list s ss).
    { apply Zmin_list_spec. intros x Hx.
      destruct (scores_of_scored fa s ss x Hvals Hx) as (k & w & Hin).
      apply (Hall k x w Hin). }
    specialize (H90 Hlo).
    destruct (Z.leb_spec 90 (final_score f)); [done|lia].
  - intros Hall.
    assert (Hlo : 75 <= Zmin_list s ss).
    { apply Zmin_list_spec. intros x Hx.
      destruct (scores_of_scored fa s ss x Hvals Hx) as (k & w & Hin).
      apply (Hall k x w Hin). }
    split; [lia|].
    destruct (Z.leb_spec 90 (final_score f)); [done|].
    destruct (Z.leb_spec 75 (final_score f)); [done|].
    destruct (Z.leb_spec 60 (final_score f)); [done|lia].
  - intros Hall.
    assert (Hhi : Zmax_list s ss <= 59).
    { apply Zmax_list_spec. intros x Hx.
      destruct (scores_of_scored fa s ss x Hvals Hx) as (k & w & Hin).
      specialize (Hall k x w Hin). lia. }
    destruct (Z.leb_spec 90 (final_score f)); [lia|].
    destruct (Z.leb_spec 75 (final_score f)); [lia|].
    destruct (Z.leb_spec 60 (final_score f)); [lia|done].
Qed.

(** Three metrics at 75: the final score is 74 and the grade Fair. *)
Lemma grade_follows_component_scores_witness :
  exists f : FinalScore,
    calculate_final_score fa_three_warning = Some f
    /\ 74 <= final_score f /\ grade f <> NeedsImprovement.
Proof.
  destruct (grade_follows_component_scores fa_three_warning) as (f & Hf & _ & H75 & _).
  - vm_compute. reflexivity.
  - vm_compute. discriminate.
  - exists f. split; [exact Hf|]. apply H75.
    intros k s w Hin.
    assert (Hall : Forall (fun e : string * Z * float => 75 <= e.1.2)
                          (scored fa_three_warning weights)).
    { vm_compute. repeat constructor; discriminate. }
    rewrite Forall_forall in Hall. apply (Hall (k, s, w) Hin).
Defined.

(** The truncation costs a point and a grade on equal scores: three
    metrics at 75 give 74 and Fair; three at 90, which no run of the
    analyzers produces, would give 89 and Good. *)
Lemma equal_scores_lose_a_point :
  (final_score <$> calculate_final_score fa_three_warning = Some 74
   /\ grade <$> calculate_final_score fa_three_warning = Some Fair
   /\ produced_by_analyzers fa_three_warning = true)
  /\ (final_score <$> calculate_final_score fa_three_at_90 = Some 89
      /\ grade <$> calculate_final_score fa_three_at_90 = Some Good
      /\ produced_by_analyzers fa_three_at_90 = false).
Proof. vm_compute. repeat split. Qed.

End FloatAggregatorBounds.

(** ** Rep segmenter: when there are no reps, and what a rep holds *)

Section SegmenterFurther.
Import PyNum Segmenter.
Local Open Scope nat_scope.

(** *** Valid samples and the series they come from *)

Lemma enumerate_valid_sound (l : list (option Q)) (k i : nat) :
  i < length (enumerate_valid k l) ->
  exists j, (at_ (enumerate_valid k l) i).1 = k + j
            /\ l !! j = Some (Some (at_ (enumerate_valid k l) i).2).
Proof.
  revert k i. induction l as [|[a|] l IH]; intros k i Hi.
  - cbn in Hi. lia.
  - cbn [enumerate_valid] in *. destruct i as [|i].
    + exists 0. cbn. split; [lia|done].
    + cbn in Hi. destruct (IH (S k) i ltac:(lia)) as (j & Hf & Hl).
      exists (S j). rewrite at_cons_S. split; [lia|done].
  - cbn [enumerate_valid] in *. destruct (IH (S k) i Hi) as (j & Hf & Hl).
    exists (S j). split; [lia|done].
Qed.

Lemma enumerate_valid_complete (l : list (option Q)) (k j : nat) (a : Q) :
  l !! j = Some (Some a) ->
  exists i, i < length (enumerate_valid k l) /\ at_ (enumerate_valid k l) i = (k + j, a).
Proof.
  revert k j. induction l as [|[a0|] l IH]; intros k j Hl; [done| |].
  - cbn [enumerate_valid]. destruct j as [|j].
    + inversion Hl; subst. exists 0. cbn. split; [lia|]. f_equal. lia.
    + destruct (IH (S k) j Hl) as (i & Hi & Hat).
      exists (S i). cbn [length]. rewrite at_cons_S, Hat. split; [lia|]. f_equal. lia.
  - cbn [enumerate_valid]. destruct j as [|j]; [done|].
    destruct (IH (S k) j Hl) as (i & Hi & Hat).
    exists i. rewrite Hat. split; [done|]. f_equal. lia.
Qed.

(** *** The baseline is one of the valid angles *)

Lemma py_min_elem (l : list Q) (m : Q) : py_min l = Some m -> m ∈ l.
Proof.
  destruct l as [|x t]; [done|]. cbn [py_min]. intros Hm. inversion Hm as [Hfold].
  clear Hm Hfold.
  assert (Hgen : forall t acc, fold_left (fun m y => if Qltb y m then y else m) t acc
                               ∈ acc :: t).
  { clear. induction t as [|y t IH]; intros acc; [cbn; apply elem_of_cons; by left|].
    cbn [fold_left]. specialize (IH (if Qltb y acc then y else acc)).
    apply elem_of_cons in IH as [Heq|Hin].
    - rewrite Heq. destruct (Qltb y acc).
      + apply elem_of_cons. right. apply elem_of_cons. by left.
      + apply elem_of_cons. by left.
    - apply elem_of_cons. right. apply elem_of_cons. by right. }
  apply Hgen.
Qed.

Lemma calculate_baseline_elem (valid : list sample) (b : Q) :
  _calculate_baseline valid = Some b ->
  exists i, i < length valid /\ (at_ valid i).2 = b.
Proof.
  unfold _calculate_baseline. intros Hb.
  assert (Hin : b ∈ map snd valid).
  { destruct (20 <? length valid).
    - apply py_min_elem in Hb. apply elem_of_app in Hb as [Hb|Hb].
      + apply list_elem_of_fmap in Hb as (s & -> & Hs).
        apply list_elem_of_fmap. exists s. split; [done|].
        by apply (sublist_subseteq _ _ (sublist_take valid 10)).
      + apply list_elem_of_fmap in Hb as (s & -> & Hs).
        apply list_elem_of_fmap. exists s. split; [done|].
        by apply (sublist_subseteq _ _ (sublist_drop valid (length valid - 10))).
    - by apply py_min_elem. }
  apply list_elem_of_fmap in Hin as (s & -> & Hs).
  apply list_elem_of_lookup in Hs as [i Hi].
  exists i. split; [by apply lookup_lt_Some in Hi|].
  unfold at_. by rewrite (nth_lookup_Some _ _ _ _ Hi).
Qed.

(** X3.  A series whose measured angles all stay within a band
    narrower than 20 degrees holds no rep, whatever the frame rate:
    no sample reaches the squat threshold, baseline plus 20. *)
Theorem no_reps_without_20_degree_rise
    (quad_angles_per_frame : list (option Q)) (fps lo : Q) :
  (forall (i : nat) (a : Q), quad_angles_per_frame !! i = Some (Some a) ->
     (lo <= a)%Q /\ (a < lo + 20)%Q) ->
  detect_reps quad_angles_per_frame fps = Some [].
Proof.
  intros Hband.
  destruct (_calculate_baseline (enumerate_valid 0 quad_angles_per_frame)) as [b|] eqn:Hb.
  - rewrite (detect_reps_stages _ fps b Hb).
    set (valid := enumerate_valid 0 quad_angles_per_frame) in *.
    assert (Hlo : (lo <= b)%Q).
    { destruct (calculate_baseline_elem valid b Hb) as (i & Hi & <-).
      destruct (enumerate_valid_sound quad_angles_per_frame 0 i Hi) as (j & _ & Hj).
      apply (Hband j _ Hj). }
    assert (Hcands : peak_candidates valid (b + 20) = []).
    { pose proof (peak_candidates_ok valid (b + 20)) as Hok.
      destruct (peak_candidates valid (b + 20)) as [|c cands]; [done|].
      apply Forall_cons in Hok as [(Hi & _ & Hnb) _]. exfalso. apply Hnb.
      destruct (enumerate_valid_sound quad_angles_per_frame 0 c.1 Hi) as (j & _ & Hj).
      destruct (Hband j _ Hj) as [_ Hhi].
      apply Qltb_lt. fold valid. eapply Qlt_le_trans; [exact Hhi|].
      by apply Qplus_le_l. }
    by rewrite Hcands.
  - apply detect_reps_no_valid.
    destruct (enumerate_valid 0 quad_angles_per_frame) as [|s0 valid0] eqn:Hvalid; [done|].
    destruct (calculate_baseline_some (s0 :: valid0) ltac:(done)) as [b' Hb'].
    by rewrite Hb' in Hb.
Qed.

Lemma no_reps_without_20_degree_rise_witness :
  detect_reps (series (fun i => if Nat.even i then 5%Q else 24%Q) 40) 30 = Some [].
Proof.
  apply (no_reps_without_20_degree_rise _ 30 5).
  intros i a Hi. unfold series in Hi.
  apply list_lookup_fmap_Some in Hi as (j & Ha & _). inversion Ha; subst.
  destruct (Nat.even j); split; (vm_compute; done).
Defined.

(** X4.  With fewer than five measured frames no position can be a
    local maximum of the five-sample window, and the segmenter
    returns zero reps. *)
Theorem no_reps_under_five_samples
    (quad_angles_per_frame : list (option Q)) (fps : Q) :
  length (enumerate_valid 0 quad_angles_per_frame) < 5 ->
  detect_reps quad_angles_per_frame fps = Some [].
Proof.
  intros Hlen.
  destruct (_calculate_baseline (enumerate_valid 0 quad_angles_per_frame)) as [b|] eqn:Hb.
  - rewrite (detect_reps_stages _ fps b Hb). unfold peak_candidates.
    replace (length (enumerate_valid 0 quad_angles_per_frame) - 2 - 2) with 0 by lia.
    reflexivity.
  - apply detect_reps_no_valid.
    destruct (enumerate_valid 0 quad_angles_per_frame) as [|s0 valid0] eqn:Hvalid; [done|].
    destruct (calculate_baseline_some (s0 :: valid0) ltac:(done)) as [b' Hb'].
    by rewrite Hb' in Hb.
Qed.

Lemma no_reps_under_five_samples_witness :
  detect_reps [Some 0%Q; None; Some 90%Q; None; None; Some 0%Q; Some 0%Q] 30 = Some [].
Proof.
  apply (no_reps_under_five_samples _ 30). cbn. lia.
Defined.

(** *** Spacing of the accepted peaks *)

(** X5.  The minimum-distance filter keeps its promise: any two
    accepted peaks lie at least [min_distance] positions apart, and
    every accepted peak is one of the candidates. *)
Theorem accepted_peaks_spaced (angles_with_indices : list sample)
    (min_height : Q) (min_distance : Z) :
  (0 <= min_distance)%Z ->
  let accepted := accepted_peaks (peak_candidates angles_with_indices min_height)
                                 min_distance in
  StronglySorted (spaced min_distance) accepted
  /\ accepted ⊆ peak_candidates angles_with_indices min_height.
Proof.
  intros Hd accepted. split; [|apply sublist_subseteq, accepted_peaks_sublist].
  by apply accepted_peaks_strongly_spaced.
Qed.

Lemma accepted_peaks_spaced_witness :
  StronglySorted (spaced 30)
    (accepted_peaks (peak_candidates (enumerate_valid 0 paused_squat) 20) 30).
Proof.
  apply (accepted_peaks_spaced (enumerate_valid 0 paused_squat) 20 30). lia.
Defined.

(** *** The bounce filter below 31 frames per second *)

(** X6.  Below 31 frames per second the bounce filter never merges
    anything: the accepted peaks are already 30 positions apart, so
    the reps do not depend on the frame rate and are those found at
    30 fps. *)
Theorem reps_independent_of_fps_below_31
    (quad_angles_per_frame : list (option Q)) (fps : Q) :
  (py_int (fps * 1.0) <= 30)%Z ->
  detect_reps quad_angles_per_frame fps = detect_reps quad_angles_per_frame 30.
Proof.
  intros Hfps.
  destruct (_calculate_baseline (enumerate_valid 0 quad_angles_per_frame)) as [b|] eqn:Hb.
  - rewrite !(detect_reps_stages _ _ b Hb).
    pose proof (accepted_peaks_strongly_spaced (enumerate_valid 0 quad_angles_per_frame)
                                               (b + 20) 30 ltac:(lia)) as Hs.
    rewrite (filter_bounce_idle (py_int (fps * 1.0)) 30 _ _ Hfps Hs).
    rewrite (filter_bounce_idle (py_int (30 * 1.0)) 30 _ _ ltac:(by vm_compute) Hs).
    reflexivity.
  - rewrite !detect_reps_no_valid; [done| |];
      (destruct (enumerate_valid 0 quad_angles_per_frame) as [|s0 valid0] eqn:Hvalid; [done|];
       destruct (calculate_baseline_some (s0 :: valid0) ltac:(done)) as [b' Hb'];
       by rewrite Hb' in Hb).
Qed.

Lemma reps_independent_of_fps_below_31_witness :
  detect_reps two_squats 29.97 = detect_reps two_squats 30.
Proof.
  apply (reps_independent_of_fps_below_31 two_squats 29.97). by vm_compute.
Defined.

(** *** What lies inside a rep *)

(** X7.  Every rep returned sits on measured frames above the squat
    threshold: its start, bottom and end frames carry an angle, and
    every measured frame from start to end, the bottom included, has
    an angle of at least the baseline plus 20 degrees. *)
Theorem reps_hold_measured_frames_above_threshold
    (quad_angles_per_frame : list (option Q)) (fps : Q) (reps : list Rep) (r : Rep) :
  detect_reps quad_angles_per_frame fps = Some reps -> r ∈ reps ->
  exists baseline : Q,
    _calculate_baseline (enumerate_valid 0 quad_angles_per_frame) = Some baseline
    /\ is_Some (quad_angles_per_frame !! start_frame r ≫= (fun a => a))
    /\ is_Some (quad_angles_per_frame !! bottom_frame r ≫= (fun a => a))
    /\ is_Some (quad_angles_per_frame !! end_frame r ≫= (fun a => a))
    /\ forall (f : nat) (a : Q),
         start_frame r <= f <= end_frame r ->
         quad_angles_per_frame !! f = Some (Some a) ->
         (baseline + 20 <= a)%Q.
Proof.
  intros Hreps Hr.
  pose proof (enumerate_valid_increasing quad_angles_per_frame) as Hinc.
  destruct (_calculate_baseline (enumerate_valid 0 quad_angles_per_frame)) as [b|] eqn:Hb.
  2:{ rewrite detect_reps_no_valid in Hreps.
      - inversion Hreps; subst. by apply elem_of_nil in Hr.
      - destruct (enumerate_valid 0 quad_angles_per_frame) as [|s0 valid0] eqn:Hvalid; [done|].
        destruct (calculate_baseline_some (s0 :: valid0) ltac:(done)) as [b' Hb'].
        by rewrite Hb' in Hb. }
  exists b. split; [done|].
  rewrite (detect_reps_stages _ fps b Hb) in Hreps.
  set (valid := enumerate_valid 0 quad_angles_per_frame) in *. set (t := (b + 20)%Q) in *.
  set (filtered := _filter_bounce_reps (accepted_peaks (peak_candidates valid t) 30)
                                       valid (py_int (fps * 1.0))) in *.
  assert (Hsub : filtered `sublist_of` peak_candidates valid t).
  { transitivity (accepted_peaks (peak_candidates valid t) 30);
      [apply filter_bounce_sublist | apply accepted_peaks_sublist]. }
  assert (Hok : Forall (peak_ok valid t) filtered)
    by (eapply Forall_sublist_of; [exact Hsub | apply peak_candidates_ok]).
  destruct (build_reps_spec valid b t filtered Hinc Hok) as (reps' & Hbuild & Hall & _).
  { eapply StronglySorted_sublist; [exact Hsub | apply peak_candidates_sorted]. }
  rewrite Hbuild in Hreps. inversion Hreps; subst reps'.
  rewrite Forall_forall in Hall. destruct (Hall r Hr) as (_ & pk & Hpk & s & e & Hs & He & ->).
  rewrite Forall_forall in Hok. destruct (Hok pk Hpk) as (Hp & _ & Hnb).
  destruct Hs as (Hsp & Hs_clear & _), He as (Hpe & He_clear & _).
  cbn [start_frame bottom_frame end_frame].
  assert (Hmeasured : forall i, i < length valid ->
            is_Some (quad_angles_per_frame !! (at_ valid i).1 ≫= (fun a => a))).
  { intros i Hi. destruct (enumerate_valid_sound quad_angles_per_frame 0 i Hi) as (j & Hf & Hj).
    fold valid in Hf, Hj. rewrite Hf. cbn [Nat.add]. rewrite Hj. by eexists. }
  split; [apply Hmeasured; lia|]. split; [by apply Hmeasured|].
  split; [apply Hmeasured; lia|].
  intros f a Hf Ha.
  destruct (enumerate_valid_complete quad_angles_per_frame 0 f a Ha) as (j & Hj & Hat).
  fold valid in Hj, Hat. cbn [Nat.add] in Hat.
  assert (Hsj : s <= j).
  { destruct (le_lt_dec s j) as [|Hlt]; [done|].
    pose proof (Hinc j s Hlt ltac:(lia)) as Hfr. fold valid in Hfr.
    rewrite Hat in Hfr. cbn in Hfr. lia. }
  assert (Hje : j <= e).
  { destruct (le_lt_dec j e) as [|Hlt]; [done|].
    pose proof (Hinc e j Hlt Hj) as Hfr. fold valid in Hfr.
    rewrite Hat in Hfr. cbn in Hfr. lia. }
  assert (Hnbj : ~ below valid t j).
  { destruct (Nat.lt_trichotomy j pk.1) as [Hlt|[->|Hgt]]; [|done|].
    - apply Hs_clear. lia.
    - apply He_clear. lia. }
  unfold below in Hnbj. rewrite Hat in Hnbj. cbn [snd] in Hnbj.
  apply Qltb_ge. by apply not_true_is_false.
Qed.

Lemma reps_hold_measured_frames_above_threshold_witness :
  exists baseline : Q,
    _calculate_baseline (enumerate_valid 0 paused_squat) = Some baseline
    /\ is_Some (paused_squat !! 10 ≫= (fun a => a))
    /\ is_Some (paused_squat !! 20 ≫= (fun a => a))
    /\ is_Some (paused_squat !! 69 ≫= (fun a => a))
    /\ forall (f : nat) (a : Q),
         10 <= f <= 69 -> paused_squat !! f = Some (Some a) -> (baseline + 20 <= a)%Q.
Proof.
  apply (reps_hold_measured_frames_above_threshold paused_squat 30
           [mkRep 10 20 69; mkRep 10 60 69] (mkRep 10 20 69)).
  - vm_compute. reflexivity.
  - apply elem_of_cons. by left.
Defined.

End SegmenterFurther.

(** ** Active-phase filtering: the two filters side by side *)

Section ActivePhaseFurther.
Import PyNum Segmenter ActivePhase.
Local Open Scope nat_scope.

Lemma map_flat_map {A B C} (f : B -> C) (g : A -> list B) (l : list A) :
  map f (flat_map g l) = flat_map (fun x => map f (g x)) l.
Proof.
  induction l as [|x l IH]; [done|]. cbn [flat_map]. by rewrite map_app, IH.
Qed.

Lemma length_flat_map {A B} (g : A -> list B) (l : list A) :
  length (flat_map g l) = list_sum (map (fun x => length (g x)) l).
Proof.
  induction l as [|x l IH]; [done|]. cbn [flat_map map list_sum].
  by rewrite length_app, IH.
Qed.

(** X8.  The filter inside the torso analyzer and the filter of the
    exercise adapter agree: on the phases detected from the quad
    series at 30 fps, [_filter_to_active_phases] returns what
    [_extract_active_angles] returns. *)
Theorem filter_is_extract_of_detected_phases
    (torso_angles_per_frame quad_angles_per_frame : list (option Q)) (phases : Phases) :
  detect_squat_phases quad_angles_per_frame 30.0 = Some phases ->
  _filter_to_active_phases torso_angles_per_frame quad_angles_per_frame
  = Some (_extract_active_angles torso_angles_per_frame phases).
Proof.
  intros Hdetect. unfold _filter_to_active_phases, _extract_active_angles.
  rewrite Hdetect. cbn [mbind option_bind].
  destruct (no_reps phases) eqn:Hno; [done|].
  unfold detect_squat_phases in Hdetect.
  destruct (detect_reps_shape quad_angles_per_frame 30.0) as (reps & Hreps & Hwf & _).
  rewrite Hreps in Hdetect. cbn in Hdetect. inversion Hdetect; subst phases.
  unfold no_reps, reps_of in *. rewrite lookup_singleton_eq in Hno |- *. cbn [default from_option]. unfold Datatypes.id.
  destruct reps as [|r reps]; [done|].
  apply Forall_cons in Hwf as [(Hlt & _) _].
  destruct (flat_map rep_frames (r :: reps)) as [|f fs] eqn:Hframes.
  - exfalso. cbn [flat_map] in Hframes. apply app_eq_nil in Hframes as [Hr _].
    unfold rep_frames in Hr. apply (f_equal length) in Hr.
    rewrite length_seq in Hr. cbn in Hr. lia.
  - rewrite <- Hframes. by rewrite map_flat_map.
Qed.

Lemma filter_is_extract_of_detected_phases_witness :
  _filter_to_active_phases (twin_peaks 125) (twin_peaks 130)
  = Some (_extract_active_angles (twin_peaks 125) {[ "reps" := [mkRep 48 50 62] ]}).
Proof.
  apply (filter_is_extract_of_detected_phases (twin_peaks 125) (twin_peaks 130)).
  vm_compute. reflexivity.
Defined.

(** X9.  With at least one rep the extracted series has one entry per
    frame of every rep, however long the input series is: frames past
    its end come out as missing, and a frame that lies in two reps
    comes out twice. *)
Theorem extract_active_angles_length (angles : list (option Q)) (phases : Phases) :
  reps_of phases <> [] ->
  length (_extract_active_angles angles phases)
  = list_sum (map (fun rep => end_frame rep + 1 - start_frame rep) (reps_of phases))
  /\ forall (rep : Rep) (i : nat),
       rep ∈ reps_of phases -> start_frame rep <= i <= end_frame rep ->
       frame_or_none angles i ∈ _extract_active_angles angles phases.
Proof.
  intros Hne. unfold _extract_active_angles.
  assert (Hno : no_reps phases = false).
  { unfold no_reps, reps_of in *. destruct (phases !! "reps") as [[|r l]|]; done. }
  rewrite Hno. split.
  - rewrite length_flat_map. f_equal. apply map_ext. intros rep.
    unfold rep_frames. by rewrite length_map, length_seq.
  - intros rep i Hrep Hi. apply list_elem_of_In, in_flat_map.
    exists rep. split; [by apply list_elem_of_In|].
    apply in_map. unfold rep_frames. apply in_seq. lia.
Qed.

Lemma extract_active_angles_length_witness :
  length (_extract_active_angles paused_squat
            {[ "reps" := [mkRep 10 20 69; mkRep 10 60 69] ]}) = 120
  /\ length paused_squat = 80
  /\ length (_extract_active_angles [Some 1%Q] {[ "reps" := [mkRep 0 1 4] ]}) = 5.
Proof.
  split; [|split; [reflexivity|]].
  - destruct (extract_active_angles_length paused_squat
                {[ "reps" := [mkRep 10 20 69; mkRep 10 60 69] ]}) as [Hlen _].
    + unfold reps_of. rewrite lookup_singleton_eq. discriminate.
    + rewrite Hlen. reflexivity.
  - reflexivity.
Defined.

End ActivePhaseFurther.

(** ** Depth, ankle and asymmetry analyzers *)

Section AnalyzerProperties.
Import PyNum Aggregator Segmenter TorsoAnalyzer Analyzers.

Lemma py_max_spec (l : list Q) (m : Q) :
  py_max l = Some m -> m ∈ l /\ Forall (fun x => (x <= m)%Q) l.
Proof.
  destruct l as [|x t]; [done|]. cbn [py_max]. intros Hm. inversion Hm as [Hfold].
  clear Hm Hfold.
  assert (Hgen : forall t acc,
            let r := fold_left (fun m y => if Qltb m y then y else m) t acc in
            r ∈ acc :: t /\ (acc <= r)%Q /\ Forall (fun x => (x <= r)%Q) t).
  { clear. induction t as [|y t IH]; intros acc r.
    - subst r. cbn. split; [apply elem_of_cons; by left|]. split; [apply Qle_refl|constructor].
    - subst r. cbn [fold_left].
      destruct (IH (if Qltb acc y then y else acc)) as (Hin & Hle & Hall).
      set (r := fold_left _ t _) in *.
      destruct (Qltb acc y) eqn:Hay.
      + apply Qltb_lt in Hay. split; [apply elem_of_cons; by right|].
        split; [apply Qle_trans with y; [by apply Qlt_le_weak|done]|].
        by constructor.
      + apply Qltb_ge in Hay. split.
        * apply elem_of_cons in Hin as [Heq|Hin]; [apply elem_of_cons; by left|].
          apply elem_of_cons. right. apply elem_of_cons. by right.
        * split; [done|]. constructor; [by apply Qle_trans with acc|done]. }
  destruct (Hgen t x) as (Hin & Hle & Hall). split; [done|]. by constructor.
Qed.

Lemma py_max_some (l : list Q) : l <> [] -> is_Some (py_max l).
Proof. destruct l; [done|]. intros _. by eexists. Qed.

Lemma py_min_some (l : list Q) : l <> [] -> is_Some (py_min l).
Proof. destruct l; [done|]. intros _. by eexists. Qed.

Lemma all_missing_no_values (l : list (option Q)) :
  all_missing l = true -> valid_values l = [].
Proof.
  induction l as [|[a|] l IH]; intros Hall; [done| |].
  - by cbn in Hall.
  - cbn in Hall |- *. by apply IH.
Qed.

Lemma valid_values_elem (l : list (option Q)) (a : Q) :
  a ∈ valid_values l <-> Some a ∈ l.
Proof.
  unfold valid_values. rewrite list_elem_of_omap. split.
  - intros (x & Hx & ->). done.
  - intros Hin. by exists (Some a).
Qed.

(** The three analyzers share one shape. *)
Lemma quad_scored (l : list (option Q)) :
  valid_values l <> [] ->
  exists m, py_max (valid_values l) = Some m
    /\ analyze_quad_angle l
       = Some (mkResult (_determine_quad_status m 0).1
                        (Some (_determine_quad_status m 0).2)).
Proof.
  intros Hne. unfold analyze_quad_angle.
  destruct (all_missing l) eqn:Hall; [by apply all_missing_no_values in Hall|].
  destruct (py_max_some _ Hne) as [m Hm], (py_min_some _ Hne) as [n Hn].
  exists m. split; [done|].
  destruct (valid_values l) as [|v vs] eqn:Hv; [done|].
  unfold _calculate_quad_metrics. rewrite Hm, Hn. cbn [mbind option_bind].
  unfold _determine_quad_status. by repeat case_match.
Qed.

Lemma ankle_scored (l : list (option Q)) :
  valid_values l <> [] ->
  exists m, py_min (valid_values l) = Some m
    /\ analyze_ankle_angle l
       = Some (mkResult (_determine_ankle_status m 0).1
                        (Some (_determine_ankle_status m 0).2)).
Proof.
  intros Hne. unfold analyze_ankle_angle.
  destruct (all_missing l) eqn:Hall; [by apply all_missing_no_values in Hall|].
  destruct (py_max_some _ Hne) as [m Hm], (py_min_some _ Hne) as [n Hn].
  exists n. split; [done|].
  destruct (valid_values l) as [|v vs] eqn:Hv; [done|].
  unfold _calculate_ankle_metrics. rewrite Hm, Hn. cbn [mbind option_bind].
  unfold _determine_ankle_status. by repeat case_match.
Qed.

Lemma asymmetry_scored (l : list (option Q)) (side : string) :
  valid_values l <> [] ->
  exists m, py_max (map Qabs (valid_values l)) = Some m
    /\ analyze_asymmetry l side
       = Some (mkResult (_determine_asymmetry_status m 0 side).1
                        (Some (_determine_asymmetry_status m 0 side).2)).
Proof.
  intros Hne. unfold analyze_asymmetry.
  destruct (all_missing l) eqn:Hall; [by apply all_missing_no_values in Hall|].
  destruct (py_max_some (map Qabs (valid_values l))) as [m Hm].
  { intros Hnil. by apply map_eq_nil in Hnil. }
  exists m. split; [done|].
  destruct (valid_values l) as [|v vs] eqn:Hv; [done|].
  unfold _calculate_asymmetry_metrics. rewrite Hm. cbn [mbind option_bind].
  unfold _determine_asymmetry_status. by repeat case_match.
Qed.

Lemma no_values_error (l : list (option Q)) (side : string) :
  valid_values l = [] ->
  analyze_quad_angle l = Some error_result
  /\ analyze_ankle_angle l = Some error_result
  /\ analyze_asymmetry l side = Some error_result.
Proof.
  intros Hnil. unfold analyze_quad_angle, analyze_ankle_angle, analyze_asymmetry.
  rewrite Hnil. by destruct (all_missing l).
Qed.

(** X10.  The depth, ankle and asymmetry analyzers return the error
    result, without score, exactly when the series holds no measured
    value; on any other series each returns a status other than error
    with a score of 50, 75 or 100. *)
Theorem analyzers_fail_only_without_data (l : list (option Q)) (side : string) :
  let results := [analyze_quad_angle l; analyze_ankle_angle l; analyze_asymmetry l side] in
  ((forall a : Q, Some a ∉ l) ->
     Forall (fun r => r = Some error_result) results)
  /\ (forall a : Q, Some a ∈ l ->
     Forall (fun r => exists st sc, r = Some (mkResult st (Some sc))
                        /\ st <> error /\ (sc = 50 \/ sc = 75 \/ sc = 100)) results).
Proof.
  intros results. subst results. split.
  - intros Hnone.
    assert (Hnil : valid_values l = []).
    { destruct (valid_values l) as [|v vs] eqn:Hv; [done|]. exfalso.
      apply (Hnone v), valid_values_elem. rewrite Hv. apply elem_of_cons. by left. }
    destruct (no_values_error l side Hnil) as (Hq & Ha & Hs).
    by repeat constructor.
  - intros a Ha.
    assert (Hne : valid_values l <> []).
    { apply valid_values_elem in Ha. intros Hnil. rewrite Hnil in Ha.
      by apply elem_of_nil in Ha. }
    destruct (quad_scored l Hne) as (mq & _ & ->).
    destruct (ankle_scored l Hne) as (ma & _ & ->).
    destruct (asymmetry_scored l side Hne) as (ms & _ & ->).
    repeat constructor; eexists _, _; (split; [reflexivity|]).
    + unfold _determine_quad_status. repeat case_match; cbn; split; (done || auto).
    + unfold _determine_ankle_status. repeat case_match; cbn; split; (done || auto).
    + unfold _determine_asymmetry_status. repeat case_match; cbn; split; (done || auto).
Qed.

Lemma Qabs_opp_eq (q : Q) : Qabs (- q) = Qabs q.
Proof. destruct q as [n d]. cbn. by rewrite Z.abs_opp. Qed.

Lemma valid_values_fmap (f : Q -> Q) (l : list (option Q)) :
  valid_values (map (fmap f) l) = map f (valid_values l).
Proof.
  unfold valid_values. induction l as [|[a|] l IH]; [done| |]; cbn in *; congruence.
Qed.

Lemma all_missing_fmap (f : Q -> Q) (l : list (option Q)) :
  all_missing (map (fmap f) l) = all_missing l.
Proof.
  unfold all_missing. induction l as [|[a|] l IH]; [done| |]; cbn in *; congruence.
Qed.

(** X11.  The asymmetry analyzer does not care which side is ahead:
    changing the sign of every frame's right-minus-left difference
    leaves status and score unchanged. *)
Theorem asymmetry_side_swap (asymmetry_per_frame : list (option Q)) (side : string) :
  analyze_asymmetry (map (fmap Qopp) asymmetry_per_frame) side
  = analyze_asymmetry asymmetry_per_frame side.
Proof.
  unfold analyze_asymmetry. rewrite all_missing_fmap, valid_values_fmap.
  destruct (all_missing asymmetry_per_frame); [done|].
  destruct (valid_values asymmetry_per_frame) as [|v vs]; [done|].
  unfold _calculate_asymmetry_metrics.
  assert (Habs : map Qabs (map Qopp (v :: vs)) = map Qabs (v :: vs)).
  { rewrite map_map. apply map_ext. intros q. apply Qabs_opp_eq. }
  change (Qopp v :: map Qopp vs) with (map Qopp (v :: vs)).
  rewrite Habs. destruct (py_max (map Qabs (v :: vs))); [|done].
  cbn [mbind option_bind]. reflexivity.
Qed.

(** X12.  More frames can only help the depth score and only hurt an
    asymmetry score: extending a series never lowers the score of
    [analyze_quad_angle] and never raises that of
    [analyze_asymmetry]. *)
Theorem scores_monotone_in_frames (l l' : list (option Q)) (side : string)
    (st st' : Status) (sc sc' : Z) :
  (analyze_quad_angle l = Some (mkResult st (Some sc)) ->
   analyze_quad_angle (l ++ l') = Some (mkResult st' (Some sc')) -> sc <= sc')
  /\ (analyze_asymmetry l side = Some (mkResult st (Some sc)) ->
      analyze_asymmetry (l ++ l') side = Some (mkResult st' (Some sc')) -> sc' <= sc).
Proof.
  assert (Happ : valid_values (l ++ l') = valid_values l ++ valid_values l')
    by apply omap_app.
  split; intros H1 H2.
  - destruct (valid_values l) as [|v vs] eqn:Hv.
    { destruct (no_values_error l side Hv) as (Hq & _). rewrite Hq in H1. done. }
    assert (Hne : valid_values l <> []) by (by rewrite Hv).
    assert (Hne' : valid_values (l ++ l') <> []) by (by rewrite Happ).
    destruct (quad_scored l Hne) as (m & Hm & Hr).
    destruct (quad_scored (l ++ l') Hne') as (m' & Hm' & Hr').
    rewrite Hr in H1. rewrite Hr' in H2. inversion H1. inversion H2. subst.
    apply py_max_spec in Hm as [Hin _]. apply py_max_spec in Hm' as [_ Hall'].
    rewrite Happ in Hall'. rewrite Hv in Hin.
    rewrite Forall_forall in Hall'.
    assert (Hle : (m <= m')%Q) by (apply Hall', elem_of_app; by left).
    unfold _determine_quad_status.
    destruct (Qle_bool 70 m) eqn:H70.
    + apply Qle_bool_iff in H70.
      assert (H70' : Qle_bool 70 m' = true)
        by (apply Qle_bool_iff; by apply Qle_trans with m).
      by rewrite H70'.
    + destruct (Qle_bool 60 m) eqn:H60.
      * apply Qle_bool_iff in H60.
        assert (H60' : Qle_bool 60 m' = true)
          by (apply Qle_bool_iff; by apply Qle_trans with m).
        rewrite H60'. by destruct (Qle_bool 70 m').
      * by repeat case_match.
  - destruct (valid_values l) as [|v vs] eqn:Hv.
    { destruct (no_values_error l side Hv) as (_ & _ & Hs). rewrite Hs in H1. done. }
    assert (Hne : valid_values l <> []) by (by rewrite Hv).
    assert (Hne' : valid_values (l ++ l') <> []) by (by rewrite Happ).
    destruct (asymmetry_scored l side Hne) as (m & Hm & Hr).
    destruct (asymmetry_scored (l ++ l') side Hne') as (m' & Hm' & Hr').
    rewrite Hr in H1. rewrite Hr' in H2. inversion H1. inversion H2. subst.
    apply py_max_spec in Hm as [Hin _]. apply py_max_spec in Hm' as [_ Hall'].
    rewrite Happ, map_app in Hall'. rewrite Hv in Hin.
    rewrite Forall_forall in Hall'.
    assert (Hle : (m <= m')%Q) by (apply Hall', elem_of_app; by left).
    unfold _determine_asymmetry_status.
    destruct (Qltb m' 5) eqn:H5.
    + apply Qltb_lt in H5.
      assert (H5' : Qltb m 5 = true)
        by (apply Qltb_lt; by apply Qle_lt_trans with m').
      by rewrite H5'.
    + destruct (Qltb m' 10) eqn:H10.
      * apply Qltb_lt in H10.
        assert (H10' : Qltb m 10 = true)
          by (apply Qltb_lt; by apply Qle_lt_trans with m').
        rewrite H10'. by destruct (Qltb m 5).
      * by repeat case_match.
Qed.

Lemma scores_monotone_in_frames_witness :
  analyze_quad_angle [Some 65%Q] = Some (mkResult warning (Some 75))
  /\ analyze_quad_angle ([Some 65%Q] ++ [Some 80%Q]) = Some (mkResult good (Some 100))
  /\ analyze_asymmetry [Some 3%Q] "quad" = Some (mkResult good (Some 100))
  /\ analyze_asymmetry ([Some 3%Q] ++ [Some (-11)%Q]) "quad" = Some (mkResult poor (Some 50))
  /\ (75 <= 100)%Z /\ (50 <= 100)%Z.
Proof.
  assert (H1 : analyze_quad_angle [Some 65%Q] = Some (mkResult warning (Some 75)))
    by (vm_compute; reflexivity).
  assert (H2 : analyze_quad_angle ([Some 65%Q] ++ [Some 80%Q])
               = Some (mkResult good (Some 100))) by (vm_compute; reflexivity).
  assert (H3 : analyze_asymmetry [Some 3%Q] "quad" = Some (mkResult good (Some 100)))
    by (vm_compute; reflexivity).
  assert (H4 : analyze_asymmetry ([Some 3%Q] ++ [Some (-11)%Q]) "quad"
               = Some (mkResult poor (Some 50))) by (vm_compute; reflexivity).
  destruct (scores_monotone_in_frames [Some 65%Q] [Some 80%Q] "quad"
              warning good 75 100) as [Hquad _].
  destruct (scores_monotone_in_frames [Some 3%Q] [Some (-11)%Q] "quad"
              good poor 100 50) as [_ Hasym].
  exact (conj H1 (conj H2 (conj H3 (conj H4 (conj (Hquad H1 H2) (Hasym H3 H4)))))).
Defined.

End AnalyzerProperties.

(** ** Movement onset and hip-knee timing *)

Section OnsetFurther.
Import PyNum Aggregator Segmenter ActivePhase Onset GluteDominance.

Lemma onset_total (angles : list (option Q)) (start_frame end_frame : nat) (fps : Q) :
  ~ (fps == 0)%Q -> is_Some (_detect_movement_start_velocity angles start_frame end_frame fps).
Proof.
  intros Hfps. unfold _detect_movement_start_velocity.
  destruct (_ || _ || _); [done|].
  destruct (Qeq_bool fps 0) eqn:Hz; [by apply Qeq_bool_iff in Hz|].
  by destruct (List.find _ _).
Qed.

(** X13.  The onset frame stays in the descent window.  The call
    fails (division by zero) exactly when [fps] is 0 and the window
    is a proper one inside the series.  Whenever it returns a frame,
    that is the start frame itself or a later frame up to the end
    frame at which the angle and the angle before it are both
    measured, the angle is at least 3 degrees off the smoothed
    baseline, and no earlier frame of the window passed the test. *)
Lemma onset_frame_in_descent_window
    (angles : list (option Q)) (start_frame end_frame : nat) (fps : Q) :
  let baseline := _calculate_smoothed_baseline angles start_frame 3 in
  (_detect_movement_start_velocity angles start_frame end_frame fps = None
   <-> (fps == 0)%Q /\ (start_frame < end_frame < length angles)%nat)
  /\ forall i,
      _detect_movement_start_velocity angles start_frame end_frame fps = Some i ->
      i = start_frame
      \/ ((start_frame < i <= end_frame)%nat
          /\ (exists a b, angles !! i = Some (Some a)
                          /\ angles !! (i - 1)%nat = Some (Some b)
                          /\ (3.0 <= Qabs (a - baseline))%Q
                          /\ (2.0 / fps <= Qabs (a - b) * fps)%Q)
          /\ forall j, (start_frame < j < i)%nat ->
               onset_test angles fps baseline (2.0 / fps) j = false).
Proof.
  intros baseline. unfold _detect_movement_start_velocity. fold baseline.
  destruct (_ || _ || _) eqn:Hguard.
  { split.
    - split; [done|]. intros [_ Hw].
      apply orb_true_iff in Hguard as [Hguard|H3].
      + apply orb_true_iff in Hguard as [H1|H2]; apply Nat.leb_le in H1 || apply Nat.leb_le in H2; lia.
      + apply Nat.leb_le in H3. lia.
    - intros i Hi. left. congruence. }
  apply orb_false_iff in Hguard as [Hguard H3].
  apply orb_false_iff in Hguard as [H1 H2].
  apply Nat.leb_gt in H1, H2, H3.
  destruct (Qeq_bool fps 0) eqn:Hz.
  { apply Qeq_bool_iff in Hz. split; [|done]. split; [|done]. intros _. split; [done|lia]. }
  assert (Hnz : ~ (fps == 0)%Q).
  { intros H. apply Qeq_bool_iff in H. congruence. }
  destruct (List.find _ _) as [k|] eqn:Hfind.
  2:{ split; [|intros i Hi; left; congruence].
      split; [done|]. by intros [Hf _]. }
  split; [split; [done|]; by intros [Hf _]|].
  intros i Hres. inversion Hres; subst k. right.
  destruct (find_seq_first _ _ _ _ Hfind) as (Hi & Hti & Hbefore).
  split; [lia|]. split.
  - unfold onset_test, frame_or_none in Hti.
    destruct (angles !! i) as [[a|]|] eqn:Ha; cbv beta iota in Hti; try done.
    destruct (angles !! (i - 1)%nat) as [[b|]|] eqn:Hb; cbv beta iota in Hti; try done.
    apply andb_true_iff in Hti as [Hv Hd].
    apply Qle_bool_iff in Hv, Hd.
    exists a, b. split; [done|]. split; [done|]. split; [exact Hd|exact Hv].
  - intros j Hj. apply Hbefore. lia.
Qed.

Lemma Qmult_nonpos_nonneg (a b : Q) : (a <= 0)%Q -> (0 <= b)%Q -> (a * b <= 0)%Q.
Proof.
  intros Ha Hb. apply Qle_trans with (0 * b)%Q.
  - by apply Qmult_le_compat_r.
  - rewrite Qmult_0_l. apply Qle_refl.
Qed.

Lemma py_round_sign (q : Q) :
  ((q <= 0)%Q -> py_round q <= 0) /\ ((0 <= q)%Q -> 0 <= py_round q).
Proof.
  unfold py_round.
  pose proof (Qfloor_le q) as Hlo.
  set (f := Qfloor q) in *.
  split; intros Hq.
  - assert (Hf : f <= 0).
    { apply Qle_trans with (z := 0%Q) in Hlo; [|done].
      change 0%Q with (inject_Z 0) in Hlo. by rewrite <- Zle_Qle in Hlo. }
    destruct (Qltb (q - inject_Z f) (1 # 2)) eqn:Hr; [done|].
    apply Qltb_ge in Hr.
    assert (Hlt : (inject_Z f < inject_Z 0)%Q).
    { apply Qlt_le_trans with (inject_Z f + (1 # 2))%Q.
      - rewrite <- (Qplus_0_r (inject_Z f)) at 1. by apply Qplus_lt_r.
      - apply Qle_trans with q; [|done].
        apply Qle_trans with ((q - inject_Z f) + inject_Z f)%Q.
        + rewrite (Qplus_comm (inject_Z f)). by apply Qplus_le_l.
        + apply Qle_lteq. right. ring. }
    rewrite <- Zlt_Qlt in Hlt.
    destruct (Qltb (1 # 2) _); [lia|]. destruct (Z.even f); lia.
  - assert (Hf : 0 <= f).
    { change 0 with (Qfloor (inject_Z 0)). apply Qfloor_resp_le. exact Hq. }
    destruct (Qltb _ _); [done|]. destruct (Qltb _ _); [lia|].
    destruct (Z.even f); lia.
Qed.

Lemma py_round1_sign (q : Q) :
  ((q <= 0)%Q -> (py_round1 q <= 0)%Q) /\ ((0 <= q)%Q -> (0 <= py_round1 q)%Q).
Proof.
  unfold py_round1. destruct (py_round_sign (q * 10)) as [Hneg Hpos].
  split; intros Hq.
  - assert (H : py_round (q * 10) <= 0).
    { apply Hneg. by apply Qmult_nonpos_nonneg. }
    rewrite Zle_Qle in H. unfold Qdiv. by apply Qmult_nonpos_nonneg.
  - assert (H : 0 <= py_round (q * 10)).
    { apply Hpos. by apply Qmult_le_0_compat. }
    rewrite Zle_Qle in H. unfold Qdiv. by apply Qmult_le_0_compat.
Qed.

Lemma fold_Qplus_sign (l : list Q) (a : Q) :
  ((a <= 0)%Q -> Forall (fun q => (q <= 0)%Q) l -> (fold_left Qplus l a <= 0)%Q)
  /\ ((0 <= a)%Q -> Forall (fun q => (0 <= q)%Q) l -> (0 <= fold_left Qplus l a)%Q).
Proof.
  split; intros Ha Hl; revert a Ha; induction Hl as [|q l Hq Hl IH]; intros a Ha;
    cbn [fold_left]; try done; apply IH.
  - rewrite <- (Qplus_0_r 0). by apply Qplus_le_compat.
  - rewrite <- (Qplus_0_r 0). by apply Qplus_le_compat.
Qed.

(** The mean of the loop's list has the sign its entries share. *)
Lemma timing_mean_sign (l : list Q) :
  let avg := match l with
             | [] => 0%Q
             | _ => (Qsum l / inject_Z (Z.of_nat (length l)))%Q
             end in
  (Forall (fun q => (q <= 0)%Q) l -> (avg <= 0)%Q)
  /\ (Forall (fun q => (0 <= q)%Q) l -> (0 <= avg)%Q).
Proof.
  destruct l as [|q l]; [done|]. cbv zeta.
  set (n := inject_Z (Z.of_nat (length (q :: l)))).
  assert (Hn : (0 <= / n)%Q).
  { apply Qinv_le_0_compat. unfold n. change 0%Q with (inject_Z 0).
    rewrite <- Zle_Qle. lia. }
  destruct (fold_Qplus_sign (q :: l) 0) as [Hneg Hpos].
  split; intros Hl; unfold Qdiv, Qsum.
  - apply Qmult_nonpos_nonneg; [|done]. by apply Hneg.
  - apply Qmult_le_0_compat; [|done]. by apply Hpos.
Qed.

(** The timing difference of one rep at a positive frame rate. *)
Lemma timing_diff_ms_spec (quad torso : list (option Q)) (fps : Q) (rep : Rep) :
  (0 < fps)%Q ->
  exists h k,
    _detect_movement_start_velocity torso (start_frame rep) (bottom_frame rep) fps = Some h
    /\ _detect_movement_start_velocity quad (start_frame rep) (bottom_frame rep) fps = Some k
    /\ timing_diff_ms quad torso fps rep
       = Some (inject_Z (Z.of_nat h - Z.of_nat k) / fps * 1000)%Q.
Proof.
  intros Hfps.
  assert (Hnz : ~ (fps == 0)%Q) by (intros H; rewrite H in Hfps; by apply Qlt_irrefl in Hfps).
  destruct (onset_total torso (start_frame rep) (bottom_frame rep) fps Hnz) as [h Hh].
  destruct (onset_total quad (start_frame rep) (bottom_frame rep) fps Hnz) as [k Hk].
  exists h, k. split; [done|]. split; [done|].
  unfold timing_diff_ms. rewrite Hh, Hk. cbn [mbind option_bind].
  destruct (Qeq_bool fps 0) eqn:Hz; [by apply Qeq_bool_iff in Hz|done].
Qed.

Lemma scaled_diff_sign (z : Z) (fps : Q) :
  (0 < fps)%Q ->
  (z <= 0 -> (inject_Z z / fps * 1000 <= 0)%Q)
  /\ (0 <= z -> (0 <= inject_Z z / fps * 1000)%Q).
Proof.
  intros Hfps.
  assert (Hinv : (0 <= / fps)%Q) by (apply Qinv_le_0_compat; by apply Qlt_le_weak).
  split; intros Hz; rewrite Zle_Qle in Hz; unfold Qdiv.
  - apply Qmult_nonpos_nonneg; [|done]. by apply Qmult_nonpos_nonneg.
  - apply Qmult_le_0_compat; [|done]. by apply Qmult_le_0_compat.
Qed.

(** X14.  Which way the hip-knee timing counts.  At a positive frame
    rate, with angle series and reps at hand, the analysis always
    returns a result.  If in every rep the onset found in the torso
    series is not later than the onset found in the quad series (the
    hips move first or together with the knees), the average timing
    difference is at most 0 and the status is never good; if in every
    rep the torso onset is not earlier than the quad onset, the
    average is at least 0 and the status is never poor. *)
Lemma hip_first_is_never_rated_good
    (quad torso : list (option Q)) (reps : list Rep) (fps : Q) :
  (0 < fps)%Q -> quad <> [] -> torso <> [] -> reps <> [] ->
  exists st sc m,
    analyze_glute_dominance quad torso reps fps = Some (glute_result st sc m)
    /\ ((forall rep h k, rep ∈ reps ->
           _detect_movement_start_velocity torso (start_frame rep) (bottom_frame rep) fps
             = Some h ->
           _detect_movement_start_velocity quad (start_frame rep) (bottom_frame rep) fps
             = Some k ->
           (h <= k)%nat) ->
        (avg_timing_diff_ms m <= 0)%Q /\ st <> good)
    /\ ((forall rep h k, rep ∈ reps ->
           _detect_movement_start_velocity torso (start_frame rep) (bottom_frame rep) fps
             = Some h ->
           _detect_movement_start_velocity quad (start_frame rep) (bottom_frame rep) fps
             = Some k ->
           (k <= h)%nat) ->
        (0 <= avg_timing_diff_ms m)%Q /\ st <> poor).
Proof.
  intros Hfps Hq Ht Hr.
  assert (Hsome : is_Some (mapM (timing_diff_ms quad torso fps) reps)).
  { apply mapM_is_Some, Forall_forall. intros rep _. unfold compose.
    destruct (timing_diff_ms_spec quad torso fps rep Hfps) as (h & k & _ & _ & ->). done. }
  destruct Hsome as [diffs Hdiffs].
  set (avg := match diffs with
              | [] => 0%Q
              | _ => (Qsum diffs / inject_Z (Z.of_nat (length diffs)))%Q
              end).
  assert (Hres : analyze_glute_dominance quad torso reps fps
                 = Some (glute_result (_determine_glute_dominance_status (py_round1 avg)).1
                                      (_determine_glute_dominance_status (py_round1 avg)).2
                                      (mkGluteMetrics (py_round1 avg) (map py_round1 diffs)))).
  { unfold analyze_glute_dominance, _calculate_glute_dominance_metrics.
    destruct quad as [|q0 quad]; [done|]. destruct torso as [|t0 torso]; [done|].
    destruct reps as [|r0 reps]; [done|].
    rewrite Hdiffs. cbn [mbind option_bind]. fold avg.
    cbn [avg_timing_diff_ms]. by destruct (_determine_glute_dominance_status _). }
  eexists _, _, _. split; [exact Hres|]. cbn [avg_timing_diff_ms].
  apply mapM_Some in Hdiffs.
  destruct (timing_mean_sign diffs) as [Hneg Hpos]. fold avg in Hneg, Hpos.
  destruct (py_round1_sign avg) as [Hrneg Hrpos].
  assert (Hdiff : forall d, d ∈ diffs ->
            exists rep h k, rep ∈ reps
              /\ _detect_movement_start_velocity torso (start_frame rep) (bottom_frame rep) fps
                 = Some h
              /\ _detect_movement_start_velocity quad (start_frame rep) (bottom_frame rep) fps
                 = Some k
              /\ d = (inject_Z (Z.of_nat h - Z.of_nat k) / fps * 1000)%Q).
  { intros d Hd. apply list_elem_of_lookup_1 in Hd as [i Hi].
    destruct (Forall2_lookup_r _ _ _ _ _ Hdiffs Hi) as (rep & Hrep & Hrd).
    destruct (timing_diff_ms_spec quad torso fps rep Hfps) as (h & k & Hh & Hk & Hd).
    exists rep, h, k. split; [by eapply list_elem_of_lookup_2|].
    split; [done|]. split; [done|]. congruence. }
  unfold _determine_glute_dominance_status.
  split; intros Horder.
  - assert (Havg : (py_round1 avg <= 0)%Q).
    { apply Hrneg, Hneg, Forall_forall. intros d Hd.
      destruct (Hdiff d Hd) as (rep & h & k & Hrep & Hh & Hk & ->).
      apply scaled_diff_sign; [done|]. specialize (Horder rep h k Hrep Hh Hk). lia. }
    split; [done|].
    destruct (Qle_bool 50 (py_round1 avg)) eqn:H50.
    + apply Qle_bool_iff in H50.
      assert (Habs : (50 <= 0)%Q) by (by apply Qle_trans with (py_round1 avg)).
      by vm_compute in Habs.
    + by destruct (Qle_bool (-50) (py_round1 avg)).
  - assert (Havg : (0 <= py_round1 avg)%Q).
    { apply Hrpos, Hpos, Forall_forall. intros d Hd.
      destruct (Hdiff d Hd) as (rep & h & k & Hrep & Hh & Hk & ->).
      apply scaled_diff_sign; [done|]. specialize (Horder rep h k Hrep Hh Hk). lia. }
    split; [done|].
    destruct (Qle_bool 50 (py_round1 avg)); [done|].
    destruct (Qle_bool (-50) (py_round1 avg)) eqn:H50; [done|].
    exfalso. apply not_true_iff_false in H50. apply H50, Qle_bool_iff.
    by apply Qle_trans with 0%Q.
Qed.

Lemma hip_first_is_never_rated_good_witness :
  exists st sc m,
    analyze_glute_dominance hips_lead_quad hips_lead_torso [mkRep 0 11 11] 30
      = Some (glute_result st sc m)
    /\ (avg_timing_diff_ms m <= 0)%Q /\ st <> good.
Proof.
  assert (Hfps : (0 < 30)%Q) by reflexivity.
  assert (Hq : hips_lead_quad <> []) by discriminate.
  assert (Ht : hips_lead_torso <> []) by discriminate.
  assert (Hr : [mkRep 0 11 11] <> []) by discriminate.
  destruct (hip_first_is_never_rated_good hips_lead_quad hips_lead_torso
              [mkRep 0 11 11] 30 Hfps Hq Ht Hr) as (st & sc & m & Hres & Hhip & _).
  exists st, sc, m. split; [exact Hres|]. apply Hhip.
  intros rep h k Hrep Hh Hk. apply list_elem_of_singleton in Hrep. subst rep.
  assert (H3 : _detect_movement_start_velocity hips_lead_torso 0 11 30 = Some 3%nat)
    by (vm_compute; reflexivity).
  assert (H6 : _detect_movement_start_velocity hips_lead_quad 0 11 30 = Some 6%nat)
    by (vm_compute; reflexivity).
  cbn [start_frame bottom_frame] in Hh, Hk.
  rewrite H3 in Hh. rewrite H6 in Hk. inversion Hh. inversion Hk. lia.
Defined.

End OnsetFurther.

(** ** Angle extractor *)

Section GeometryFurther.
Import Geometry.
Local Open Scope R_scope.










End GeometryFurther.

(** ** Rep-to-rep consistency *)

Section ConsistencyFurther.
Import Aggregator Segmenter Consistency RepConsistency.
Local Open Scope R_scope.

Lemma fold_Rplus_shift (l : list R) (a : R) : fold_left Rplus l a = a + Rsum l.
Proof.
  unfold Rsum. revert a. induction l as [|x l IH]; intros a; cbn [fold_left].
  - lra.
  - rewrite (IH (a + x)), (IH (0 + x)). lra.
Qed.

Lemma Rsum_cons (x : R) (l : list R) : Rsum (x :: l) = x + Rsum l.
Proof. unfold Rsum at 1. cbn [fold_left]. rewrite fold_Rplus_shift. lra. Qed.

Lemma Rsum_nonneg (l : list R) :
  Forall (fun x => 0 <= x) l ->
  0 <= Rsum l /\ ((exists x, x ∈ l /\ 0 < x) -> 0 < Rsum l).
Proof.
  induction 1 as [|x l Hx Hl [IH1 IH2]].
  - split; [unfold Rsum; cbn; lra|]. intros (x & Hin & _). by apply elem_of_nil in Hin.
  - rewrite Rsum_cons. split; [lra|]. intros (z & Hin & Hz).
    apply elem_of_cons in Hin as [->|Hin]; [lra|].
    assert (0 < Rsum l) by (apply IH2; by exists z). lra.
Qed.

(** A sub-analysis returns one of four results. *)
Lemma analyze_single_consistency_results (values : list R) :
  _analyze_single_consistency values ∈
    [(good, 100%Z); (warning, 75%Z); (poor, 50%Z); (error, 0%Z)].
Proof.
  unfold _analyze_single_consistency, _calculate_consistency_metrics.
  destruct (length values <? 2)%nat; [cbn; set_solver|].
  destruct (Req_dec_T _ 0); [cbn; set_solver|].
  destruct (truthy _); [|set_solver].
  unfold _determine_consistency_status.
  destruct (Rlt_dec _ 5); [set_solver|]. destruct (Rlt_dec _ 10); set_solver.
Qed.

(** X17.  How the three sub-analyses combine.  With at least two
    reps the analysis returns a result whose status is never error.
    Its score is 0 exactly when a sub-analysis is in error, and lies
    between 50 and 100 otherwise.  Its status is good exactly when
    every sub-analysis is good or warning, warning exactly when some
    sub-analysis is poor, and poor exactly when some sub-analysis is
    in error and none is poor. *)
Lemma rep_consistency_combination
    (angles_per_frame asymmetry_per_frame : gmap string (list (option R)))
    (reps : list Rep) :
  (2 <= length reps)%nat ->
  exists st sc d t a,
    analyze_rep_consistency angles_per_frame asymmetry_per_frame reps
      = consistency_result st sc (length reps) d t a
    /\ st <> error
    /\ (sc = 0%Z <-> d.1 = error \/ t.1 = error \/ a.1 = error)
    /\ (sc <> 0%Z -> (50 <= sc <= 100)%Z)
    /\ (st = good <-> Forall (fun s => s = good \/ s = warning) [d.1; t.1; a.1])
    /\ (st = warning <-> Exists (fun s => s = poor) [d.1; t.1; a.1])
    /\ (st = poor <-> Exists (fun s => s = error) [d.1; t.1; a.1]
                      /\ Forall (fun s => s <> poor) [d.1; t.1; a.1]).
Proof.
  intros Hlen. unfold analyze_rep_consistency.
  destruct (length reps <? 2)%nat eqn:Hlt; [apply Nat.ltb_lt in Hlt; lia|].
  cbv zeta.
  set (d := _analyze_single_consistency _).
  set (t := _analyze_single_consistency _).
  set (a := _analyze_single_consistency _).
  exists (overall_status d.1 t.1 a.1), (overall_score d.2 t.2 a.2), d, t, a.
  split; [done|].
  pose proof (analyze_single_consistency_results
                (_extract_per_rep_metrics (default [] (angles_per_frame !! "quad_angle"))
                   reps "max")) as Hd.
  pose proof (analyze_single_consistency_results
                (_extract_per_rep_metrics (default [] (angles_per_frame !! "torso_angle"))
                   reps "avg")) as Ht.
  pose proof (analyze_single_consistency_results
                (_extract_per_rep_metrics (default [] (asymmetry_per_frame !! "quad_asymmetry"))
                   reps "avg")) as Ha.
  fold d in Hd. fold t in Ht. fold a in Ha.
  clearbody d t a.
  repeat (apply elem_of_cons in Hd as [->|Hd]); [| | | |by apply elem_of_nil in Hd];
  repeat (apply elem_of_cons in Ht as [->|Ht]); try (by apply elem_of_nil in Ht);
  repeat (apply elem_of_cons in Ha as [->|Ha]); try (by apply elem_of_nil in Ha);
  cbn; rewrite ?Forall_cons, ?Exists_cons, ?Forall_nil, ?Exists_nil;
  (split; [done|]); (split; [intuition (done || lia)|]);
  (split; [intuition (done || lia)|]);
  (split; [intuition done|]); (split; intuition done).
Qed.

Lemma rep_consistency_combination_witness :
  exists st sc d t a,
    analyze_rep_consistency ∅ ∅ [mkRep 0 5 9; mkRep 10 15 19]
      = consistency_result st sc 2 d t a
    /\ st <> error
    /\ (sc = 0%Z <-> d.1 = error \/ t.1 = error \/ a.1 = error).
Proof.
  destruct (rep_consistency_combination ∅ ∅ [mkRep 0 5 9; mkRep 10 15 19])
    as (st & sc & d & t & a & Hres & Hst & Hsc & _).
  - cbn. lia.
  - exists st, sc, d, t, a. split; [exact Hres|]. split; [exact Hst|exact Hsc].
Defined.

(** X19.  Values of negative mean count as consistent.  For at least
    two per-rep values whose sum is negative and which are not all
    equal, the coefficient of variation is negative, hence below 5,
    and the sub-analysis is good with score 100 whatever the spread
    of the values. *)
Lemma negative_mean_is_rated_good (values : list R) :
  (2 <= length values)%nat ->
  Rsum values < 0 ->
  (exists x y, x ∈ values /\ y ∈ values /\ x <> y) ->
  _analyze_single_consistency values = (good, 100%Z).
Proof.
  intros Hlen Hsum (x & y & Hx & Hy & Hxy).
  assert (Hn : 0 < INR (length values)) by (apply lt_0_INR; lia).
  set (n := INR (length values)) in *.
  set (mean := Rsum values / n).
  assert (Hmean : mean < 0).
  { unfold mean, Rdiv. pose proof (Rinv_0_lt_compat n Hn). nra. }
  assert (Hvar : 0 < Rsum (map (fun v => (v - mean) ^ 2) values) / n).
  { apply Rdiv_lt_0_compat; [|done]. apply Rsum_nonneg.
    - apply Forall_map, Forall_forall. intros v _. apply pow2_ge_0.
    - assert (Hz : exists z, z ∈ values /\ z <> mean).
      { destruct (Req_dec x mean) as [Hxm|Hxm]; [|by exists x].
        exists y. split; [done|]. congruence. }
      destruct Hz as (z & Hz & Hzm).
      exists ((z - mean) ^ 2). split.
      + apply (list_elem_of_fmap_2 (fun v => (v - mean) ^ 2) _ _ Hz).
      + assert (Hu : z - mean <> 0) by lra. revert Hu. generalize (z - mean). intros u Hu.
        replace (u ^ 2) with (u * u) by ring. nra. }
  assert (Hcv : spec_cv values < 0).
  { unfold spec_cv. fold n mean.
    pose proof (sqrt_lt_R0 _ Hvar) as Hstd.
    assert (Hq : sqrt (Rsum (map (fun v => (v - mean) ^ 2) values) / n) / mean < 0).
    { unfold Rdiv at 1. pose proof (Rinv_lt_0_compat mean Hmean). nra. }
    lra. }
  rewrite analyze_single_consistency_rule; [|done|fold n mean; lra].
  destruct (Req_dec_T (spec_cv values) 0); [lra|].
  destruct (Rlt_dec (spec_cv values) 5); [done|lra].
Qed.

Lemma negative_mean_is_rated_good_witness :
  _analyze_single_consistency [-1; -30] = (good, 100%Z).
Proof.
  apply negative_mean_is_rated_good.
  - cbn. lia.
  - unfold Rsum. cbn. lra.
  - exists (-1), (-30). rewrite !elem_of_cons. split; [by left|]. split; [right; by left|lra].
Defined.

End ConsistencyFurther.

(** ** Rep consistency in the final score *)

Section ConsistencyInFinalScore.
Import PyNum Aggregator Segmenter Consistency RepConsistency.

Lemma fold_Qplus_mono (l : list Q) (a b : Q) :
  (a <= b)%Q -> (fold_left Qplus l a <= fold_left Qplus l b)%Q.
Proof.
  revert a b. induction l as [|x l IH]; intros a b Hab; [done|].
  cbn [fold_left]. apply IH. Lqa.lra.
Qed.

(** The weights of the scored metrics add up to at most the sum of
    the whole table. *)
Lemma sum_weight_scored_le (fa : FormAnalysis) (ws : list (string * Q)) (b : Q) :
  Forall (fun kw : string * Q => (0 < kw.2)%Q) ws ->
  (fold_left Qplus (map (fun e : string * Z * Q => e.2) (scored fa ws)) b
   <= fold_left Qplus (map snd ws) b)%Q.
Proof.
  intros Hws. revert b. induction Hws as [|[k w] ws Hw Hws IH]; intros b.
  - apply Qle_refl.
  - unfold scored. cbn [omap list_omap fst snd map fold_left].
    fold (scored fa ws).
    destruct (fa !! k) as [r|]; [destruct (score r) as [s|]|].
    + cbn [map fold_left snd]. apply IH.
    + eapply Qle_trans; [apply IH|]. apply fold_Qplus_mono. cbn in Hw. Lqa.lra.
    + eapply Qle_trans; [apply IH|]. apply fold_Qplus_mono. cbn in Hw. Lqa.lra.
Qed.

(** The weighted sum stays below 100 times the weight sum, with the
    slack [c] the accumulators start with. *)
Lemma weighted_sum_slack (l : list (string * Z * Q)) (a b c : Q) :
  Forall (fun e : string * Z * Q => (0 < e.2)%Q /\ e.1.2 <= 100) l ->
  (a + c <= 100 * b)%Q ->
  (fold_left Qplus (map (fun e : string * Z * Q => (inject_Z e.1.2 * e.2)%Q) l) a + c
   <= 100 * fold_left Qplus (map (fun e : string * Z * Q => e.2) l) b)%Q.
Proof.
  intros Hl. revert a b. induction Hl as [|[[k s] w] l [Hw Hs] Hl IH]; intros a b Hab.
  - exact Hab.
  - cbn [map fold_left fst snd] in *. apply IH.
    rewrite Zle_Qle in Hs. change (inject_Z 100) with 100%Q in Hs. Lqa.nra.
Qed.

(** A metric scored 0 leaves a slack of 100 times its weight. *)
Lemma weighted_sum_with_zero (l : list (string * Z * Q)) (k0 : string) (w0 a b : Q) :
  Forall (fun e : string * Z * Q => (0 < e.2)%Q /\ e.1.2 <= 100) l ->
  (k0, 0, w0) ∈ l ->
  (a <= 100 * b)%Q ->
  (fold_left Qplus (map (fun e : string * Z * Q => (inject_Z e.1.2 * e.2)%Q) l) a
     + 100 * w0
   <= 100 * fold_left Qplus (map (fun e : string * Z * Q => e.2) l) b)%Q.
Proof.
  intros Hl. revert a b. induction Hl as [|[[k s] w] l [Hw Hs] Hl IH]; intros a b Hin Hab.
  - by apply elem_of_nil in Hin.
  - cbn [map fold_left fst snd] in *.
    apply elem_of_cons in Hin as [Heq|Hin].
    + inversion Heq; subst. apply weighted_sum_slack; [done|].
      change (inject_Z 0) with 0%Q. Lqa.lra.
    + apply IH; [done|].
      rewrite Zle_Qle in Hs. change (inject_Z 100) with 100%Q in Hs. Lqa.nra.
Qed.

Lemma py_int_le (q : Q) (hi : Z) : (q <= inject_Z hi)%Q -> py_int q <= hi.
Proof.
  intros Hq. apply (py_int_between q (Qfloor q) hi); [apply Qfloor_le|done].
Qed.

(** X18.  A failed sub-analysis is not left out of the final score.
    When [analyze_rep_consistency] returns a result one of whose
    three sub-analyses is in error, and that result is stored under
    ["rep_consistency"] as [analyze_form] does, the final score
    counts rep consistency as a component with score 0 and weight
    0.18: with no other score above 100 the final score is at most
    82 and the grade is never Excellent. *)
Lemma failed_sub_analysis_caps_final_score
    (angles_per_frame asymmetry_per_frame : gmap string (list (option R)))
    (reps : list Rep) (fa : FormAnalysis)
    (st : Status) (sc : Z) (n : nat) (d t a : Status * Z) :
  analyze_rep_consistency angles_per_frame asymmetry_per_frame reps
    = consistency_result st sc n d t a ->
  d.1 = error \/ t.1 = error \/ a.1 = error ->
  (forall k r s, fa !! k = Some r -> score r = Some s -> s <= 100) ->
  let result :=
    <["rep_consistency" :=
        metric_result (analyze_rep_consistency angles_per_frame asymmetry_per_frame reps)]>
      fa in
  ("rep_consistency", 0) ∈ component_scores (calculate_final_score result)
  /\ final_score (calculate_final_score result) <= 82
  /\ grade (calculate_final_score result) <> Excellent.
Proof.
  intros Hres Herr Hfa result.
  assert (Hsc : sc = 0).
  { unfold analyze_rep_consistency in Hres.
    destruct (length reps <? 2)%nat; [done|]. cbv zeta in Hres.
    inversion Hres as [[Hst Hscore Hn Hd Ht Ha]]. clear Hres. subst d t a.
    pose proof (analyze_single_consistency_results
                  (_extract_per_rep_metrics (default [] (angles_per_frame !! "quad_angle"))
                     reps "max")) as Hd.
    pose proof (analyze_single_consistency_results
                  (_extract_per_rep_metrics (default [] (angles_per_frame !! "torso_angle"))
                     reps "avg")) as Ht.
    pose proof (analyze_single_consistency_results
                  (_extract_per_rep_metrics
                     (default [] (asymmetry_per_frame !! "quad_asymmetry")) reps "avg")) as Ha.
    revert Herr Hd Ht Ha.
    generalize (_analyze_single_consistency
                  (_extract_per_rep_metrics (default [] (angles_per_frame !! "quad_angle"))
                     reps "max")).
    generalize (_analyze_single_consistency
                  (_extract_per_rep_metrics (default [] (angles_per_frame !! "torso_angle"))
                     reps "avg")).
    generalize (_analyze_single_consistency
                  (_extract_per_rep_metrics
                     (default [] (asymmetry_per_frame !! "quad_asymmetry")) reps "avg")).
    intros a t d Herr Hd Ht Ha.
    repeat (apply elem_of_cons in Hd as [->|Hd]); [| | | |by apply elem_of_nil in Hd];
    repeat (apply elem_of_cons in Ht as [->|Ht]); try (by apply elem_of_nil in Ht);
    repeat (apply elem_of_cons in Ha as [->|Ha]); try (by apply elem_of_nil in Ha);
    first [reflexivity | destruct Herr as [H|[H|H]]; discriminate H]. }
  assert (Hrep : result !! "rep_consistency" = Some (mkResult st (Some 0))).
  { subst result. rewrite Hres, lookup_insert. case_decide; [|done].
    cbn [metric_result]. by rewrite Hsc. }
  set (present := scored result weights).
  assert (Hin : ("rep_consistency", 0, 0.18%Q) ∈ present).
  { apply elem_of_scored. split; [unfold weights; rewrite !elem_of_cons; auto 10|].
    eexists. split; [exact Hrep|done]. }
  assert (Hall : Forall (fun e : string * Z * Q => (0 < e.2)%Q /\ e.1.2 <= 100) present).
  { apply Forall_forall. intros [[k s] w] Hk.
    apply elem_of_scored in Hk as [Hkw (r & Hr & Hs)]. split.
    - pose proof weights_positive as Hws. rewrite Forall_forall in Hws.
      apply (Hws (k, w) Hkw).
    - cbn [fst snd]. destruct (decide (k = "rep_consistency")) as [->|Hne].
      + rewrite Hrep in Hr. inversion Hr; subst r. cbn in Hs. inversion Hs. lia.
      + subst result. rewrite lookup_insert_ne in Hr by done. by apply (Hfa k r s). }
  assert (Hne : present <> []) by (intros Hnil; rewrite Hnil in Hin; by apply elem_of_nil in Hin).
  pose proof (sum_weight_positive result Hne) as Hpos. fold present in Hpos.
  assert (Hcap : (sum_score_weight present + 100 * 0.18 <= 100 * sum_weight present)%Q).
  { apply (weighted_sum_with_zero present "rep_consistency" 0.18 0 0 Hall Hin). Lqa.lra. }
  assert (Hone : (sum_weight present <= 1)%Q).
  { eapply Qle_trans; [apply (sum_weight_scored_le result weights 0 weights_positive)|].
    by vm_compute. }
  assert (Hfinal : final_score (calculate_final_score result) <= 82).
  { rewrite calculate_final_score_unfold. cbn [final_score]. fold present.
    rewrite Hpos. apply Qltb_lt in Hpos. apply py_int_le.
    apply Qle_shift_div_r; [done|]. change (inject_Z 82) with 82%Q. Lqa.lra. }
  split; [|split; [exact Hfinal|]].
  - rewrite calculate_final_score_unfold. cbn [component_scores]. fold present.
    apply (list_elem_of_fmap_2 (fun e : string * Z * Q => (e.1.1, e.1.2)) _ _ Hin).
  - assert (Hgrade : grade (calculate_final_score result)
                     = _determine_grade (final_score (calculate_final_score result)))
      by (by rewrite calculate_final_score_unfold).
    rewrite Hgrade. unfold _determine_grade.
    destruct (Z.leb_spec 90 (final_score (calculate_final_score result))); [lia|].
    by repeat destruct (_ <=? _).
Qed.

Lemma failed_sub_analysis_caps_final_score_witness :
  let result :=
    <["rep_consistency" :=
        metric_result (analyze_rep_consistency ∅ ∅ [mkRep 0 5 9; mkRep 10 15 19])]>
      fa_two_perfect in
  ("rep_consistency", 0) ∈ component_scores (calculate_final_score result)
  /\ final_score (calculate_final_score result) <= 82
  /\ grade (calculate_final_score result) <> Excellent.
Proof.
  apply (failed_sub_analysis_caps_final_score ∅ ∅ [mkRep 0 5 9; mkRep 10 15 19]
           fa_two_perfect poor 0 2 (error, 0) (error, 0) (error, 0)).
  - reflexivity.
  - by left.
  - intros k r s Hk Hs. apply elem_of_map_to_list in Hk.
    assert (Hall : Forall (fun kr : string * MetricResult =>
                             forall s', score kr.2 = Some s' -> s' <= 100)
                          (map_to_list fa_two_perfect)).
    { vm_compute. repeat constructor; intros s' Hs'; inversion Hs'; discriminate. }
    rewrite Forall_forall in Hall. apply (Hall (k, r) Hk s Hs).
Defined.

End ConsistencyInFinalScore.

(** ** Torso analyzer *)

Section TorsoFurther.
Import PyNum Aggregator Segmenter ActivePhase TorsoAnalyzer Analyzers.

Lemma forallb_missing_false (l : list (option Q)) :
  forallb (fun a : option Q => negb (bool_decide (is_Some a))) l = false
  <-> exists a, Some a ∈ l.
Proof.
  induction l as [|[a|] l IH]; cbn.
  - split; [done|]. intros (a & Ha). by apply elem_of_nil in Ha.
  - split; [|done]. intros _. exists a. by left.
  - rewrite IH. split; intros (a & Ha); exists a.
    + by right.
    + by apply elem_of_cons in Ha as [?|?].
Qed.

(** X21.  What the torso does outside the reps does not count.  When
    the quad series yields at least one rep, two torso series that
    agree on every frame of every rep (and each hold a measured
    value somewhere) get the same torso result, whatever they hold
    elsewhere. *)
Lemma torso_outside_reps_is_ignored
    (torso torso' quad : list (option Q)) (phases : Phases) :
  detect_squat_phases quad 30.0 = Some phases ->
  reps_of phases <> [] ->
  (exists a, Some a ∈ torso) -> (exists a, Some a ∈ torso') ->
  (forall rep i, rep ∈ reps_of phases ->
     (start_frame rep <= i <= end_frame rep)%nat ->
     frame_or_none torso i = frame_or_none torso' i) ->
  analyze_torso_angle torso quad = analyze_torso_angle torso' quad.
Proof.
  intros Hdetect Hreps Hm Hm' Hagree.
  unfold analyze_torso_angle.
  apply forallb_missing_false in Hm, Hm'. rewrite Hm, Hm'.
  assert (Hfilter : _filter_to_active_phases torso quad = _filter_to_active_phases torso' quad).
  { unfold _filter_to_active_phases. rewrite Hdetect. cbn [mbind option_bind].
    assert (Hno : no_reps phases = false).
    { unfold no_reps, reps_of in *. destruct (phases !! "reps") as [[|r l]|]; done. }
    rewrite Hno.
    assert (Hmap : map (frame_or_none torso) (flat_map rep_frames (reps_of phases))
                   = map (frame_or_none torso') (flat_map rep_frames (reps_of phases))).
    { apply map_ext_in. intros i Hi. apply in_flat_map in Hi as (rep & Hrep & Hi).
      unfold rep_frames in Hi. apply in_seq in Hi.
      apply (Hagree rep i); [by apply list_elem_of_In|lia]. }
    destruct (flat_map rep_frames (reps_of phases)) as [|f fs] eqn:Hframes; [|by rewrite Hmap].
    exfalso. destruct (reps_of phases) as [|r rs] eqn:Hr; [done|].
    unfold detect_squat_phases in Hdetect.
    destruct (detect_reps_shape quad 30.0) as (reps & Hshape & Hwf & _).
    rewrite Hshape in Hdetect. cbn in Hdetect. inversion Hdetect; subst phases.
    unfold reps_of in Hr. rewrite lookup_singleton_eq in Hr. cbn in Hr. subst reps.
    apply Forall_cons in Hwf as [(Hlt & _) _].
    cbn [flat_map] in Hframes. apply app_eq_nil in Hframes as [Hnil _].
    unfold rep_frames in Hnil. apply (f_equal length) in Hnil.
    rewrite length_seq in Hnil. cbn in Hnil. lia. }
  destruct quad as [|q quad]; [|by rewrite Hfilter].
  exfalso. revert Hdetect Hreps. clear. intros Hdetect Hreps.
  vm_compute in Hdetect. inversion Hdetect; subst phases. by apply Hreps.
Qed.

Lemma torso_outside_reps_is_ignored_witness :
  analyze_torso_angle (twin_peaks 125) (twin_peaks 130)
  = analyze_torso_angle (<[0%nat := Some 10%Q]> (twin_peaks 125)) (twin_peaks 130).
Proof.
  apply (torso_outside_reps_is_ignored (twin_peaks 125)
           (<[0%nat := Some 10%Q]> (twin_peaks 125)) (twin_peaks 130)
           {[ "reps" := [mkRep 48 50 62] ]}).
  - vm_compute. reflexivity.
  - unfold reps_of. rewrite lookup_singleton_eq. discriminate.
  - exists 90%Q. apply list_elem_of_lookup. exists 0%nat. reflexivity.
  - exists 10%Q. apply list_elem_of_lookup. exists 0%nat. reflexivity.
  - unfold reps_of. rewrite lookup_singleton_eq. cbn [default from_option].
    intros rep i Hrep Hi. apply list_elem_of_singleton in Hrep. subst rep.
    cbn [start_frame end_frame] in Hi. unfold frame_or_none.
    rewrite list_lookup_insert_ne by lia. reflexivity.
Defined.

(** X22.  One frame decides the torso verdict.  When the whole series
    is judged (no quad series given), the result is the error result
    exactly when no frame holds a measured angle; otherwise the
    status is poor exactly when some measured angle exceeds 45
    degrees and good exactly when no measured angle exceeds 43, with
    score 50 for poor, 75 for warning and 90, 95 or 100 for good. *)
Lemma torso_verdict_by_largest_lean (torso : list (option Q)) :
  ((forall a : Q, Some a ∉ torso) -> analyze_torso_angle torso [] = Some error_result)
  /\ ((exists a : Q, Some a ∈ torso) ->
      exists st sc,
        analyze_torso_angle torso [] = Some (mkResult st (Some sc))
        /\ (st = poor <-> exists a, Some a ∈ torso /\ (45 < a)%Q)
        /\ (st = good <-> forall a, Some a ∈ torso -> (a <= 43)%Q)
        /\ (st = poor -> sc = 50) /\ (st = warning -> sc = 75)
        /\ (st = good -> sc = 90 \/ sc = 95 \/ sc = 100)
        /\ st <> error).
Proof.
  unfold analyze_torso_angle. split.
  - intros Hnone.
    destruct (forallb _ torso) eqn:Hall; [done|].
    apply forallb_missing_false in Hall as (a & Ha). by apply Hnone in Ha.
  - intros Hsome. pose proof Hsome as Hall. apply forallb_missing_false in Hall.
    rewrite Hall. cbn [mbind option_bind].
    change (omap (fun a : option Q => a) torso) with (valid_values torso).
    destruct Hsome as (a0 & Ha0). apply valid_values_elem in Ha0.
    destruct (valid_values torso) as [|v vs] eqn:Hv; [by apply elem_of_nil in Ha0|].
    rewrite <- Hv in *. clear Ha0.
    assert (Hne : valid_values torso <> []) by (rewrite Hv; done).
    destruct (py_max_some _ Hne) as [m Hm]. destruct (py_min_some _ Hne) as [mn Hmn].
    unfold _calculate_torso_metrics. rewrite Hm, Hmn. cbn [mbind option_bind].
    apply py_max_spec in Hm as [Hin Hle]. rewrite Forall_forall in Hle.
    unfold _determine_torso_status.
    destruct (Qle_bool m 43) eqn:H43.
    + apply Qle_bool_iff in H43.
      assert (Hgood : forall a, Some a ∈ torso -> (a <= 43)%Q).
      { intros a Ha. apply valid_values_elem in Ha.
        apply Qle_trans with m; [by apply Hle|done]. }
      assert (Hnp : ~ exists a, Some a ∈ torso /\ (45 < a)%Q).
      { intros (a & Ha & H45). specialize (Hgood a Ha). Lqa.lra. }
      destruct (Qle_bool 35 _ && Qle_bool _ 43); [|destruct (Qltb _ 35)];
        eexists _, _; (split; [reflexivity|]); intuition (done || auto).
    + assert (H43' : (43 < m)%Q).
      { apply Qnot_le_lt. intros H. apply Qle_bool_iff in H. congruence. }
      assert (Hng : ~ forall a, Some a ∈ torso -> (a <= 43)%Q).
      { intros H. specialize (H m). rewrite <- valid_values_elem in H.
        specialize (H Hin). Lqa.lra. }
      destruct (Qle_bool m 45) eqn:H45.
      * apply Qle_bool_iff in H45.
        assert (Hnp : ~ exists a, Some a ∈ torso /\ (45 < a)%Q).
        { intros (a & Ha & Hgt). apply valid_values_elem in Ha.
          specialize (Hle a Ha). Lqa.lra. }
        eexists _, _; (split; [reflexivity|]); intuition (done || auto).
      * assert (H45' : (45 < m)%Q).
        { apply Qnot_le_lt. intros H. apply Qle_bool_iff in H. congruence. }
        assert (Hp : exists a, Some a ∈ torso /\ (45 < a)%Q).
        { exists m. by rewrite <- valid_values_elem. }
        eexists _, _; (split; [reflexivity|]); intuition (done || auto).
Qed.

End TorsoFurther.

(** ** Knee valgus *)

Section KneeValgusProperties.
Import Aggregator Segmenter Consistency RepConsistency Geometry KneeValgus.
Local Open Scope R_scope.










Lemma fold_Rmax_spec (l : list R) (a : R) :
  let m := fold_left Rmax l a in
  m ∈ a :: l /\ Forall (fun d => d <= m) (a :: l).
Proof.
  revert a. induction l as [|d l IH]; intros a m.
  - subst m. cbn [fold_left]. split; [by left|]. apply Forall_cons. split; [lra|apply Forall_nil_2].
  - subst m. cbn [fold_left]. destruct (IH (Rmax a d)) as [Hin Hle].
    apply Forall_cons in Hle as [Hm Hle].
    split.
    + apply elem_of_cons in Hin as [Heq|Hin]; [|by right; right].
      rewrite Heq. unfold Rmax. destruct (Rle_dec a d); [right; by left|by left].
    + pose proof (Rmax_l a d). pose proof (Rmax_r a d).
      apply Forall_cons. split; [lra|]. apply Forall_cons. split; [lra|done].
Qed.

(** The guards on empty inputs agree with the guard on an empty list
    of measured angles. *)
Lemma analyze_knee_valgus_unfold (landmarks_list : list (option Landmarks))
    (reps : list Rep) :
  analyze_knee_valgus landmarks_list reps
  = let valid_fppa :=
      omap (fun f : option R => f) (_calculate_valgus_per_frame landmarks_list reps) in
    match valid_fppa with
    | [] => Some error_result
    | _ =>
        '(max_fppa, avg_fppa, fppa_range, max_deviation, most_extreme_fppa) ←
          _calculate_valgus_metrics valid_fppa;
        let '(status, score) :=
          _determine_valgus_status max_fppa avg_fppa max_deviation most_extreme_fppa in
        Some (mkResult status (Some score))
    end.
Proof.
  unfold analyze_knee_valgus, _calculate_valgus_per_frame.
  destruct landmarks_list as [|l0 ls]; destruct reps as [|r0 rs]; reflexivity.
Qed.

(** The largest deviation from 180 and the first angle that has it. *)
Lemma valgus_metrics_spec (valid_fppa : list R) :
  valid_fppa <> [] ->
  exists max_fppa avg_fppa fppa_range max_deviation most_extreme_fppa,
    _calculate_valgus_metrics valid_fppa
    = Some (max_fppa, avg_fppa, fppa_range, max_deviation, most_extreme_fppa)
    /\ most_extreme_fppa ∈ valid_fppa
    /\ Rabs (180 - most_extreme_fppa) = max_deviation
    /\ forall g, g ∈ valid_fppa -> Rabs (180 - g) <= max_deviation.
Proof.
  destruct valid_fppa as [|f fs]; [done|]. intros _.
  unfold _calculate_valgus_metrics. cbv zeta.
  destruct (fold_Rmax_spec (map (fun g => Rabs (180 - g)) fs) (Rabs (180 - f)))
    as [Hmin Hmle].
  fold (Rmax_list (Rabs (180 - f)) (map (fun g => Rabs (180 - g)) fs)) in Hmin, Hmle.
  set (max_dev := Rmax_list (Rabs (180 - f)) (map (fun g => Rabs (180 - g)) fs)) in *.
  change (Rabs (180 - f) :: map (fun g => Rabs (180 - g)) fs)
    with (map (fun g => Rabs (180 - g)) (f :: fs)) in Hmin, Hmle.
  rewrite Forall_map, Forall_forall in Hmle.
  apply list_elem_of_fmap in Hmin as (g0 & Hg0 & Hg0in).
  match goal with |- context [List.find ?t ?l] =>
    destruct (List.find t l) as [ext|] eqn:Hfind end.
  - apply find_some in Hfind as [Hext Htest]. apply list_elem_of_In in Hext.
    destruct (Req_dec_T (Rabs (180 - ext)) max_dev) as [Hdev|]; [|done].
    cbn [mbind option_bind]. eexists _, _, _, _, _. split; [reflexivity|].
    split; [done|]. split; [done|]. exact Hmle.
  - exfalso. apply list_elem_of_In in Hg0in.
    pose proof (find_none _ _ Hfind g0 Hg0in) as Hn. cbv beta in Hn.
    by destruct (Req_dec_T (Rabs (180 - g0)) max_dev).
Qed.

(** X25.  The knee-valgus verdict from the per-frame angles.  Without
    landmarks, without reps or without any measured frame the result
    is the error result.  Otherwise the status is good exactly when
    every measured angle lies within 4 degrees of 180.  It is poor
    only if some angle is 172 degrees or less; angles above 180
    (varus) alone never give poor.  With an angle of 172 or less and
    no angle of 188 or more it is poor. *)
Lemma knee_valgus_verdict (landmarks_list : list (option Landmarks)) (reps : list Rep) :
  let fppa_angles := _calculate_valgus_per_frame landmarks_list reps in
  ((forall f : R, Some f ∉ fppa_angles) ->
     analyze_knee_valgus landmarks_list reps = Some error_result)
  /\ ((exists f : R, Some f ∈ fppa_angles) ->
      exists st sc,
        analyze_knee_valgus landmarks_list reps = Some (mkResult st (Some sc))
        /\ (st = good <-> forall f, Some f ∈ fppa_angles -> Rabs (180 - f) < 4)
        /\ (st = poor -> exists f, Some f ∈ fppa_angles /\ f <= 172)
        /\ ((exists f, Some f ∈ fppa_angles /\ f <= 172) ->
            (forall f, Some f ∈ fppa_angles -> f < 188) -> st = poor)
        /\ st <> error
        /\ (sc = match st with good => 100 | warning => 75 | _ => 50 end)%Z).
Proof.
  intros fppa_angles.
  assert (Helem : forall f, f ∈ omap (fun f : option R => f) fppa_angles <-> Some f ∈ fppa_angles).
  { intros f. rewrite list_elem_of_omap. split.
    - intros (o & Ho & ->). done.
    - intros Hf. by exists (Some f). }
  rewrite analyze_knee_valgus_unfold. fold fppa_angles. cbv zeta.
  set (valid := omap (fun f : option R => f) fppa_angles) in *.
  assert (Hel : forall f, f ∈ valid <-> Some f ∈ fppa_angles) by exact Helem.
  clearbody valid. clear Helem.
  split.
  - intros Hnone. destruct valid as [|f fs]; [done|].
    exfalso. apply (Hnone f), Hel. by left.
  - intros (f0 & Hf0). apply Hel in Hf0.
    assert (Hne : valid <> []) by (intros ->; by apply elem_of_nil in Hf0).
    destruct (valgus_metrics_spec valid Hne)
      as (mx & avg & rg & max_dev & ext & Hmetrics & Hext & Hdev & Hmle).
    destruct valid as [|f fs] eqn:Hv; [done|]. rewrite <- Hv in *.
    rewrite Hmetrics. cbn [mbind option_bind]. unfold _determine_valgus_status.
    assert (Hall : forall g, Some g ∈ fppa_angles -> Rabs (180 - g) <= max_dev).
    { intros g Hg. apply Hmle, Hel, Hg. }
    apply Hel in Hext.
    destruct (Rlt_dec max_dev 4) as [H4|H4].
    { eexists _, _. split; [reflexivity|].
      split; [split; [intros _ g Hg; specialize (Hall g Hg); lra|done]|].
      split; [done|]. split; [|done].
      intros (g & Hg & Hg172) _. exfalso. specialize (Hall g Hg).
      rewrite Rabs_right in Hall by lra. lra. }
    assert (Hngood : ~ forall g, Some g ∈ fppa_angles -> Rabs (180 - g) < 4).
    { intros H. specialize (H ext Hext). lra. }
    destruct (Rlt_dec max_dev 8) as [H8|H8].
    { assert (Hres : (if Rlt_dec ext 180 then (warning, 75%Z) else (warning, 75%Z))
                     = (warning, 75%Z)) by (by destruct (Rlt_dec ext 180)).
      rewrite Hres. eexists _, _. split; [reflexivity|].
      split; [split; [done|intros H; by apply Hngood in H]|].
      split; [done|]. split; [|done].
      intros (g & Hg & Hg172) _. exfalso. specialize (Hall g Hg).
      rewrite Rabs_right in Hall by lra. lra. }
    destruct (Rlt_dec ext 180) as [Hlt|Hge].
    + eexists _, _. split; [reflexivity|].
      split; [split; [done|intros H; by apply Hngood in H]|].
      split; [|done]. intros _. exists ext. split; [done|].
      rewrite Rabs_right in Hdev by lra. lra.
    + eexists _, _. split; [reflexivity|].
      split; [split; [done|intros H; by apply Hngood in H]|].
      split; [done|]. split; [|done].
      intros _ H188. exfalso. specialize (H188 ext Hext).
      rewrite Rabs_left1 in Hdev by lra. lra.
Qed.

End KneeValgusProperties.

(** ** Landmark validation *)

Section LandmarkValidationProperties.
Import PyNum LandmarkValidation.

Lemma nat_ratio_bounds (m n : nat) :
  (0 < n)%nat -> (m <= n)%nat ->
  (0 <= inject_Z (Z.of_nat m) / inject_Z (Z.of_nat n) <= 1)%Q.
Proof.
  intros Hn Hmn.
  assert (Hn' : (0 < inject_Z (Z.of_nat n))%Q).
  { change 0%Q with (inject_Z 0). rewrite <- Zlt_Qlt. lia. }
  split.
  - apply Qle_shift_div_l; [done|]. rewrite Qmult_0_l.
    change 0%Q with (inject_Z 0). rewrite <- Zle_Qle. lia.
  - apply Qle_shift_div_r; [done|]. rewrite Qmult_1_l. rewrite <- Zle_Qle. lia.
Qed.

(** The score of a frame lies between 0 and 1, and is 1 for a valid
    frame. *)
Lemma frame_score_bounds (landmarks : option RawLandmarks) (required : list nat) :
  let r := validate_frame_landmarks landmarks required in
  (0 <= validation_score r <= 1)%Q
  /\ (is_valid r = true -> (1 <= validation_score r)%Q).
Proof.
  unfold validate_frame_landmarks. destruct landmarks as [l|]; cbn [validation_score is_valid].
  2:{ split; [split; by vm_compute|done]. }
  unfold _calculate_validation_score.
  destruct required as [|idx required]; [split; [split; by vm_compute|intros _; by vm_compute]|].
  set (req := idx :: required).
  set (m := length (_get_missing_landmarks (Some l) req)).
  assert (Hm : (m <= length req)%nat) by apply List.filter_length_le.
  assert (Hn : (0 < length req)%nat) by (cbn; lia).
  pose proof (nat_ratio_bounds m (length req) Hn Hm) as Hr.
  set (q := (inject_Z (Z.of_nat m) / inject_Z (Z.of_nat (length req)))%Q) in *.
  destruct (Qltb 0.0 (1.0 - q)) eqn:Hv.
  - apply Qltb_lt in Hv. split; [Lqa.lra|].
    intros Hvalid. apply Nat.eqb_eq in Hvalid.
    assert (Hq : (q == 0)%Q).
    { unfold q. rewrite Hvalid. cbn [Z.of_nat]. unfold Qdiv. apply Qmult_0_l. }
    rewrite Hq. by vm_compute.
  - apply Qltb_ge in Hv. split; [split; by vm_compute|].
    intros Hvalid. apply Nat.eqb_eq in Hvalid. exfalso.
    assert (Hq : (q == 0)%Q).
    { unfold q. rewrite Hvalid. cbn [Z.of_nat]. unfold Qdiv. apply Qmult_0_l. }
    rewrite Hq in Hv. by vm_compute in Hv.
Qed.

(** What the loop of [validate_landmarks_batch] keeps. *)
Lemma batch_loop_invariant (required : list nat) (l : list (option RawLandmarks))
    (i vc : nat) (res : list FrameResult) (mc : list nat) (ts : Q) :
  exists vc' mc' ts',
    fold_left (batch_step required) l (i, res, vc, mc, ts)
    = ((i + length l)%nat,
       res ++ map (fun lm => validate_frame_landmarks lm required) l, vc', mc', ts')
    /\ (vc' = vc + length (List.filter is_valid
                             (map (fun lm => validate_frame_landmarks lm required) l)))%nat
    /\ (required <> [] -> (vc' + length mc' = vc + length mc + length l)%nat)
    /\ (forall k, k ∈ mc' -> k ∈ mc \/ (i <= k < i + length l)%nat)
    /\ (ts + inject_Z (Z.of_nat (vc' - vc)) <= ts')%Q
    /\ (ts' <= ts + inject_Z (Z.of_nat (length l)))%Q.
Proof.
  revert i vc res mc ts. induction l as [|lm l IH]; intros i vc res mc ts.
  - exists vc, mc, ts. cbn [fold_left length map List.filter].
    rewrite Nat.add_0_r, app_nil_r, Nat.sub_diag.
    split; [done|]. split; [lia|]. split; [lia|]. split; [by left|].
    change (inject_Z (Z.of_nat 0)) with 0%Q. split; Lqa.lra.
  - cbn [fold_left]. unfold batch_step at 2.
    destruct (frame_score_bounds lm required) as [Hsc Hone].
    set (fr := validate_frame_landmarks lm required) in *. cbv zeta in Hsc, Hone.
    destruct (is_valid fr) eqn:Hvalid.
    + destruct (IH (S i) (S vc) (res ++ [fr]) mc (ts + validation_score fr)%Q)
        as (vc' & mc' & ts' & Hfold & Hvc & Hmc & Hin & Hlo & Hhi).
      exists vc', mc', ts'. rewrite Hfold. cbn [length map List.filter]. fold fr.
      rewrite Hvalid. cbn [length].
      split.
      { rewrite <- app_assoc. cbn [app].
        by replace (i + S (length l))%nat with (S i + length l)%nat by lia. }
      split; [lia|]. split; [intros Hr; specialize (Hmc Hr); lia|].
      split; [intros k Hk; destruct (Hin k Hk); [by left|right; lia]|].
      specialize (Hone eq_refl).
      replace (vc' - vc)%nat with (S (vc' - S vc)) by lia.
      rewrite !Nat2Z.inj_succ. unfold Z.succ. rewrite !inject_Z_plus.
      change (inject_Z 1) with 1%Q. split; Lqa.lra.
    + assert (Hstep : exists mc1,
                (if false then (S vc, mc)
                 else match required with
                      | [] => (vc, mc)
                      | _ => (vc, mc ++ [i])
                      end) = (vc, mc1)
                /\ (required <> [] -> length mc1 = S (length mc))
                /\ forall k, k ∈ mc1 -> k ∈ mc \/ k = i).
      { destruct required as [|r rs].
        - exists mc. split; [done|]. split; [done|]. intros k Hk. by left.
        - exists (mc ++ [i]). split; [done|]. split; [intros _; rewrite length_app; cbn; lia|].
          intros k Hk. apply elem_of_app in Hk as [Hk|Hk]; [by left|].
          right. by apply list_elem_of_singleton in Hk. }
      destruct Hstep as (mc1 & Hmc1 & Hlen1 & Hin1). cbv iota in Hmc1. rewrite Hmc1.
      destruct (IH (S i) vc (res ++ [fr]) mc1 (ts + validation_score fr)%Q)
        as (vc' & mc' & ts' & Hfold & Hvc & Hmc & Hin & Hlo & Hhi).
      exists vc', mc', ts'. rewrite Hfold. cbn [length map List.filter]. fold fr.
      rewrite Hvalid.
      split.
      { rewrite <- app_assoc. cbn [app].
        by replace (i + S (length l))%nat with (S i + length l)%nat by lia. }
      split; [done|].
      split; [intros Hr; specialize (Hmc Hr); specialize (Hlen1 Hr); lia|].
      split.
      { intros k Hk. destruct (Hin k Hk) as [Hk1|Hk1]; [|right; lia].
        destruct (Hin1 k Hk1) as [Hk2 | Hk2]; [by left|right; lia]. }
      rewrite Nat2Z.inj_succ. unfold Z.succ. rewrite inject_Z_plus.
      change (inject_Z 1) with 1%Q. split; Lqa.lra.
Qed.

(** X26.  What a batch validation result always satisfies.  The
    result holds one frame result per frame; the valid-frame count
    counts the valid ones; with required landmarks given, every
    frame is either counted as valid or listed as missing; the
    valid-frame percentage lies between 0 and the quality score, which
    is at most 1; and the batch is valid overall, with no error
    recorded, exactly when there are frames and at least 30 percent
    of them are valid. *)
Lemma batch_validation_invariants
    (landmarks_list : list (option RawLandmarks)) (required : list nat) :
  let r := validate_landmarks_batch landmarks_list required in
  total_frame_count r = length landmarks_list
  /\ per_frame_results r
     = map (fun lm => validate_frame_landmarks lm required) landmarks_list
  /\ valid_frame_count r = length (List.filter is_valid (per_frame_results r))
  /\ (required <> [] ->
      (valid_frame_count r + length (missing_critical_frames r)
       = length landmarks_list)%nat)
  /\ (0 <= valid_frame_percentage r)%Q
  /\ (valid_frame_percentage r <= quality_score r)%Q
  /\ (quality_score r <= 1)%Q
  /\ (overall_valid r = true
      <-> landmarks_list <> []
          /\ (3 * length landmarks_list <= 10 * valid_frame_count r)%nat)
  /\ (errors r = [] <-> overall_valid r = true).
Proof.
  destruct landmarks_list as [|lm l].
  { cbn. repeat split; try done; try (by vm_compute); by intros []. }
  set (ll := lm :: l). cbv zeta. unfold validate_landmarks_batch.
  change (match ll with [] => _ | _ :: _ => ?b end) with b.
  destruct (batch_loop_invariant required ll 0 0 [] [] 0.0%Q)
    as (vc & mc & ts & Hfold & Hvc & Hmc & _ & Hlo & Hhi).
  rewrite Hfold. cbn [app] in *.
  assert (Hpos : (0 <? length ll)%nat = true) by (apply Nat.ltb_lt; cbn; lia).
  rewrite Hpos.
  cbn [total_frame_count per_frame_results valid_frame_count missing_critical_frames
       valid_frame_percentage quality_score overall_valid errors].
  set (n := inject_Z (Z.of_nat (length ll))) in *.
  assert (Hn : (0 < n)%Q).
  { unfold n. change 0%Q with (inject_Z 0). rewrite <- Zlt_Qlt. cbn. lia. }
  assert (Hinv : (0 <= / n)%Q) by (apply Qinv_le_0_compat; Lqa.lra).
  rewrite Nat.sub_0_r in Hlo. cbn [Nat.add] in Hvc.
  assert (Hvcn : (vc <= length ll)%nat).
  { rewrite Hvc. etransitivity; [apply List.filter_length_le|]. by rewrite length_map. }
  assert (Hvc0 : (0 <= inject_Z (Z.of_nat vc))%Q).
  { change 0%Q with (inject_Z 0). rewrite <- Zle_Qle. lia. }
  split; [done|]. split; [done|]. split; [done|].
  split; [intros Hr; specialize (Hmc Hr); cbn [length] in Hmc; lia|].
  split; [unfold Qdiv; by apply Qmult_le_0_compat|].
  split; [unfold Qdiv; apply Qmult_le_compat_r; [Lqa.lra|done]|].
  split; [apply Qle_shift_div_r; [done|]; fold n in Hhi; Lqa.lra|].
  assert (Hthreshold : (0.3 <= inject_Z (Z.of_nat vc) / n)%Q
                       <-> (3 * length ll <= 10 * vc)%nat).
  { split.
    - intros H. apply (Qmult_le_compat_r _ _ n) in H; [|Lqa.lra].
      assert (Hcancel : (inject_Z (Z.of_nat vc) / n * n == inject_Z (Z.of_nat vc))%Q)
        by (field; Lqa.lra).
      rewrite Hcancel in H. unfold n in H.
      assert (H' : (inject_Z (3 * Z.of_nat (length ll)) <= inject_Z (10 * Z.of_nat vc))%Q).
      { rewrite !inject_Z_mult. change (inject_Z 3) with 3%Q.
        change (inject_Z 10) with 10%Q. Lqa.lra. }
      rewrite <- Zle_Qle in H'. lia.
    - intros H. apply Qle_shift_div_l; [done|]. unfold n.
      assert (H' : (inject_Z (3 * Z.of_nat (length ll)) <= inject_Z (10 * Z.of_nat vc))%Q)
        by (rewrite <- Zle_Qle; lia).
      rewrite !inject_Z_mult in H'. change (inject_Z 3) with 3%Q in H'.
      change (inject_Z 10) with 10%Q in H'. Lqa.lra. }
  split.
  - rewrite Qle_bool_iff, Hthreshold. split; [intros H; split; [done|exact H]|by intros [_ H]].
  - destruct (Qltb (inject_Z (Z.of_nat vc) / n) 0.3) eqn:Hlt.
    + apply Qltb_lt in Hlt. split; [done|]. intros H. apply Qle_bool_iff in H. Lqa.lra.
    + apply Qltb_ge in Hlt. split; [|done]. intros _. by apply Qle_bool_iff.
Qed.

(** X27.  A frame is judged by its required landmarks only: two
    landmark arrays that agree at every required index get the same
    frame result.  For the squat this leaves the heels (29 and 30),
    which the ankle angle reads, unchecked. *)
Lemma validation_reads_required_landmarks_only
    (l l' : RawLandmarks) (required : list nat) :
  (forall idx, idx ∈ required -> l !! idx = l' !! idx) ->
  validate_frame_landmarks (Some l) required = validate_frame_landmarks (Some l') required.
Proof.
  intros Hagree.
  assert (Hmissing : _get_missing_landmarks (Some l) required
                     = _get_missing_landmarks (Some l') required).
  { unfold _get_missing_landmarks. apply filter_ext_in. intros idx Hidx.
    apply list_elem_of_In in Hidx. unfold _check_landmark_exists.
    by rewrite (Hagree idx Hidx). }
  unfold validate_frame_landmarks, _calculate_validation_score.
  rewrite Hmissing. by destruct required.
Qed.

Lemma validation_reads_required_landmarks_only_witness :
  validate_frame_landmarks
    (Some (<[29%nat := None]> (<[30%nat := Some (mkRaw None None)]>
             (replicate 33 (Some (mkRaw (Some 0.5%Q) (Some 0.5%Q)))))))
    get_squat_required_landmarks
  = validate_frame_landmarks full_pose get_squat_required_landmarks.
Proof.
  apply validation_reads_required_landmarks_only.
  intros idx Hidx. unfold get_squat_required_landmarks in Hidx.
  repeat (apply elem_of_cons in Hidx as [->|Hidx]; [reflexivity|]).
  by apply elem_of_nil in Hidx.
Defined.

End LandmarkValidationProperties.

(** ** Rep segmenter: how many reps fit *)

Section SegmenterCount.
Import PyNum Segmenter.

Lemma build_reps_length (peaks : list ipeak) (l : list sample) (b t : Q) (reps : list Rep) :
  _build_reps_from_peaks peaks l b t = Some reps -> (length reps <= length peaks)%nat.
Proof.
  revert reps. induction peaks as [|[i [f a]] rest IH]; intros reps Hbuild.
  - inversion Hbuild. done.
  - cbn [_build_reps_from_peaks] in Hbuild.
    destruct (_find_rep_start_end l f b t) as [[s e]|]; [|done].
    cbn [mbind option_bind] in Hbuild.
    destruct (_build_reps_from_peaks rest l b t) as [reps'|]; [|done].
    cbn [mbind option_bind] in Hbuild. inversion Hbuild; subst reps.
    specialize (IH reps' eq_refl). destruct (s <? e)%nat; cbn [length]; lia.
Qed.

(** Peaks that lie [d] positions apart: the last one lies at least
    [d] times their number minus one past the first. *)
Lemma spaced_reach (d : Z) (x : ipeak) (l : list ipeak) :
  StronglySorted (spaced d) (x :: l) ->
  exists y, y ∈ x :: l /\ (Z.of_nat x.1 + d * Z.of_nat (length l) <= Z.of_nat y.1)%Z.
Proof.
  revert x. induction l as [|z l IH]; intros x Hs.
  - exists x. split; [by left|]. cbn [length]. lia.
  - apply StronglySorted_inv in Hs as [Hs Hx].
    apply Forall_cons in Hx as [Hxz _]. unfold spaced in Hxz.
    destruct (IH z Hs) as (y & Hy & Hreach).
    exists y. split; [by right|]. cbn [length]. lia.
Qed.

Lemma enumerate_valid_length (l : list (option Q)) (i : nat) :
  (length (enumerate_valid i l) <= length l)%nat.
Proof.
  revert i. induction l as [|[a|] l IH]; intros i; cbn [enumerate_valid length].
  - lia.
  - specialize (IH (S i)). lia.
  - specialize (IH (S i)). lia.
Qed.

(** X28.  No more than one rep per 30 measured frames.  The segmenter
    always returns a list of reps, and [k] reps need more than
    [30 * (k - 1)] measured frames: thirty times the number of reps
    is at most the number of measured frames plus 29, at any frame
    rate. *)
Lemma rep_count_bounded_by_frames (quad_angles_per_frame : list (option Q)) (fps : Q) :
  exists reps,
    detect_reps quad_angles_per_frame fps = Some reps
    /\ (30 * length reps <= length (enumerate_valid 0 quad_angles_per_frame) + 29)%nat
    /\ (30 * length reps <= length quad_angles_per_frame + 29)%nat.
Proof.
  destruct (detect_reps_shape quad_angles_per_frame fps) as (reps & Hreps & _).
  exists reps. split; [exact Hreps|].
  pose proof (enumerate_valid_length quad_angles_per_frame 0) as Hlen.
  assert (Hbound : (30 * length reps
                    <= length (enumerate_valid 0 quad_angles_per_frame) + 29)%nat); [|lia].
  destruct (_calculate_baseline (enumerate_valid 0 quad_angles_per_frame)) as [b|] eqn:Hb.
  - rewrite (detect_reps_stages _ _ b Hb) in Hreps.
    set (valid := enumerate_valid 0 quad_angles_per_frame) in *.
    set (acc := accepted_peaks (peak_candidates valid (b + 20)) 30) in *.
    apply build_reps_length in Hreps.
    pose proof (sublist_length _ _ (filter_bounce_sublist (py_int (fps * 1.0)) valid acc))
      as Hf.
    assert (Hok : Forall (peak_ok valid (b + 20)) acc).
    { eapply Forall_sublist_of; [apply accepted_peaks_sublist | apply peak_candidates_ok]. }
    pose proof (accepted_peaks_strongly_spaced valid (b + 20) 30 ltac:(lia)) as Hs.
    fold acc in Hs.
    destruct acc as [|x rest]; [cbn [length] in Hf; lia|].
    destruct (spaced_reach 30 x rest Hs) as (y & Hy & Hreach).
    rewrite Forall_forall in Hok. destruct (Hok y Hy) as [Hlt _].
    cbn [length] in Hf. lia.
  - destruct (enumerate_valid 0 quad_angles_per_frame) as [|s0 valid0] eqn:Hvalid.
    + rewrite detect_reps_no_valid in Hreps by done. inversion Hreps. cbn. lia.
    + destruct (calculate_baseline_some (s0 :: valid0) ltac:(done)) as [b' Hb'].
      by rewrite Hb' in Hb.
Qed.

End SegmenterCount.
